(** * rtslam: segment feature detection and the SLAM entity graph

    A shallow embedding of

    - [src/src/hierarchicalDirectSegmentDetector.cpp]
      ([HierarchicalDirectSegmentDetector::detectIn]), and
    - [src/test_suite/test_main.cpp] ([newRobot], [newSensor],
      [newObservation], [newLandmark], [initSlam], [fillMapSeq]),

    followed by the properties of these functions.  C++ [double] is
    IEEE 754 binary64 and is modelled by Rocq's primitive floats; objects
    held through [shared_ptr] live in a store and are named by their
    address, so that aliasing is visible.  The classes of rtslam that
    [test_main.cpp] uses ([MapAbstract], the robots, sensors, landmarks
    and observations with their link methods, the filter) are not among
    the sources; what is said of them is taken from the specification
    and marked as such. *)

From Stdlib Require Import ZArith Floats Lia.
From stdpp Require Import gmap strings list sorting.

(* ===================================================================== *)
(** * Part I: the programs                                                *)
(* ===================================================================== *)

(** ** dseg: the candidate segments handed over by the detection routine *)

Module dseg.

(** [dseg::SegmentHypothesis], as far as [detectIn] reads it: the
    accessors [x1()], [y1()], [x2()], [y2()]. *)
Record SegmentHypothesis : Type := mkSegmentHypothesis {
  x1 : float;
  y1 : float;
  x2 : float;
  y2 : float
}.

(** [dseg::SegmentsSet]: an ordered collection, read through [count()]
    and [segmentAt(i)]. *)
Abbreviation SegmentsSet := (list SegmentHypothesis).

Definition count (set : SegmentsSet) : nat := length set.

Definition segmentAt (set : SegmentsSet) (i : nat) : option SegmentHypothesis :=
  set !! i.

End dseg.

(** ** HierarchicalDirectSegmentDetector::detectIn *)

Module HierarchicalDirectSegmentDetector.
Import dseg.

(** [AppearanceSegment(seg)]: the appearance keeps a snapshot of the
    segment hypothesis it is built from. *)
Inductive AppearanceSegment : Type :=
| mkAppearanceSegment (seg : SegmentHypothesis).

(** [featPtr->measurement]: the vector [x] and the [matchScore]. *)
Record Measurement : Type := mkMeasurement {
  x : list float;
  matchScore : float
}.

(** The part of a segment feature that [detectIn] writes. *)
Record FeatureSegment : Type := mkFeatureSegment {
  measurement : Measurement;
  appearancePtr : option AppearanceSegment
}.

(** Lines 30-32: [dx*dx + dy*dy] in double precision. *)
Definition sqrLength (seg : SegmentHypothesis) : float :=
  let dx := (x1 seg - x2 seg)%float in
  let dy := (y1 seg - y2 seg)%float in
  (dx * dx + dy * dy)%float.

(** One turn of the loop of lines 26-56, on the loop state
    [(bestId, bestSqrLength)].  The region-of-interest test of lines
    37-50 is commented out in the source and so has no counterpart.
    [bestId] is an [int] that starts at -1; the index [i] stays below
    [count()], which is taken to fit an [int]. *)
Definition loop_body (set : SegmentsSet) (st : Z * float) (i : nat) : Z * float :=
  match segmentAt set i with
  | Some seg =>
      if (snd st <? sqrLength seg)%float   (* sqrLength > bestSqrLength *)
      then (Z.of_nat i, sqrLength seg)
      else st
  | None => st
  end.

(** Lines 24-56: [bestId = -1], [bestSqrLength = -1], then the loop
    over [i = 0 .. count()-1]. *)
Definition scan (set : SegmentsSet) : Z * float :=
  foldl (loop_body set) ((-1)%Z, (-1)%float) (seq 0 (count set)).

(** Lines 60-63: [measurement.x(k) = ...] for k = 0..3.  The
    measurement of a segment feature has four components; a write past
    the end of a shorter vector, undefined in C++, is dropped here. *)
Definition write_endpoints (seg : SegmentHypothesis) (v : list float) : list float :=
  <[3 := y2 seg]> (<[2 := x2 seg]> (<[1 := y1 seg]> (<[0 := x1 seg]> v))).

Section detectIn.
(** [image::Image], [image::ConvexRoi] and the member [detector] with
    its [detectSegment(image, roiPtr, set)] belong to other
    libraries; the routine is taken as the function from its
    arguments to the set it fills.  [roiPtr] is a plain pointer and
    may be null. *)
Context {Image ConvexRoi : Type}.
Variable detectSegment : Image -> option ConvexRoi -> SegmentsSet.

(** The function returns [ret] and leaves its effect in [*featPtr]. *)
Definition detectIn (image : Image) (featPtr : FeatureSegment)
    (roiPtr : option ConvexRoi) : bool * FeatureSegment :=
  let ret := false in
  let set := detectSegment image roiPtr in
  if (0 <? count set)%nat then
    let bestId := fst (scan set) in
    if (0 <=? bestId)%Z then
      match segmentAt set (Z.to_nat bestId) with
      | Some seg =>
          (true,
           {| measurement :=
                {| x := write_endpoints seg (x (measurement featPtr));
                   matchScore := 1%float |};
              appearancePtr := Some (mkAppearanceSegment seg) |})
      | None => (ret, featPtr)
      end
    else (ret, featPtr)
  else (ret, featPtr).
End detectIn.

End HierarchicalDirectSegmentDetector.

(** ** Binary64 values as specified by [SpecFloat] *)

(** The sign carried by a value that is not a NaN. *)
Definition sf_sign_is (s : bool) (f : spec_float) : Prop :=
  match f with
  | S754_nan => False
  | S754_zero s' | S754_infinity s' | S754_finite s' _ _ => s' = s
  end.

(** Zeros and finite non-zero values. *)
Definition sf_finite (f : spec_float) : Prop :=
  match f with
  | S754_zero _ | S754_finite _ _ _ => True
  | _ => False
  end.

(** A segment whose four coordinates are finite numbers. *)
Definition finite_segment (seg : dseg.SegmentHypothesis) : Prop :=
  is_finite (dseg.x1 seg) = true /\ is_finite (dseg.y1 seg) = true /\
  is_finite (dseg.x2 seg) = true /\ is_finite (dseg.y2 seg) = true.

(** ** What the selection loop is meant to find *)

Section Selection.
Import dseg HierarchicalDirectSegmentDetector.

(** [seg] sits at index [k] of [set], no candidate is strictly longer
    than it, and every candidate before it is strictly shorter: the
    first candidate of maximal squared length. *)
Definition longest_first (set : SegmentsSet) (k : nat) (seg : SegmentHypothesis) : Prop :=
  set !! k = Some seg /\
  (forall j s, set !! j = Some s -> (sqrLength seg <? sqrLength s)%float = false) /\
  (forall j s, (j < k)%nat -> set !! j = Some s ->
               (sqrLength s <? sqrLength seg)%float = true).


(** The feature as lines 60-68 leave it for the chosen segment. *)
Definition written (seg : SegmentHypothesis) (featPtr : FeatureSegment) : FeatureSegment :=
  {| measurement := {| x := write_endpoints seg (x (measurement featPtr));
                       matchScore := 1%float |};
     appearancePtr := Some (mkAppearanceSegment seg) |}.

(** The candidates of the example of the specification. *)
Definition example_set : SegmentsSet :=
  [ mkSegmentHypothesis 0 0 1 0;
    mkSegmentHypothesis 0 0 10 0;
    mkSegmentHypothesis 0 0 5 5 ]%float.

Definition example_feature : FeatureSegment :=
  {| measurement := {| x := [0; 0; 0; 0]%float; matchScore := 0%float |};
     appearancePtr := None |}.
End Selection.

(** ** The SLAM entity graph of [test_main.cpp]

    The map, the robots, the sensors, the landmarks and the observations
    are objects behind [shared_ptr]s that point at each other.  The store
    keeps one table per class; a pointer is the index of its object in
    the table of its class, and [new] appends to the table. *)

Abbreviation ptr := nat.

(** What stops a call: the arena has no room for a state block, or a
    pointer that holds no object is dereferenced (an assertion failure of
    [boost::shared_ptr]). *)
Inductive Exc : Type := CapacityExceeded | NullPointer.

Module IdPool.
(** Modelled from the spec: the class behind [robotIds], [sensorIds]
    and [landmarkIds] is not in src.  The pool owns a counter and the
    released ids; [getId] hands out the smallest released id if there
    is one, else the next value of the counter.  The first id is 1
    ([initSomeLmks] reads [robots[1]->sensors[1]]). *)
Record t : Type := mk {
  counter : nat;
  released : list nat
}.

(** Modelled from the spec: a pool that has handed out no id yet. *)
Definition init : t := {| counter := 0; released := [] |}.

(** Modelled from the spec: [getId()], smallest released id first, else
    the next value of the counter. *)
Definition getId (p : t) : nat * t :=
  match merge_sort Nat.le (released p) with
  | i :: rest => (i, {| counter := counter p; released := rest |})
  | [] => (S (counter p), {| counter := S (counter p); released := released p |})
  end.
End IdPool.

Module MapAbstract.
(** Modelled from the spec: [MapAbstract] is not in src.  The state
    arena is the flag "in use" of each of the [max_size] indices; the
    two mappings are keyed by the id of the object they hold. *)
Record t : Type := mk {
  max_size : nat;
  used_states : list bool;
  robotIds : IdPool.t;
  sensorIds : IdPool.t;
  landmarkIds : IdPool.t;
  robots : gmap nat ptr;
  landmarks : gmap nat ptr
}.

(** Modelled from the spec: [MapAbstract(size_map)], an arena of
    [size_map] free indices, fresh pools and empty mappings. *)
Definition init (size_map : nat) : t :=
  {| max_size := size_map;
     used_states := replicate size_map false;
     robotIds := IdPool.init;
     sensorIds := IdPool.init;
     landmarkIds := IdPool.init;
     robots := ∅;
     landmarks := ∅ |}.

Definition set_used_states (u : list bool) (m : t) : t :=
  {| max_size := max_size m; used_states := u;
     robotIds := robotIds m; sensorIds := sensorIds m;
     landmarkIds := landmarkIds m;
     robots := robots m; landmarks := landmarks m |}.

Definition set_robotIds (p : IdPool.t) (m : t) : t :=
  {| max_size := max_size m; used_states := used_states m;
     robotIds := p; sensorIds := sensorIds m;
     landmarkIds := landmarkIds m;
     robots := robots m; landmarks := landmarks m |}.

Definition set_sensorIds (p : IdPool.t) (m : t) : t :=
  {| max_size := max_size m; used_states := used_states m;
     robotIds := robotIds m; sensorIds := p;
     landmarkIds := landmarkIds m;
     robots := robots m; landmarks := landmarks m |}.

Definition set_landmarkIds (p : IdPool.t) (m : t) : t :=
  {| max_size := max_size m; used_states := used_states m;
     robotIds := robotIds m; sensorIds := sensorIds m;
     landmarkIds := p;
     robots := robots m; landmarks := landmarks m |}.

Definition set_robots (r : gmap nat ptr) (m : t) : t :=
  {| max_size := max_size m; used_states := used_states m;
     robotIds := robotIds m; sensorIds := sensorIds m;
     landmarkIds := landmarkIds m;
     robots := r; landmarks := landmarks m |}.

Definition set_landmarks (l : gmap nat ptr) (m : t) : t :=
  {| max_size := max_size m; used_states := used_states m;
     robotIds := robotIds m; sensorIds := sensorIds m;
     landmarkIds := landmarkIds m;
     robots := robots m; landmarks := l |}.

(** Modelled from the spec: the arena's [allocate] is first-fit over
    the free ranges.  [range_free u start size] holds when the [size]
    indices from [start] exist and are free. *)
Definition range_free (u : list bool) (start size : nat) : bool :=
  forallb (fun i => match u !! i with Some false => true | _ => false end)
          (seq start size).

(** Modelled from the spec: the start of the first free range of
    [size] indices, if there is one. *)
Definition first_fit (u : list bool) (size : nat) : option nat :=
  head (filter (fun start => range_free u start size = true)
               (seq 0 (S (length u) - size))).

(** Modelled from the spec: the [size] indices from [start] become
    used. *)
Definition mark_used (start size : nat) (u : list bool) : list bool :=
  foldr (fun i acc => <[i := true]> acc) u (seq start size).

(** Modelled from the spec: [unusedStates(size)], the probe that
    [initSlam] makes before each creation, answers whether the arena
    can allocate a block of [size] states. *)
Definition unusedStates (m : t) (size : nat) : bool :=
  bool_decide (is_Some (first_fit (used_states m) size)).
End MapAbstract.

Module RobotAbstract.
(** Modelled from the spec: a robot has an id, a name, its block of
    states, the back-reference [slamMap] and the mapping [sensors]
    from sensor id to sensor. *)
Record t : Type := mk {
  id : nat;
  name : string;
  state : list nat;
  slamMap : option ptr;
  sensors : gmap nat ptr
}.

Definition set_id (i : nat) (r : t) : t :=
  {| id := i; name := name r; state := state r;
     slamMap := slamMap r; sensors := sensors r |}.
Definition set_name (n : string) (r : t) : t :=
  {| id := id r; name := n; state := state r;
     slamMap := slamMap r; sensors := sensors r |}.
Definition set_slamMap (p : option ptr) (r : t) : t :=
  {| id := id r; name := name r; state := state r;
     slamMap := p; sensors := sensors r |}.
Definition set_sensors (s : gmap nat ptr) (r : t) : t :=
  {| id := id r; name := name r; state := state r;
     slamMap := slamMap r; sensors := s |}.
End RobotAbstract.

Module SensorAbstract.
(** Modelled from the spec: a sensor has an id, a name, the flag
    [isInMap] and, when the flag is set, a block of states; the
    back-reference [robot] and the mapping [observations] from
    observation id to observation. *)
Record t : Type := mk {
  id : nat;
  name : string;
  isInMap : bool;
  state : list nat;
  robot : option ptr;
  observations : gmap nat ptr
}.

Definition set_id (i : nat) (s : t) : t :=
  {| id := i; name := name s; isInMap := isInMap s; state := state s;
     robot := robot s; observations := observations s |}.
Definition set_name (n : string) (s : t) : t :=
  {| id := id s; name := n; isInMap := isInMap s; state := state s;
     robot := robot s; observations := observations s |}.
Definition set_robot (p : option ptr) (s : t) : t :=
  {| id := id s; name := name s; isInMap := isInMap s; state := state s;
     robot := p; observations := observations s |}.
Definition set_observations (o : gmap nat ptr) (s : t) : t :=
  {| id := id s; name := name s; isInMap := isInMap s; state := state s;
     robot := robot s; observations := o |}.
End SensorAbstract.

Module LandmarkAbstract.
(** Modelled from the spec: a landmark has an id, a name, its block of
    states, the back-reference [slamMap] and the mapping
    [observations] from observation id to observation. *)
Record t : Type := mk {
  id : nat;
  name : string;
  state : list nat;
  slamMap : option ptr;
  observations : gmap nat ptr
}.

Definition set_id (i : nat) (l : t) : t :=
  {| id := i; name := name l; state := state l;
     slamMap := slamMap l; observations := observations l |}.
Definition set_name (n : string) (l : t) : t :=
  {| id := id l; name := n; state := state l;
     slamMap := slamMap l; observations := observations l |}.
Definition set_slamMap (p : option ptr) (l : t) : t :=
  {| id := id l; name := name l; state := state l;
     slamMap := p; observations := observations l |}.
Definition set_observations (o : gmap nat ptr) (l : t) : t :=
  {| id := id l; name := name l; state := state l;
     slamMap := slamMap l; observations := o |}.
End LandmarkAbstract.

Module ObservationAbstract.
(** Modelled from the spec: an observation has an id and the
    back-references [sensor] and [landmark]. *)
Record t : Type := mk {
  id : nat;
  sensor : option ptr;
  landmark : option ptr
}.

Definition set_id (i : nat) (o : t) : t :=
  {| id := i; sensor := sensor o; landmark := landmark o |}.
Definition set_sensor (p : option ptr) (o : t) : t :=
  {| id := id o; sensor := p; landmark := landmark o |}.
Definition set_landmark (p : option ptr) (o : t) : t :=
  {| id := id o; sensor := sensor o; landmark := p |}.
End ObservationAbstract.

(** *** The store and the calls that run in it *)

Record World : Type := mkWorld {
  maps : list MapAbstract.t;
  robs : list RobotAbstract.t;
  sens : list SensorAbstract.t;
  lmks : list LandmarkAbstract.t;
  obss : list ObservationAbstract.t
}.

Definition emptyWorld : World :=
  {| maps := []; robs := []; sens := []; lmks := []; obss := [] |}.

(** A call maps the store to the store it leaves and either the value it
    returns or the exception it throws; what was written before a throw
    stays written. *)
Definition M (A : Type) : Type := World -> World * (Exc + A).

Definition ret {A : Type} (a : A) : M A := fun w => (w, inr a).

Definition throw {A : Type} (e : Exc) : M A := fun w => (w, inl e).

Definition bind {A B : Type} (c : M A) (k : A -> M B) : M B :=
  fun w => match c w with
           | (w', inr a) => k a w'
           | (w', inl e) => (w', inl e)
           end.

Notation "'let*' x ':=' c 'in' k" := (bind c (fun x => k))
  (at level 10, x name, c at level 100, k at level 200).

(** [for (it = c.begin(); it != c.end(); it++) body(it)] *)
Fixpoint for_each {A : Type} (l : list A) (body : A -> M unit) : M unit :=
  match l with
  | [] => ret tt
  | a :: l' => let* _ := body a in for_each l' body
  end.

(** The entries of a [std::map], in the order its iterators visit them:
    by increasing key. *)
Definition key_le (a b : nat * ptr) : Prop := a.1 <= b.1.

#[global] Instance key_le_dec : RelDecision key_le.
Proof. intros a b. unfold key_le. apply _. Defined.

Definition std_map_items (m : gmap nat ptr) : list (nat * ptr) :=
  merge_sort key_le (map_to_list m).

(** A null [shared_ptr] stops the call where it is dereferenced. *)
Definition nonnull (p : option ptr) : M ptr :=
  match p with
  | Some q => ret q
  | None => throw NullPointer
  end.

Definition set_maps (f : list MapAbstract.t -> list MapAbstract.t) (w : World) : World :=
  {| maps := f (maps w); robs := robs w; sens := sens w; lmks := lmks w; obss := obss w |}.
Definition set_robs (f : list RobotAbstract.t -> list RobotAbstract.t) (w : World) : World :=
  {| maps := maps w; robs := f (robs w); sens := sens w; lmks := lmks w; obss := obss w |}.
Definition set_sens (f : list SensorAbstract.t -> list SensorAbstract.t) (w : World) : World :=
  {| maps := maps w; robs := robs w; sens := f (sens w); lmks := lmks w; obss := obss w |}.
Definition set_lmks (f : list LandmarkAbstract.t -> list LandmarkAbstract.t) (w : World) : World :=
  {| maps := maps w; robs := robs w; sens := sens w; lmks := f (lmks w); obss := obss w |}.
Definition set_obss (f : list ObservationAbstract.t -> list ObservationAbstract.t) (w : World) : World :=
  {| maps := maps w; robs := robs w; sens := sens w; lmks := lmks w; obss := f (obss w) |}.

(** [*p], [p->member = ...] and [new T(...)], once per class. *)
Definition deref_map (p : ptr) : M MapAbstract.t :=
  fun w => match maps w !! p with
           | Some m => (w, inr m)
           | None => (w, inl NullPointer)
           end.
Definition update_map (p : ptr) (f : MapAbstract.t -> MapAbstract.t) : M unit :=
  fun w => match maps w !! p with
           | Some m => (set_maps (fun l => <[p := f m]> l) w, inr tt)
           | None => (w, inl NullPointer)
           end.
Definition alloc_map (m : MapAbstract.t) : M ptr :=
  fun w => (set_maps (fun l => l ++ [m]) w, inr (length (maps w))).

Definition deref_rob (p : ptr) : M RobotAbstract.t :=
  fun w => match robs w !! p with
           | Some r => (w, inr r)
           | None => (w, inl NullPointer)
           end.
Definition update_rob (p : ptr) (f : RobotAbstract.t -> RobotAbstract.t) : M unit :=
  fun w => match robs w !! p with
           | Some r => (set_robs (fun l => <[p := f r]> l) w, inr tt)
           | None => (w, inl NullPointer)
           end.
Definition alloc_rob (r : RobotAbstract.t) : M ptr :=
  fun w => (set_robs (fun l => l ++ [r]) w, inr (length (robs w))).

Definition deref_sen (p : ptr) : M SensorAbstract.t :=
  fun w => match sens w !! p with
           | Some s => (w, inr s)
           | None => (w, inl NullPointer)
           end.
Definition update_sen (p : ptr) (f : SensorAbstract.t -> SensorAbstract.t) : M unit :=
  fun w => match sens w !! p with
           | Some s => (set_sens (fun l => <[p := f s]> l) w, inr tt)
           | None => (w, inl NullPointer)
           end.
Definition alloc_sen (s : SensorAbstract.t) : M ptr :=
  fun w => (set_sens (fun l => l ++ [s]) w, inr (length (sens w))).

Definition deref_lmk (p : ptr) : M LandmarkAbstract.t :=
  fun w => match lmks w !! p with
           | Some l => (w, inr l)
           | None => (w, inl NullPointer)
           end.
Definition update_lmk (p : ptr) (f : LandmarkAbstract.t -> LandmarkAbstract.t) : M unit :=
  fun w => match lmks w !! p with
           | Some l => (set_lmks (fun t => <[p := f l]> t) w, inr tt)
           | None => (w, inl NullPointer)
           end.
Definition alloc_lmk (l : LandmarkAbstract.t) : M ptr :=
  fun w => (set_lmks (fun t => t ++ [l]) w, inr (length (lmks w))).

Definition deref_obs (p : ptr) : M ObservationAbstract.t :=
  fun w => match obss w !! p with
           | Some o => (w, inr o)
           | None => (w, inl NullPointer)
           end.
Definition update_obs (p : ptr) (f : ObservationAbstract.t -> ObservationAbstract.t) : M unit :=
  fun w => match obss w !! p with
           | Some o => (set_obss (fun l => <[p := f o]> l) w, inr tt)
           | None => (w, inl NullPointer)
           end.
Definition alloc_obs (o : ObservationAbstract.t) : M ptr :=
  fun w => (set_obss (fun l => l ++ [o]) w, inr (length (obss w))).

(** *** The library calls made by [test_main.cpp] *)

(** Modelled from the spec: [new MapAbstract(size_map)]. *)
Definition new_MapAbstract (size_map : nat) : M ptr :=
  alloc_map (MapAbstract.init size_map).

(** Modelled from the spec: [slamMapPtr->unusedStates(size)]. *)
Definition unusedStates (slamMapPtr : ptr) (size : nat) : M bool :=
  let* m := deref_map slamMapPtr in
  ret (MapAbstract.unusedStates m size).

(** Modelled from the spec: [slamMapPtr->robotIds.getId()], and the same
    on the two other pools. *)
Definition robotIds_getId (slamMapPtr : ptr) : M nat :=
  let* m := deref_map slamMapPtr in
  let* _ := update_map slamMapPtr
              (MapAbstract.set_robotIds (IdPool.getId (MapAbstract.robotIds m)).2) in
  ret (IdPool.getId (MapAbstract.robotIds m)).1.

Definition sensorIds_getId (slamMapPtr : ptr) : M nat :=
  let* m := deref_map slamMapPtr in
  let* _ := update_map slamMapPtr
              (MapAbstract.set_sensorIds (IdPool.getId (MapAbstract.sensorIds m)).2) in
  ret (IdPool.getId (MapAbstract.sensorIds m)).1.

Definition landmarkIds_getId (slamMapPtr : ptr) : M nat :=
  let* m := deref_map slamMapPtr in
  let* _ := update_map slamMapPtr
              (MapAbstract.set_landmarkIds (IdPool.getId (MapAbstract.landmarkIds m)).2) in
  ret (IdPool.getId (MapAbstract.landmarkIds m)).1.

(** Modelled from the spec: the constructor of an object with states
    asks the arena of the map for a block ([allocate]); when the arena
    has no free range of that size the construction fails with
    [CapacityExceeded]. *)
Definition reserveStates (slamMapPtr : ptr) (size : nat) : M (list nat) :=
  let* m := deref_map slamMapPtr in
  match MapAbstract.first_fit (MapAbstract.used_states m) size with
  | Some start =>
      let* _ := update_map slamMapPtr
                  (MapAbstract.set_used_states
                     (MapAbstract.mark_used start size (MapAbstract.used_states m))) in
      ret (seq start size)
  | None => throw CapacityExceeded
  end.

(** The link methods are not in src.  By the data model of the
    specification, [linkToRobot], [linkToSensor], [linkToLandmark] and
    [linkToObservation] of an owner store the pointer in the owner's
    mapping under the id of the object pointed at, and [linkToMap],
    [linkToRobot], [linkToSensor] and [linkToLandmark] of an owned
    object set its back-reference. *)

(** Modelled from the spec: [MapAbstract::linkToRobot], the map's
    mapping from robot id to robot. *)
Definition MapAbstract_linkToRobot (slamMapPtr robPtr : ptr) : M unit :=
  let* r := deref_rob robPtr in
  update_map slamMapPtr
    (fun m => MapAbstract.set_robots (<[RobotAbstract.id r := robPtr]> (MapAbstract.robots m)) m).

(** Modelled from the spec: [RobotAbstract::linkToMap], the robot's
    back-reference to its map. *)
Definition RobotAbstract_linkToMap (robPtr slamMapPtr : ptr) : M unit :=
  update_rob robPtr (RobotAbstract.set_slamMap (Some slamMapPtr)).

(** Modelled from the spec: [RobotAbstract::linkToSensor], the robot's
    mapping from sensor id to sensor. *)
Definition RobotAbstract_linkToSensor (robPtr senPtr : ptr) : M unit :=
  let* s := deref_sen senPtr in
  update_rob robPtr
    (fun r => RobotAbstract.set_sensors (<[SensorAbstract.id s := senPtr]> (RobotAbstract.sensors r)) r).

(** Modelled from the spec: [SensorAbstract::linkToRobot], the sensor's
    back-reference to its robot. *)
Definition SensorAbstract_linkToRobot (senPtr robPtr : ptr) : M unit :=
  update_sen senPtr (SensorAbstract.set_robot (Some robPtr)).

(** Modelled from the spec: [MapAbstract::linkToLandmark], the map's
    mapping from landmark id to landmark. *)
Definition MapAbstract_linkToLandmark (slamMapPtr lmkPtr : ptr) : M unit :=
  let* l := deref_lmk lmkPtr in
  update_map slamMapPtr
    (fun m => MapAbstract.set_landmarks
                (<[LandmarkAbstract.id l := lmkPtr]> (MapAbstract.landmarks m)) m).

(** Modelled from the spec: [LandmarkAbstract::linkToMap], the
    landmark's back-reference to its map. *)
Definition LandmarkAbstract_linkToMap (lmkPtr slamMapPtr : ptr) : M unit :=
  update_lmk lmkPtr (LandmarkAbstract.set_slamMap (Some slamMapPtr)).

(** Modelled from the spec: [ObservationAbstract::linkToSensor], the
    observation's back-reference to its sensor. *)
Definition ObservationAbstract_linkToSensor (obsPtr senPtr : ptr) : M unit :=
  update_obs obsPtr (ObservationAbstract.set_sensor (Some senPtr)).

(** Modelled from the spec: [ObservationAbstract::linkToLandmark], the
    observation's back-reference to its landmark. *)
Definition ObservationAbstract_linkToLandmark (obsPtr lmkPtr : ptr) : M unit :=
  update_obs obsPtr (ObservationAbstract.set_landmark (Some lmkPtr)).

(** Modelled from the spec: [SensorAbstract::linkToObservation], the
    sensor's mapping from observation id to observation. *)
Definition SensorAbstract_linkToObservation (senPtr obsPtr : ptr) : M unit :=
  let* o := deref_obs obsPtr in
  update_sen senPtr
    (fun s => SensorAbstract.set_observations
                (<[ObservationAbstract.id o := obsPtr]> (SensorAbstract.observations s)) s).

(** Modelled from the spec: [LandmarkAbstract::linkToObservation], the
    landmark's mapping from observation id to observation. *)
Definition LandmarkAbstract_linkToObservation (lmkPtr obsPtr : ptr) : M unit :=
  let* o := deref_obs obsPtr in
  update_lmk lmkPtr
    (fun l => LandmarkAbstract.set_observations
                (<[ObservationAbstract.id o := obsPtr]> (LandmarkAbstract.observations l)) l).

(** *** The functions of [test_main.cpp] *)

Section Slam.
(** [Robot3DConstantVelocity::size()], [SensorPinHole::size()] and
    [LandmarkAnchoredHomogeneousPoint::size()], which src does not
    give. *)
Variables size_robCV size_senPH size_lmkAHP : nat.

(** Modelled from the spec: [new Robot3DConstantVelocity( *slamMapPtr )],
    a robot with a block of [size_robCV] states of the map, not yet
    linked. *)
Definition new_Robot3DConstantVelocity (slamMapPtr : ptr) : M ptr :=
  let* ia := reserveStates slamMapPtr size_robCV in
  alloc_rob {| RobotAbstract.id := 0; RobotAbstract.name := "";
               RobotAbstract.state := ia;
               RobotAbstract.slamMap := None; RobotAbstract.sensors := ∅ |}.

(** Modelled from the spec: [new SensorPinHole( *robPtr, isInMap )]; the
    pose of the sensor takes a block of states of the robot's map only
    when [isInMap] is set. *)
Definition new_SensorPinHole (robPtr : ptr) (isInMap : bool) : M ptr :=
  let* r := deref_rob robPtr in
  let* ia := (if isInMap
              then let* slamMapPtr := nonnull (RobotAbstract.slamMap r) in
                   reserveStates slamMapPtr size_senPH
              else ret []) in
  alloc_sen {| SensorAbstract.id := 0; SensorAbstract.name := "";
               SensorAbstract.isInMap := isInMap; SensorAbstract.state := ia;
               SensorAbstract.robot := None; SensorAbstract.observations := ∅ |}.

(** Modelled from the spec:
    [new LandmarkAnchoredHomogeneousPoint( *slamMapPtr )], a landmark
    with a block of [size_lmkAHP] states of the map, not yet linked. *)
Definition new_LandmarkAnchoredHomogeneousPoint (slamMapPtr : ptr) : M ptr :=
  let* ia := reserveStates slamMapPtr size_lmkAHP in
  alloc_lmk {| LandmarkAbstract.id := 0; LandmarkAbstract.name := "";
               LandmarkAbstract.state := ia;
               LandmarkAbstract.slamMap := None;
               LandmarkAbstract.observations := ∅ |}.

(** Modelled from the spec:
    [new ObservationPinHoleAnchoredHomogeneousPoint()], an observation
    without states, not yet linked. *)
Definition new_ObservationPinHoleAnchoredHomogeneousPoint : M ptr :=
  alloc_obs {| ObservationAbstract.id := 0;
               ObservationAbstract.sensor := None;
               ObservationAbstract.landmark := None |}.

(** Lines 108-118. *)
Definition newRobot (slamMapPtr : ptr) (name : string) : M ptr :=
  let* rid := robotIds_getId slamMapPtr in
  let* robPtr := new_Robot3DConstantVelocity slamMapPtr in
  let* _ := update_rob robPtr (RobotAbstract.set_id rid) in
  let* _ := update_rob robPtr (RobotAbstract.set_name name) in
  let* _ := MapAbstract_linkToRobot slamMapPtr robPtr in
  let* _ := RobotAbstract_linkToMap robPtr slamMapPtr in
  ret robPtr.

(** Lines 125-136. *)
Definition newSensor (robPtr : ptr) (name : string) (isInMap : bool) : M ptr :=
  let* r := deref_rob robPtr in
  let* slamMapPtr := nonnull (RobotAbstract.slamMap r) in
  let* sid := sensorIds_getId slamMapPtr in
  let* senPtr := new_SensorPinHole robPtr isInMap in
  let* _ := update_sen senPtr (SensorAbstract.set_id sid) in
  let* _ := update_sen senPtr (SensorAbstract.set_name name) in
  let* _ := RobotAbstract_linkToSensor robPtr senPtr in
  let* _ := SensorAbstract_linkToRobot senPtr robPtr in
  ret senPtr.

(** Lines 143-152. *)
Definition newObservation (senPtr lmkPtr : ptr) : M ptr :=
  let* obsPtr := new_ObservationPinHoleAnchoredHomogeneousPoint in
  let* _ := update_obs obsPtr (ObservationAbstract.set_id 0) in
  let* _ := ObservationAbstract_linkToSensor obsPtr senPtr in
  let* _ := ObservationAbstract_linkToLandmark obsPtr lmkPtr in
  let* _ := SensorAbstract_linkToObservation senPtr obsPtr in
  let* _ := LandmarkAbstract_linkToObservation lmkPtr obsPtr in
  ret obsPtr.

(** Lines 171-177: the two nested loops, over the robots of the map and
    over the sensors of each robot. *)
Definition observe_from_every_sensor (slamMapPtr lmkPtr : ptr) : M unit :=
  let* m := deref_map slamMapPtr in
  for_each (std_map_items (MapAbstract.robots m)) (fun robIter =>
    let robPtr := robIter.2 in
    let* r := deref_rob robPtr in
    for_each (std_map_items (RobotAbstract.sensors r)) (fun senIter =>
      let senPtr := senIter.2 in
      let* obsPtr := newObservation senPtr lmkPtr in
      ret tt)).

(** Lines 158-180. *)
Definition newLandmark (slamMapPtr : ptr) : M ptr :=
  let* lid := landmarkIds_getId slamMapPtr in
  let* lmkPtr := new_LandmarkAnchoredHomogeneousPoint slamMapPtr in
  let* _ := update_lmk lmkPtr (LandmarkAbstract.set_id lid) in
  let* _ := update_lmk lmkPtr (LandmarkAbstract.set_name "") in
  let* _ := MapAbstract_linkToLandmark slamMapPtr lmkPtr in
  let* _ := LandmarkAbstract_linkToMap lmkPtr slamMapPtr in
  let* _ := observe_from_every_sensor slamMapPtr lmkPtr in
  ret lmkPtr.

(** Lines 182-218; the poses set at lines 197, 201 and 205 are numbers
    in the state vector and leave the graph alone. *)
Definition initSlam (size_map : nat) : M ptr :=
  let* slamMapPtr := new_MapAbstract size_map in
  let* room := unusedStates slamMapPtr size_robCV in
  let* _ := (if room then
               let* robPtr := newRobot slamMapPtr "SUBMARINE" in
               let* room1 := unusedStates slamMapPtr size_senPH in
               let* _ := (if room1 then
                            let* senPtr := newSensor robPtr "FLEA" false in ret tt
                          else ret tt) in
               let* room2 := unusedStates slamMapPtr size_senPH in
               let* _ := (if room2 then
                            let* senPtr := newSensor robPtr "MARLIN" true in ret tt
                          else ret tt) in
               ret tt
             else ret tt) in
  ret slamMapPtr.
End Slam.

(** ** The predict step called at line 267 *)

Module ExtendedKalmanFilterIndirect.
(** Modelled from the spec: [ExtendedKalmanFilterIndirect::predict] is
    not in src ([test_main01] only calls it).  The covariance is read
    and written entry by entry, as [fillMapSeq] does with [map.P(i,j)];
    the entries are taken in exact arithmetic, the equations of the
    specification being those of linear algebra. *)
Definition mat : Type := nat -> nat -> Z.

(** [ia(k)], the [k]-th index of an indirect array, and the position
    of an index in it. *)
Definition at_ (ia : list nat) (k : nat) : nat := nth k ia 0.

Fixpoint index_of (i : nat) (ia : list nat) : option nat :=
  match ia with
  | [] => None
  | k :: ia' => if decide (k = i) then Some 0 else S <$> index_of i ia'
  end.

Definition sum_upto (n : nat) (f : nat -> Z) : Z :=
  foldr (fun k acc => (f k + acc)%Z) 0%Z (seq 0 n).

(** The block [J·P·Jᵗ] of the robot, by local indices. *)
Definition JPJt (J : mat) (iav : list nat) (P : mat) : mat :=
  fun a b =>
    sum_upto (length iav) (fun k =>
      sum_upto (length iav) (fun l =>
        (J a k * P (at_ iav k) (at_ iav l) * J b l)%Z)).

(** Modelled from the spec: [predict(used_indices, robot_jacobian,
    robot_slot, process_noise)].  Among the used indices, a block
    that does not involve the robot's slot is unchanged; the
    robot-to-other blocks are multiplied by the Jacobian only; the
    robot's own block is multiplied on both sides and picks up the
    noise.  Entries outside the used indices are not touched. *)
Definition predict (iax : list nat) (J : mat) (iav : list nat) (Q : mat)
    (P : mat) : mat :=
  fun i j =>
    if bool_decide (i ∈ iax) && bool_decide (j ∈ iax) then
      match index_of i iav, index_of j iav with
      | Some a, Some b => (JPJt J iav P a b + Q a b)%Z
      | Some a, None =>
          sum_upto (length iav) (fun k => (J a k * P (at_ iav k) j)%Z)
      | None, Some b =>
          sum_upto (length iav) (fun l => (P i (at_ iav l) * J b l)%Z)
      | None, None => P i j
      end
    else P i j.

Definition identity : mat := fun a b => if decide (a = b) then 1%Z else 0%Z.

Definition zero : mat := fun _ _ => 0%Z.
End ExtendedKalmanFilterIndirect.

(** Lines 43-50, on the covariance: [map.P(i, j) = i + 100 * j] for
    [i, j < size_map]. *)
Definition fillMapSeq (size_map : nat) (P : ExtendedKalmanFilterIndirect.mat) :
    ExtendedKalmanFilterIndirect.mat :=
  fun i j =>
    if bool_decide (i < size_map) && bool_decide (j < size_map)
    then (Z.of_nat i + 100 * Z.of_nat j)%Z
    else P i j.


(** *** What the properties below speak about *)

(** The observation that [newObservation senPtr lmkPtr] leaves in the
    store. *)
Definition fresh_obs (senPtr lmkPtr : ptr) : ObservationAbstract.t :=
  {| ObservationAbstract.id := 0;
     ObservationAbstract.sensor := Some senPtr;
     ObservationAbstract.landmark := Some lmkPtr |}.

(** The owners of the table [xs] keep, in their mapping [f], only
    pointers to objects of the table [ys] whose back-reference [g]
    points at that owner. *)
Definition linked {X Y : Type} (xs : list X) (f : X -> gmap nat ptr)
    (ys : list Y) (g : Y -> option ptr) : Prop :=
  forall xp x k yp,
    xs !! xp = Some x -> f x !! k = Some yp ->
    exists y, ys !! yp = Some y /\ g y = Some xp.

(** Whenever the mapping of an entity contains another entity, the
    back-reference of that one points at the first: for map and robot,
    map and landmark, robot and sensor, sensor and observation, landmark
    and observation. *)
Definition links_ok (w : World) : Prop :=
  linked (maps w) MapAbstract.robots (robs w) RobotAbstract.slamMap /\
  linked (maps w) MapAbstract.landmarks (lmks w) LandmarkAbstract.slamMap /\
  linked (robs w) RobotAbstract.sensors (sens w) SensorAbstract.robot /\
  linked (sens w) SensorAbstract.observations (obss w) ObservationAbstract.sensor /\
  linked (lmks w) LandmarkAbstract.observations (obss w) ObservationAbstract.landmark.

(** Every observation of the store carries the id 0. *)
Definition observation_ids_zero (w : World) : Prop :=
  forall p o, obss w !! p = Some o -> ObservationAbstract.id o = 0.

(** [c] keeps [I], however it ends. *)
Definition preserves {A : Type} (I : World -> Prop) (c : M A) : Prop :=
  forall w, I w -> I (c w).1.

(** The calls a program can make on the graph, and the store a sequence
    of them leaves. *)
Inductive Call : Type :=
| CallInitSlam (size_map : nat)
| CallNewRobot (slamMapPtr : ptr) (name : string)
| CallNewSensor (robPtr : ptr) (name : string) (isInMap : bool)
| CallNewObservation (senPtr lmkPtr : ptr)
| CallNewLandmark (slamMapPtr : ptr).

Section Programs.
Variables size_robCV size_senPH size_lmkAHP : nat.

Definition exec (c : Call) (w : World) : World :=
  match c with
  | CallInitSlam size_map => (initSlam size_robCV size_senPH size_map w).1
  | CallNewRobot slamMapPtr name => (newRobot size_robCV slamMapPtr name w).1
  | CallNewSensor robPtr name isInMap => (newSensor size_senPH robPtr name isInMap w).1
  | CallNewObservation senPtr lmkPtr => (newObservation senPtr lmkPtr w).1
  | CallNewLandmark slamMapPtr => (newLandmark size_lmkAHP slamMapPtr w).1
  end.

Definition exec_all (cs : list Call) (w : World) : World :=
  foldl (fun w c => exec c w) w cs.
End Programs.
(** The mappings [f] of the owners of the table [xs] have no key but 0. *)
Definition keys_zero {X : Type} (xs : list X) (f : X -> gmap nat ptr) : Prop :=
  forall xp x k yp, xs !! xp = Some x -> f x !! k = Some yp -> k = 0.

(** No observation mapping, of a sensor or of a landmark, has a key
    other than 0. *)
Definition observation_keys_zero (w : World) : Prop :=
  keys_zero (sens w) SensorAbstract.observations /\
  keys_zero (lmks w) LandmarkAbstract.observations.

(** The sensors that the loops of [newLandmark] visit, in order: the
    sensors of the robots of the map. *)
Definition registered_sensors (w : World) (slamMapPtr : ptr) : list ptr :=
  match maps w !! slamMapPtr with
  | Some m =>
      flat_map (fun robIter : nat * ptr =>
                  match robs w !! robIter.2 with
                  | Some r => snd <$> std_map_items (RobotAbstract.sensors r)
                  | None => []
                  end)
               (std_map_items (MapAbstract.robots m))
  | None => []
  end.


(** *** The stores of the examples

    [test_main01] calls [initSlam(300)].  The sizes of the state blocks
    are not in src; the examples take 13 states for the robot (position,
    quaternion, two velocities) and 7 for a sensor pose and for a
    landmark.  Landmarks are added to the map as [initSomeLmks] adds
    them, by [newLandmark]. *)
Definition test_store : World := (initSlam 13 7 300 emptyWorld).1.

Definition test_store_one_landmark : World := (newLandmark 7 0 test_store).1.

Definition test_store_two_landmarks : World :=
  (newLandmark 7 0 test_store_one_landmark).1.


(** ** Further notions for the selection loop *)

Section SelectionWithNaN.
Import dseg HierarchicalDirectSegmentDetector.

(** [seg] sits at index [k] of [set] and its squared length is a number;
    no candidate is strictly longer, and every candidate before it
    whose squared length is a number is strictly shorter. *)
Definition longest_first_number (set : SegmentsSet) (k : nat)
    (seg : SegmentHypothesis) : Prop :=
  set !! k = Some seg /\
  is_nan (sqrLength seg) = false /\
  (forall j s, set !! j = Some s -> (sqrLength seg <? sqrLength s)%float = false) /\
  (forall j s, (j < k)%nat -> set !! j = Some s ->
               is_nan (sqrLength s) = false ->
               (sqrLength s <? sqrLength seg)%float = true).

(** The loop state after [n] turns, whatever the candidates: still the
    initial one, all squared lengths so far being NaN, or the first
    longest candidate among those seen. *)
Definition best_number_upto (set : SegmentsSet) (n : nat) (st : Z * float) : Prop :=
  (st = ((-1)%Z, (-1)%float) /\
   forall j s, (j < n)%nat -> set !! j = Some s -> is_nan (sqrLength s) = true) \/
  exists k seg, (k < n)%nat /\ st = (Z.of_nat k, sqrLength seg) /\
                longest_first_number (take n set) k seg.
End SelectionWithNaN.

(** Candidates of which the first has no squared length: its first
    coordinate is a NaN. *)
Definition nan_first_set : dseg.SegmentsSet :=
  [ dseg.mkSegmentHypothesis nan 0 0 0;
    dseg.mkSegmentHypothesis 0 0 10 0;
    dseg.mkSegmentHypothesis 0 0 1 0;
    dseg.mkSegmentHypothesis 0 10 0 0 ]%float.

(** ** Entities registered with their owner *)

(** The pool [p] has no released id, and every key of the mapping [m]
    is an id that [p] has handed out. *)
Definition pool_above (p : IdPool.t) (m : gmap nat ptr) : Prop :=
  IdPool.released p = [] /\
  forall k y, m !! k = Some y -> k <= IdPool.counter p.

(** The converse of [links_ok], for robots, sensors and landmarks: each
    of them is in the mapping of the owner that its back-reference
    points at, under its own id; and the keys of the mappings are ids
    that the pools of the map have handed out. *)
Definition registered (w : World) : Prop :=
  (forall mp m, maps w !! mp = Some m ->
     pool_above (MapAbstract.robotIds m) (MapAbstract.robots m) /\
     pool_above (MapAbstract.landmarkIds m) (MapAbstract.landmarks m) /\
     IdPool.released (MapAbstract.sensorIds m) = []) /\
  (forall rp r, robs w !! rp = Some r ->
     exists mp m,
       RobotAbstract.slamMap r = Some mp /\ maps w !! mp = Some m /\
       MapAbstract.robots m !! RobotAbstract.id r = Some rp /\
       forall k y, RobotAbstract.sensors r !! k = Some y ->
                   k <= IdPool.counter (MapAbstract.sensorIds m)) /\
  (forall sp s, sens w !! sp = Some s ->
     exists rp r,
       SensorAbstract.robot s = Some rp /\ robs w !! rp = Some r /\
       RobotAbstract.sensors r !! SensorAbstract.id s = Some sp) /\
  (forall lp l, lmks w !! lp = Some l ->
     exists mp m,
       LandmarkAbstract.slamMap l = Some mp /\ maps w !! mp = Some m /\
       MapAbstract.landmarks m !! LandmarkAbstract.id l = Some lp).

(** ** printSlam *)

(** What [printSlam] writes on [cout], one entry per [<<] of a banner or
    of an object; the text that [operator<<] gives for an object is not
    in src, the entry records which object was printed. *)
Inductive Printed : Type :=
| PrintedRobotsBanner
| PrintedRobot (r : RobotAbstract.t)
| PrintedSensor (s : SensorAbstract.t)
| PrintedLandmarksBanner
| PrintedLandmark (l : LandmarkAbstract.t)
| PrintedObservation (o : ObservationAbstract.t).

(** A run of code that only prints: what it has printed, and the
    exception that stopped it, if one did. *)
Definition Out : Type := list Printed * option Exc.

Definition put (p : Printed) : Out := ([p], None).

Definition stop (e : Exc) : Out := ([], Some e).

Definition out_then (a k : Out) : Out :=
  match a.2 with
  | Some e => a
  | None => (a.1 ++ k.1, k.2)
  end.

Fixpoint out_for {A : Type} (l : list A) (body : A -> Out) : Out :=
  match l with
  | [] => ([], None)
  | a :: l' => out_then (body a) (out_for l' body)
  end.

(** Lines 88-89, the body of the loop over the sensors of a robot. *)
Definition print_sensor (w : World) (senIter : nat * ptr) : Out :=
  let senPtr := senIter.2 in
  match sens w !! senPtr with
  | None => stop NullPointer
  | Some s => put (PrintedSensor s)
  end.

(** Lines 85-90, the body of the loop over the robots of the map. *)
Definition print_robot (w : World) (robIter : nat * ptr) : Out :=
  let robPtr := robIter.2 in
  match robs w !! robPtr with
  | None => stop NullPointer
  | Some r =>
      out_then (put (PrintedRobot r))
        (out_for (std_map_items (RobotAbstract.sensors r)) (print_sensor w))
  end.

(** Lines 97-98, the body of the loop over the observations of a
    landmark. *)
Definition print_observation (w : World) (obsIter : nat * ptr) : Out :=
  let obsPtr := obsIter.2 in
  match obss w !! obsPtr with
  | None => stop NullPointer
  | Some o => put (PrintedObservation o)
  end.

(** Lines 94-99, the body of the loop over the landmarks of the map. *)
Definition print_landmark (w : World) (lmkIter : nat * ptr) : Out :=
  let lmkPtr := lmkIter.2 in
  match lmks w !! lmkPtr with
  | None => stop NullPointer
  | Some l =>
      out_then (put (PrintedLandmark l))
        (out_for (std_map_items (LandmarkAbstract.observations l))
           (print_observation w))
  end.

(** Lines 76-101.  The store is read, not written. *)
Definition printSlam (w : World) (slamMapPtr : ptr) : Out :=
  out_then (put PrintedRobotsBanner)
    match maps w !! slamMapPtr with
    | None => stop NullPointer
    | Some m =>
        out_then
          (out_for (std_map_items (MapAbstract.robots m)) (print_robot w))
          (out_then (put PrintedLandmarksBanner)
             (out_for (std_map_items (MapAbstract.landmarks m)) (print_landmark w)))
    end.

(** The observations among the entries printed. *)
Definition printed_observations (out : list Printed) : list ObservationAbstract.t :=
  omap (fun p => match p with PrintedObservation o => Some o | _ => None end) out.

(** ** The loops of fillMapSeq and fillMapDiag *)

(** The mean [map.x] and the covariance [map.P], entry by entry.  The
    values written are small integers ([i], [i + 100 * j] with
    [i, j < max_size]), which the doubles of the map hold exactly;
    they are taken in exact arithmetic, as for [predict]. *)
Definition vec : Type := nat -> Z.

(** [x(i) = a] and [P(i, j) = a]. *)
Definition set_x (x : vec) (i : nat) (a : Z) : vec :=
  fun k => if decide (k = i) then a else x k.

Definition set_P (P : ExtendedKalmanFilterIndirect.mat) (i j : nat) (a : Z) :
    ExtendedKalmanFilterIndirect.mat :=
  fun k l => if decide (k = i) then (if decide (l = j) then a else P k l) else P k l.

(** Lines 43-50, the two loops as they run. *)
Definition fillMapSeq_loops (size_map : nat)
    (xP : vec * ExtendedKalmanFilterIndirect.mat) :
    vec * ExtendedKalmanFilterIndirect.mat :=
  foldl (fun st i =>
           foldl (fun st' j =>
                    (st'.1, set_P st'.2 i j (Z.of_nat i + 100 * Z.of_nat j)%Z))
                 (set_x st.1 i (Z.of_nat i), st.2)
                 (seq 0 size_map))
        xP (seq 0 size_map).

(** Lines 52-58. *)
Definition fillMapDiag (size_map : nat)
    (xP : vec * ExtendedKalmanFilterIndirect.mat) :
    vec * ExtendedKalmanFilterIndirect.mat :=
  foldl (fun st i => (set_x st.1 i (Z.of_nat i), set_P st.2 i i (Z.of_nat i)))
        xP (seq 0 size_map).

(** A matrix that equals its transpose on the indices below [n]. *)
Definition symmetric_upto (n : nat) (P : ExtendedKalmanFilterIndirect.mat) : Prop :=
  forall i j, i < n -> j < n -> P i j = P j i.

(* ===================================================================== *)
(** * Part II: properties                                                 *)
(* ===================================================================== *)

(** ** Order and sign of binary64 values *)

Section Binary64.

Ltac cmp_cases :=
  repeat match goal with
  | |- context [Z.compare ?a ?b] => destruct (Z.compare_spec a b)
  | H : context [Z.compare ?a ?b] |- _ => destruct (Z.compare_spec a b)
  | |- context [Pos.compare_cont Eq ?a ?b] =>
      change (Pos.compare_cont Eq a b) with (Pos.compare a b);
      destruct (Pos.compare_spec a b)
  | H : context [Pos.compare_cont Eq ?a ?b] |- _ =>
      change (Pos.compare_cont Eq a b) with (Pos.compare a b) in H;
      destruct (Pos.compare_spec a b)
  end.

Ltac by_float_cases a b c :=
  unfold SFltb;
  destruct a as [[]|[]| |[] ?ma ?ea], b as [[]|[]| |[] ?mb ?eb],
           c as [[]|[]| |[] ?mc ?ec];
  simpl; try congruence; intros; cmp_cases; simpl in *;
  try congruence; try lia.

Lemma SFltb_irrefl f : SFltb f f = false.
Proof.
  unfold SFltb. destruct f as [[]|[]| |[] m e]; simpl; try reflexivity;
    rewrite Z.compare_refl, Pos.compare_cont_refl; reflexivity.
Qed.

Lemma SFltb_trans a b c :
  SFltb a b = true -> SFltb b c = true -> SFltb a c = true.
Proof. by_float_cases a b c. Qed.

(** [a <= b < c] gives [a < c] as soon as [a] is a number. *)
Lemma SFltb_le_lt_trans a b c :
  a <> S754_nan -> SFltb b a = false -> SFltb b c = true -> SFltb a c = true.
Proof. by_float_cases a b c. Qed.

Lemma shr_1_nonneg mrs : (0 <= shr_m mrs)%Z -> (0 <= shr_m (shr_1 mrs))%Z.
Proof. destruct mrs as [[|[p|p|]|[p|p|]] r s]; simpl; lia. Qed.

Lemma iter_pos_shr_1_nonneg p : forall mrs,
  (0 <= shr_m mrs)%Z -> (0 <= shr_m (SpecFloat.iter_pos shr_1 p mrs))%Z.
Proof.
  induction p as [p IH|p IH|]; simpl; intros mrs H.
  - apply IH, IH, shr_1_nonneg, H.
  - apply IH, IH, H.
  - apply shr_1_nonneg, H.
Qed.

Lemma shr_fexp_nonneg pr em m e l :
  (0 <= m)%Z -> (0 <= shr_m (fst (shr_fexp pr em m e l)))%Z.
Proof.
  intros H. unfold shr_fexp, shr.
  assert (0 <= shr_m (shr_record_of_loc m l))%Z as H0
    by (destruct l as [|[]]; simpl; exact H).
  destruct (_ - e)%Z; simpl; try exact H0.
  apply iter_pos_shr_1_nonneg, H0.
Qed.

Lemma round_nearest_even_nonneg m l :
  (0 <= m)%Z -> (0 <= round_nearest_even m l)%Z.
Proof. destruct l as [|[]]; simpl; try destruct (Z.even m); lia. Qed.

(** Rounding a non-negative mantissa never produces a NaN and keeps
    the sign it is given. *)
Lemma binary_round_aux_sign pr em s m e l :
  (0 <= m)%Z -> sf_sign_is s (binary_round_aux pr em s m e l).
Proof.
  intros H. unfold binary_round_aux.
  pose proof (shr_fexp_nonneg pr em m e l H) as H1.
  destruct (shr_fexp pr em m e l) as [mrs' e']. simpl in H1.
  pose proof (shr_fexp_nonneg pr em _ e' loc_Exact
                (round_nearest_even_nonneg _ (loc_of_shr_record mrs') H1)) as H2.
  destruct (shr_fexp pr em _ e' loc_Exact) as [mrs'' e'']. simpl in H2.
  destruct (shr_m mrs''); simpl; try reflexivity; try lia.
  destruct (_ <=? _)%Z; reflexivity.
Qed.

Lemma binary_round_sign pr em s m e : sf_sign_is s (binary_round pr em s m e).
Proof.
  unfold binary_round. destruct (shl_align _ _ _) as [mz ez].
  apply binary_round_aux_sign. lia.
Qed.

Lemma SFmul_self_nonneg pr em f :
  f <> S754_nan -> sf_sign_is false (SFmul pr em f f).
Proof.
  destruct f as [[]|[]| |[] m e]; simpl; try congruence; intros _;
    apply binary_round_aux_sign; lia.
Qed.

Lemma SFmul_self_nan_or_nonneg pr em f :
  SFmul pr em f f = S754_nan \/ sf_sign_is false (SFmul pr em f f).
Proof.
  destruct f as [s|s| |s m e]; try (left; reflexivity);
    right; apply SFmul_self_nonneg; congruence.
Qed.

Lemma SFadd_nonneg pr em a b :
  sf_sign_is false a -> sf_sign_is false b -> sf_sign_is false (SFadd pr em a b).
Proof.
  destruct a as [sa|sa| |sa ma ea], b as [sb|sb| |sb mb eb]; simpl;
    intros Ha Hb; subst; try contradiction; try reflexivity.
  apply binary_round_sign.
Qed.

Lemma SFadd_nan_l pr em b : SFadd pr em S754_nan b = S754_nan.
Proof. reflexivity. Qed.

Lemma SFadd_nan_r pr em a : SFadd pr em a S754_nan = S754_nan.
Proof. destruct a; reflexivity. Qed.

Lemma SFsub_finite_not_nan pr em a b :
  sf_finite a -> sf_finite b -> SFsub pr em a b <> S754_nan.
Proof.
  destruct a as [sa|sa| |sa ma ea], b as [sb|sb| |sb mb eb]; simpl;
    intros Ha Hb; try contradiction; try congruence.
  - destruct sa, sb; congruence.
  - unfold binary_normalize. destruct (_ - _)%Z as [|m|m]; try congruence.
    + pose proof (binary_round_sign pr em false m (Z.min ea eb)) as H.
      intros E; rewrite E in H; exact H.
    + pose proof (binary_round_sign pr em true m (Z.min ea eb)) as H.
      intros E; rewrite E in H; exact H.
Qed.

Lemma Prim2SF_minus_one :
  Prim2SF (-1)%float = S754_finite true 4503599627370496 (-52).
Proof. vm_compute. reflexivity. Qed.

Lemma minus_one_below_nonneg f :
  sf_sign_is false (Prim2SF f) -> (-1 <? f)%float = true.
Proof.
  intros H. rewrite FloatAxioms.ltb_spec, Prim2SF_minus_one. unfold SFltb.
  destruct (Prim2SF f) as [s|s| |s m e]; simpl in *; subst;
    try contradiction; reflexivity.
Qed.

Lemma is_nan_false f : is_nan f = false <-> Prim2SF f <> S754_nan.
Proof.
  unfold is_nan. rewrite FloatAxioms.eqb_spec. unfold SFeqb.
  destruct (Prim2SF f) as [[]|[]| |[] m e]; simpl;
    rewrite ?Z.compare_refl, ?Pos.compare_cont_refl; simpl; split; congruence.
Qed.

Lemma is_finite_true f : is_finite f = true -> sf_finite (Prim2SF f).
Proof.
  unfold is_finite, is_nan, is_infinity.
  rewrite !FloatAxioms.eqb_spec, abs_spec.
  replace (Prim2SF infinity) with (S754_infinity false) by (vm_compute; reflexivity).
  unfold SFeqb.
  destruct (Prim2SF f) as [[]|[]| |[] m e]; simpl; try discriminate;
    try exact (fun _ => I).
Qed.

(** The three facts about [<?] on doubles that the selection loop
    rests on. *)
Lemma ltb_irrefl (a : float) : (a <? a)%float = false.
Proof. rewrite FloatAxioms.ltb_spec. apply SFltb_irrefl. Qed.

Lemma ltb_trans (a b c : float) :
  (a <? b)%float = true -> (b <? c)%float = true -> (a <? c)%float = true.
Proof. rewrite !FloatAxioms.ltb_spec. apply SFltb_trans. Qed.

Lemma ltb_le_lt_trans (a b c : float) :
  is_nan a = false -> (b <? a)%float = false -> (b <? c)%float = true ->
  (a <? c)%float = true.
Proof.
  rewrite is_nan_false, !FloatAxioms.ltb_spec. apply SFltb_le_lt_trans.
Qed.

End Binary64.

(** ** The squared length of a candidate *)

Section SqrLength.
Import dseg HierarchicalDirectSegmentDetector.

(** [dx*dx + dy*dy] is a NaN or carries the sign [+]. *)
Lemma sqrLength_nan_or_nonneg seg :
  Prim2SF (sqrLength seg) = S754_nan \/ sf_sign_is false (Prim2SF (sqrLength seg)).
Proof.
  unfold sqrLength. cbv zeta. rewrite add_spec, !mul_spec.
  unfold SF64add, SF64mul.
  destruct (SFmul_self_nan_or_nonneg prec emax (Prim2SF (x1 seg - x2 seg))) as [E1|H1].
  { left. rewrite E1. apply SFadd_nan_l. }
  destruct (SFmul_self_nan_or_nonneg prec emax (Prim2SF (y1 seg - y2 seg))) as [E2|H2].
  { left. rewrite E2. apply SFadd_nan_r. }
  right. apply SFadd_nonneg; assumption.
Qed.

(** So a squared length that is a number exceeds the initial
    [bestSqrLength = -1]. *)
Lemma sqrLength_above_initial seg :
  is_nan (sqrLength seg) = false -> (-1 <? sqrLength seg)%float = true.
Proof.
  rewrite is_nan_false. intros Hn. apply minus_one_below_nonneg.
  destruct (sqrLength_nan_or_nonneg seg) as [E|H]; [contradiction|exact H].
Qed.

(** Finite coordinates give a squared length that is a number
    (possibly [+infinity], on overflow). *)
Lemma finite_segment_sqrLength seg :
  finite_segment seg -> is_nan (sqrLength seg) = false.
Proof.
  intros (Hx1 & Hy1 & Hx2 & Hy2). apply is_nan_false.
  unfold sqrLength. cbv zeta. rewrite add_spec, !mul_spec, !sub_spec.
  unfold SF64add, SF64mul, SF64sub.
  pose proof (SFsub_finite_not_nan prec emax _ _
                (is_finite_true _ Hx1) (is_finite_true _ Hx2)) as Hdx.
  pose proof (SFsub_finite_not_nan prec emax _ _
                (is_finite_true _ Hy1) (is_finite_true _ Hy2)) as Hdy.
  pose proof (SFadd_nonneg prec emax _ _
                (SFmul_self_nonneg prec emax _ Hdx)
                (SFmul_self_nonneg prec emax _ Hdy)) as H.
  intros E. rewrite E in H. exact H.
Qed.
End SqrLength.

(** ** detectIn: the selection loop *)

Section Scan.
Import dseg HierarchicalDirectSegmentDetector.

Lemma scan_turn set n :
  foldl (loop_body set) ((-1)%Z, (-1)%float) (seq 0 (S n)) =
  loop_body set (foldl (loop_body set) ((-1)%Z, (-1)%float) (seq 0 n)) n.
Proof. rewrite seq_S, foldl_app. reflexivity. Qed.

Lemma longest_first_lookup set n k seg :
  longest_first (take n set) k seg -> (k < n)%nat -> set !! k = Some seg.
Proof.
  intros (Hk & _) Hlt. rewrite lookup_take_lt in Hk by exact Hlt. exact Hk.
Qed.


End Scan.

(** ** detectIn: what the caller observes *)

Section DetectIn.
Import dseg HierarchicalDirectSegmentDetector.

Lemma write_endpoints_full seg v :
  (4 <= length v)%nat ->
  write_endpoints seg v = [x1 seg; y1 seg; x2 seg; y2 seg] ++ drop 4 v.
Proof.
  destruct v as [|a [|b [|c [|d v]]]]; simpl; intros H; try lia. reflexivity.
Qed.

(** The three outcomes of [detectIn], read off its text. *)
Lemma detectIn_cases {Image ConvexRoi : Type}
    (detectSegment : Image -> option ConvexRoi -> SegmentsSet)
    image featPtr roiPtr :
  let set := detectSegment image roiPtr in
  detectIn detectSegment image featPtr roiPtr = (false, featPtr) \/
  exists bestId seg,
    set <> [] /\ fst (scan set) = Z.of_nat bestId /\
    segmentAt set bestId = Some seg /\
    detectIn detectSegment image featPtr roiPtr = (true, written seg featPtr).
Proof.
  intros set. unfold detectIn. fold set.
  destruct (0 <? count set)%nat eqn:Hcount; [|left; reflexivity].
  destruct (0 <=? fst (scan set))%Z eqn:Hbest; [|left; reflexivity].
  destruct (segmentAt set (Z.to_nat (fst (scan set)))) as [seg|] eqn:Hseg;
    [|left; reflexivity].
  right. exists (Z.to_nat (fst (scan set))), seg.
  split; [|split; [|split]].
  - intros E. rewrite E in Hcount. discriminate.
  - apply Z.leb_le in Hbest. lia.
  - exact Hseg.
  - reflexivity.
Qed.
End DetectIn.

Section DetectInClaims.
Import dseg HierarchicalDirectSegmentDetector.



(** C6: when the detection routine hands back no candidate, [detectIn]
    returns [false] and leaves the feature as it was; the empty result
    is the ordinary boolean return, no error is raised. *)
Theorem detectIn_no_candidate :
  forall (Image ConvexRoi : Type)
         (detectSegment : Image -> option ConvexRoi -> SegmentsSet)
         (image : Image) (featPtr : FeatureSegment) (roiPtr : option ConvexRoi),
    detectSegment image roiPtr = [] ->
    detectIn detectSegment image featPtr roiPtr = (false, featPtr).
Proof.
  intros Image ConvexRoi detectSegment image featPtr roiPtr Hset.
  unfold detectIn. rewrite Hset. reflexivity.
Qed.

Lemma detectIn_no_candidate_witness :
  (fun (_ : unit) (_ : option unit) => @nil SegmentHypothesis) tt None = [] /\
  detectIn (fun (_ : unit) (_ : option unit) => []) tt example_feature None =
    (false, example_feature).
Proof.
  split; [reflexivity|].
  apply (detectIn_no_candidate unit unit (fun _ _ => []) tt example_feature None).
  reflexivity.
Defined.

(** C7: whenever [detectIn] returns [true], the feature holds the
    endpoints of the segment at [bestId] as the components
    (x1, y1, x2, y2) of its measurement, the match score 1, and an
    appearance built from that same segment. *)
Theorem detectIn_success_writes_feature :
  forall (Image ConvexRoi : Type)
         (detectSegment : Image -> option ConvexRoi -> SegmentsSet)
         (image : Image) (featPtr featPtr' : FeatureSegment)
         (roiPtr : option ConvexRoi),
    detectIn detectSegment image featPtr roiPtr = (true, featPtr') ->
    (4 <= length (x (measurement featPtr)))%nat ->
    exists bestId seg,
      fst (scan (detectSegment image roiPtr)) = Z.of_nat bestId /\
      segmentAt (detectSegment image roiPtr) bestId = Some seg /\
      x (measurement featPtr') =
        [x1 seg; y1 seg; x2 seg; y2 seg] ++ drop 4 (x (measurement featPtr)) /\
      matchScore (measurement featPtr') = 1%float /\
      appearancePtr featPtr' = Some (mkAppearanceSegment seg).
Proof.
  intros Image ConvexRoi detectSegment image featPtr featPtr' roiPtr Hret Hlen.
  destruct (detectIn_cases detectSegment image featPtr roiPtr)
    as [E|(bestId & seg & _ & Hbest & Hseg & E)];
    rewrite E in Hret; [discriminate|].
  injection Hret as <-. exists bestId, seg.
  split; [exact Hbest|]. split; [exact Hseg|]. simpl.
  split; [apply write_endpoints_full; exact Hlen|]. split; reflexivity.
Qed.

Lemma detectIn_success_writes_feature_witness :
  exists bestId seg,
    fst (scan example_set) = Z.of_nat bestId /\
    segmentAt example_set bestId = Some seg /\
    x (measurement (written (mkSegmentHypothesis 0 0 10 0) example_feature)) =
      [x1 seg; y1 seg; x2 seg; y2 seg] ++ drop 4 (x (measurement example_feature)) /\
    matchScore (measurement (written (mkSegmentHypothesis 0 0 10 0) example_feature)) =
      1%float /\
    appearancePtr (written (mkSegmentHypothesis 0 0 10 0) example_feature) =
      Some (mkAppearanceSegment seg).
Proof.
  apply (detectIn_success_writes_feature unit unit
           (fun _ _ => example_set) tt example_feature _ None).
  - vm_compute. reflexivity.
  - simpl. lia.
Defined.

(** C8: the region of interest reaches the detection routine only;
    once the routine's candidates are the same, [detectIn] returns the
    same flag and the same feature whatever the region given. *)
Theorem detectIn_ignores_roi :
  forall (Image ConvexRoi : Type)
         (detectSegment : Image -> option ConvexRoi -> SegmentsSet)
         (image : Image) (featPtr : FeatureSegment)
         (roiPtr roiPtr' : option ConvexRoi),
    detectSegment image roiPtr = detectSegment image roiPtr' ->
    detectIn detectSegment image featPtr roiPtr =
    detectIn detectSegment image featPtr roiPtr'.
Proof.
  intros Image ConvexRoi detectSegment image featPtr roiPtr roiPtr' Hset.
  unfold detectIn. rewrite Hset. reflexivity.
Qed.

Lemma detectIn_ignores_roi_witness :
  let detectSegment := fun (image : SegmentsSet) (_ : option nat) => image in
  (detectSegment example_set None = detectSegment example_set (Some 7%nat)) /\
  (detectIn detectSegment example_set example_feature None =
   detectIn detectSegment example_set example_feature (Some 7%nat)).
Proof.
  intros detectSegment. split; [reflexivity|].
  apply (detectIn_ignores_roi SegmentsSet nat (fun image _ => image)
           example_set example_feature None (Some 7%nat)).
  reflexivity.
Defined.
End DetectInClaims.

(** ** Running calls in the store *)

Section Store.

Lemma lookup_snoc_new {A : Type} (l : list A) (a : A) :
  (l ++ [a]) !! length l = Some a.
Proof. apply list_lookup_middle. reflexivity. Qed.

Lemma insert_snoc_new {A : Type} (l : list A) (a b : A) :
  <[length l := b]> (l ++ [a]) = l ++ [b].
Proof. rewrite insert_app_r_alt by lia. rewrite Nat.sub_diag. reflexivity. Qed.

Lemma lookup_insert_same {A : Type} (l : list A) (i : nat) (a b : A) :
  l !! i = Some a -> <[i := b]> l !! i = Some b.
Proof. intros H. apply list_lookup_insert_eq. eapply lookup_lt_Some, H. Qed.

Lemma bind_inr {A B : Type} (c : M A) (k : A -> M B) w w' a :
  c w = (w', inr a) -> bind c k w = k a w'.
Proof. intros H. unfold bind. rewrite H. reflexivity. Qed.

Lemma bind_inl {A B : Type} (c : M A) (k : A -> M B) w w' e :
  c w = (w', inl e) -> bind c k w = (w', inl e).
Proof. intros H. unfold bind. rewrite H. reflexivity. Qed.

Lemma deref_map_Some w p m :
  maps w !! p = Some m -> deref_map p w = (w, inr m).
Proof. intros H. unfold deref_map. rewrite H. reflexivity. Qed.

Lemma deref_map_None w p :
  maps w !! p = None -> deref_map p w = (w, inl NullPointer).
Proof. intros H. unfold deref_map. rewrite H. reflexivity. Qed.

Lemma update_map_Some w p f m :
  maps w !! p = Some m ->
  update_map p f w = (set_maps (fun l => <[p := f m]> l) w, inr tt).
Proof. intros H. unfold update_map. rewrite H. reflexivity. Qed.

Lemma deref_rob_Some w p r :
  robs w !! p = Some r -> deref_rob p w = (w, inr r).
Proof. intros H. unfold deref_rob. rewrite H. reflexivity. Qed.

Lemma deref_rob_None w p :
  robs w !! p = None -> deref_rob p w = (w, inl NullPointer).
Proof. intros H. unfold deref_rob. rewrite H. reflexivity. Qed.

Lemma update_rob_Some w p f r :
  robs w !! p = Some r ->
  update_rob p f w = (set_robs (fun l => <[p := f r]> l) w, inr tt).
Proof. intros H. unfold update_rob. rewrite H. reflexivity. Qed.

Lemma deref_sen_Some w p s :
  sens w !! p = Some s -> deref_sen p w = (w, inr s).
Proof. intros H. unfold deref_sen. rewrite H. reflexivity. Qed.

Lemma update_sen_Some w p f s :
  sens w !! p = Some s ->
  update_sen p f w = (set_sens (fun l => <[p := f s]> l) w, inr tt).
Proof. intros H. unfold update_sen. rewrite H. reflexivity. Qed.

Lemma update_sen_None w p f :
  sens w !! p = None -> update_sen p f w = (w, inl NullPointer).
Proof. intros H. unfold update_sen. rewrite H. reflexivity. Qed.

Lemma deref_lmk_Some w p l :
  lmks w !! p = Some l -> deref_lmk p w = (w, inr l).
Proof. intros H. unfold deref_lmk. rewrite H. reflexivity. Qed.

Lemma update_lmk_Some w p f l :
  lmks w !! p = Some l ->
  update_lmk p f w = (set_lmks (fun t => <[p := f l]> t) w, inr tt).
Proof. intros H. unfold update_lmk. rewrite H. reflexivity. Qed.

Lemma update_lmk_None w p f :
  lmks w !! p = None -> update_lmk p f w = (w, inl NullPointer).
Proof. intros H. unfold update_lmk. rewrite H. reflexivity. Qed.

Lemma deref_obs_Some w p o :
  obss w !! p = Some o -> deref_obs p w = (w, inr o).
Proof. intros H. unfold deref_obs. rewrite H. reflexivity. Qed.

Lemma update_obs_Some w p f o :
  obss w !! p = Some o ->
  update_obs p f w = (set_obss (fun l => <[p := f o]> l) w, inr tt).
Proof. intros H. unfold update_obs. rewrite H. reflexivity. Qed.

End Store.

Ltac store_simpl :=
  cbn [maps robs sens lmks obss set_maps set_robs set_sens set_lmks set_obss
       fst snd].

(** A lookup in a table that earlier steps have extended or updated. *)
Ltac solve_lookup :=
  store_simpl;
  first [ eassumption
        | apply lookup_snoc_new
        | eapply lookup_insert_same; solve_lookup ].

(** Run the first call of a sequence, [lem] telling what it does. *)
Ltac run lem := erewrite bind_inr by (eapply lem; solve_lookup).

Ltac store_norm :=
  unfold set_maps, set_robs, set_sens, set_lmks, set_obss;
  cbn [maps robs sens lmks obss fst snd];
  repeat first [ rewrite insert_snoc_new | rewrite list_insert_insert_eq ].

Section Calls.

Lemma robotIds_getId_run w mp m :
  maps w !! mp = Some m ->
  robotIds_getId mp w =
    (set_maps (fun l => <[mp := MapAbstract.set_robotIds
                                 (IdPool.getId (MapAbstract.robotIds m)).2 m]> l) w,
     inr (IdPool.getId (MapAbstract.robotIds m)).1).
Proof.
  intros Hm. unfold robotIds_getId.
  run deref_map_Some. run update_map_Some. reflexivity.
Qed.

Lemma sensorIds_getId_run w mp m :
  maps w !! mp = Some m ->
  sensorIds_getId mp w =
    (set_maps (fun l => <[mp := MapAbstract.set_sensorIds
                                 (IdPool.getId (MapAbstract.sensorIds m)).2 m]> l) w,
     inr (IdPool.getId (MapAbstract.sensorIds m)).1).
Proof.
  intros Hm. unfold sensorIds_getId.
  run deref_map_Some. run update_map_Some. reflexivity.
Qed.

Lemma landmarkIds_getId_run w mp m :
  maps w !! mp = Some m ->
  landmarkIds_getId mp w =
    (set_maps (fun l => <[mp := MapAbstract.set_landmarkIds
                                 (IdPool.getId (MapAbstract.landmarkIds m)).2 m]> l) w,
     inr (IdPool.getId (MapAbstract.landmarkIds m)).1).
Proof.
  intros Hm. unfold landmarkIds_getId.
  run deref_map_Some. run update_map_Some. reflexivity.
Qed.

Lemma reserveStates_run w mp m size start :
  maps w !! mp = Some m ->
  MapAbstract.first_fit (MapAbstract.used_states m) size = Some start ->
  reserveStates mp size w =
    (set_maps (fun l => <[mp := MapAbstract.set_used_states
                                 (MapAbstract.mark_used start size
                                    (MapAbstract.used_states m)) m]> l) w,
     inr (seq start size)).
Proof.
  intros Hm Hfit. unfold reserveStates.
  run deref_map_Some. rewrite Hfit. run update_map_Some. reflexivity.
Qed.

Lemma reserveStates_full w mp m size :
  maps w !! mp = Some m ->
  MapAbstract.first_fit (MapAbstract.used_states m) size = None ->
  reserveStates mp size w = (w, inl CapacityExceeded).
Proof.
  intros Hm Hfit. unfold reserveStates.
  run deref_map_Some. rewrite Hfit. reflexivity.
Qed.

Lemma MapAbstract_linkToRobot_run w mp rp m r :
  maps w !! mp = Some m -> robs w !! rp = Some r ->
  MapAbstract_linkToRobot mp rp w =
    (set_maps (fun l => <[mp := MapAbstract.set_robots
                                 (<[RobotAbstract.id r := rp]> (MapAbstract.robots m)) m]> l) w,
     inr tt).
Proof.
  intros Hm Hr. unfold MapAbstract_linkToRobot.
  run deref_rob_Some. exact (update_map_Some w mp _ m Hm).
Qed.

Lemma RobotAbstract_linkToSensor_run w rp sp r s :
  robs w !! rp = Some r -> sens w !! sp = Some s ->
  RobotAbstract_linkToSensor rp sp w =
    (set_robs (fun l => <[rp := RobotAbstract.set_sensors
                                 (<[SensorAbstract.id s := sp]> (RobotAbstract.sensors r)) r]> l) w,
     inr tt).
Proof.
  intros Hr Hs. unfold RobotAbstract_linkToSensor.
  run deref_sen_Some. exact (update_rob_Some w rp _ r Hr).
Qed.

Lemma MapAbstract_linkToLandmark_run w mp lp m l :
  maps w !! mp = Some m -> lmks w !! lp = Some l ->
  MapAbstract_linkToLandmark mp lp w =
    (set_maps (fun t => <[mp := MapAbstract.set_landmarks
                                 (<[LandmarkAbstract.id l := lp]> (MapAbstract.landmarks m)) m]> t) w,
     inr tt).
Proof.
  intros Hm Hl. unfold MapAbstract_linkToLandmark.
  run deref_lmk_Some. exact (update_map_Some w mp _ m Hm).
Qed.

Lemma SensorAbstract_linkToObservation_run w sp op s o :
  sens w !! sp = Some s -> obss w !! op = Some o ->
  SensorAbstract_linkToObservation sp op w =
    (set_sens (fun l => <[sp := SensorAbstract.set_observations
                                 (<[ObservationAbstract.id o := op]>
                                    (SensorAbstract.observations s)) s]> l) w,
     inr tt).
Proof.
  intros Hs Ho. unfold SensorAbstract_linkToObservation.
  run deref_obs_Some. exact (update_sen_Some w sp _ s Hs).
Qed.

Lemma LandmarkAbstract_linkToObservation_run w lp op l o :
  lmks w !! lp = Some l -> obss w !! op = Some o ->
  LandmarkAbstract_linkToObservation lp op w =
    (set_lmks (fun t => <[lp := LandmarkAbstract.set_observations
                                 (<[ObservationAbstract.id o := op]>
                                    (LandmarkAbstract.observations l)) l]> t) w,
     inr tt).
Proof.
  intros Hl Ho. unfold LandmarkAbstract_linkToObservation.
  run deref_obs_Some. exact (update_lmk_Some w lp _ l Hl).
Qed.

End Calls.

(** ** The outcomes of the four constructions *)

Section Outcomes.
Variables size_robCV size_senPH size_lmkAHP : nat.

(** [newRobot] on a map with room: the robot is the new last object of
    its table, registered under its id and pointing back at the map. *)
Lemma newRobot_run w mp name m start :
  maps w !! mp = Some m ->
  MapAbstract.first_fit (MapAbstract.used_states m) size_robCV = Some start ->
  let rid := (IdPool.getId (MapAbstract.robotIds m)).1 in
  let m' :=
    MapAbstract.set_robots (<[rid := length (robs w)]> (MapAbstract.robots m))
      (MapAbstract.set_used_states
         (MapAbstract.mark_used start size_robCV (MapAbstract.used_states m))
         (MapAbstract.set_robotIds (IdPool.getId (MapAbstract.robotIds m)).2 m)) in
  let r' :=
    {| RobotAbstract.id := rid; RobotAbstract.name := name;
       RobotAbstract.state := seq start size_robCV;
       RobotAbstract.slamMap := Some mp; RobotAbstract.sensors := ∅ |} in
  newRobot size_robCV mp name w =
    ({| maps := <[mp := m']> (maps w); robs := robs w ++ [r'];
        sens := sens w; lmks := lmks w; obss := obss w |},
     inr (length (robs w))).
Proof.
  intros Hm Hfit rid m' r'. unfold newRobot, new_Robot3DConstantVelocity.
  run robotIds_getId_run.
  erewrite bind_inr; cycle 1.
  { erewrite bind_inr by (eapply reserveStates_run; [solve_lookup|exact Hfit]).
    reflexivity. }
  store_simpl.
  run update_rob_Some. run update_rob_Some.
  run MapAbstract_linkToRobot_run. run update_rob_Some.
  unfold ret. store_norm. reflexivity.
Qed.

Lemma newRobot_null w mp name :
  maps w !! mp = None ->
  newRobot size_robCV mp name w = (w, inl NullPointer).
Proof.
  intros Hm. unfold newRobot, robotIds_getId.
  erewrite bind_inl; [reflexivity|].
  erewrite bind_inl; [reflexivity|]. apply deref_map_None, Hm.
Qed.

(** [newRobot] on a map without room: the constructor throws after
    [getId] has been called. *)
Lemma newRobot_full w mp name m :
  maps w !! mp = Some m ->
  MapAbstract.first_fit (MapAbstract.used_states m) size_robCV = None ->
  newRobot size_robCV mp name w =
    (set_maps (fun l => <[mp := MapAbstract.set_robotIds
                                 (IdPool.getId (MapAbstract.robotIds m)).2 m]> l) w,
     inl CapacityExceeded).
Proof.
  intros Hm Hfit. unfold newRobot, new_Robot3DConstantVelocity.
  run robotIds_getId_run.
  erewrite bind_inl; [reflexivity|].
  erewrite bind_inl; [reflexivity|].
  eapply reserveStates_full; [solve_lookup|exact Hfit].
Qed.

Lemma newSensor_null_robot w rp name isInMap :
  robs w !! rp = None ->
  newSensor size_senPH rp name isInMap w = (w, inl NullPointer).
Proof.
  intros Hr. unfold newSensor.
  erewrite bind_inl; [reflexivity|]. apply deref_rob_None, Hr.
Qed.

Lemma newSensor_null_map w rp name isInMap r :
  robs w !! rp = Some r ->
  match RobotAbstract.slamMap r with
  | Some mp => maps w !! mp = None
  | None => True
  end ->
  newSensor size_senPH rp name isInMap w = (w, inl NullPointer).
Proof.
  intros Hr Hm. unfold newSensor. run deref_rob_Some.
  destruct (RobotAbstract.slamMap r) as [mp|]; [|reflexivity].
  unfold nonnull at 1. erewrite bind_inr by reflexivity.
  unfold sensorIds_getId.
  erewrite bind_inl; [reflexivity|].
  erewrite bind_inl; [reflexivity|]. apply deref_map_None, Hm.
Qed.

(** A sensor whose pose is to be estimated, on a map without room. *)
Lemma newSensor_full w rp name r mp m :
  robs w !! rp = Some r -> RobotAbstract.slamMap r = Some mp ->
  maps w !! mp = Some m ->
  MapAbstract.first_fit (MapAbstract.used_states m) size_senPH = None ->
  newSensor size_senPH rp name true w =
    (set_maps (fun l => <[mp := MapAbstract.set_sensorIds
                                 (IdPool.getId (MapAbstract.sensorIds m)).2 m]> l) w,
     inl CapacityExceeded).
Proof.
  intros Hr Hmp Hm Hfit. unfold newSensor, new_SensorPinHole.
  run deref_rob_Some. rewrite Hmp.
  unfold nonnull at 1. erewrite bind_inr by reflexivity.
  run sensorIds_getId_run.
  erewrite bind_inl; [reflexivity|].
  run deref_rob_Some. rewrite Hmp.
  erewrite bind_inl; [reflexivity|].
  unfold nonnull. erewrite bind_inr by reflexivity.
  eapply reserveStates_full; [solve_lookup|exact Hfit].
Qed.

(** The sensor that [newSensor] leaves when it returns, and the map and
    the robot as it leaves them. *)
Lemma newSensor_run w rp name (isInMap : bool) r mp m (ia : list nat)
    (mu : list bool) :
  robs w !! rp = Some r -> RobotAbstract.slamMap r = Some mp ->
  maps w !! mp = Some m ->
  (if isInMap
   then exists start,
          MapAbstract.first_fit (MapAbstract.used_states m) size_senPH = Some start /\
          ia = seq start size_senPH /\
          mu = MapAbstract.mark_used start size_senPH (MapAbstract.used_states m)
   else ia = [] /\ mu = MapAbstract.used_states m) ->
  let sid := (IdPool.getId (MapAbstract.sensorIds m)).1 in
  let m' :=
    MapAbstract.set_used_states mu
      (MapAbstract.set_sensorIds (IdPool.getId (MapAbstract.sensorIds m)).2 m) in
  let r' :=
    RobotAbstract.set_sensors (<[sid := length (sens w)]> (RobotAbstract.sensors r)) r in
  let s' :=
    {| SensorAbstract.id := sid; SensorAbstract.name := name;
       SensorAbstract.isInMap := isInMap; SensorAbstract.state := ia;
       SensorAbstract.robot := Some rp; SensorAbstract.observations := ∅ |} in
  newSensor size_senPH rp name isInMap w =
    ({| maps := <[mp := m']> (maps w); robs := <[rp := r']> (robs w);
        sens := sens w ++ [s']; lmks := lmks w; obss := obss w |},
     inr (length (sens w))).
Proof.
  intros Hr Hmp Hm Hia sid m' r' s'. unfold newSensor, new_SensorPinHole.
  run deref_rob_Some. rewrite Hmp.
  unfold nonnull at 1. erewrite bind_inr by reflexivity.
  run sensorIds_getId_run.
  destruct isInMap.
  - destruct Hia as (start & Hfit & -> & ->).
    erewrite bind_inr; cycle 1.
    { run deref_rob_Some. rewrite Hmp.
      erewrite bind_inr; cycle 1.
      { unfold nonnull. erewrite bind_inr by reflexivity.
        eapply reserveStates_run; [solve_lookup|exact Hfit]. }
      reflexivity. }
    store_simpl.
    run update_sen_Some. run update_sen_Some.
    run RobotAbstract_linkToSensor_run.
    unfold SensorAbstract_linkToRobot. run update_sen_Some.
    unfold ret. store_norm. reflexivity.
  - destruct Hia as [-> ->].
    erewrite bind_inr; cycle 1.
    { run deref_rob_Some. erewrite bind_inr by reflexivity. reflexivity. }
    store_simpl.
    run update_sen_Some. run update_sen_Some.
    run RobotAbstract_linkToSensor_run.
    unfold SensorAbstract_linkToRobot. run update_sen_Some.
    unfold ret. store_norm. reflexivity.
Qed.

Lemma newObservation_null_sensor w sp lp :
  sens w !! sp = None ->
  newObservation sp lp w =
    (set_obss (fun l => l ++ [fresh_obs sp lp]) w, inl NullPointer).
Proof.
  intros Hs.
  unfold newObservation, new_ObservationPinHoleAnchoredHomogeneousPoint.
  erewrite bind_inr by reflexivity.
  run update_obs_Some.
  unfold ObservationAbstract_linkToSensor. run update_obs_Some.
  unfold ObservationAbstract_linkToLandmark. run update_obs_Some.
  erewrite bind_inl; cycle 1.
  { unfold SensorAbstract_linkToObservation. run deref_obs_Some.
    apply update_sen_None. exact Hs. }
  store_norm. reflexivity.
Qed.

Lemma newObservation_null_landmark w sp lp s :
  sens w !! sp = Some s -> lmks w !! lp = None ->
  newObservation sp lp w =
    ({| maps := maps w; robs := robs w;
        sens := <[sp := SensorAbstract.set_observations
                          (<[0 := length (obss w)]> (SensorAbstract.observations s)) s]>
                  (sens w);
        lmks := lmks w;
        obss := obss w ++ [fresh_obs sp lp] |},
     inl NullPointer).
Proof.
  intros Hs Hl.
  unfold newObservation, new_ObservationPinHoleAnchoredHomogeneousPoint.
  erewrite bind_inr by reflexivity.
  run update_obs_Some.
  unfold ObservationAbstract_linkToSensor. run update_obs_Some.
  unfold ObservationAbstract_linkToLandmark. run update_obs_Some.
  run SensorAbstract_linkToObservation_run.
  erewrite bind_inl; cycle 1.
  { unfold LandmarkAbstract_linkToObservation. run deref_obs_Some.
    apply update_lmk_None. exact Hl. }
  store_norm. reflexivity.
Qed.

Lemma newObservation_run w sp lp s l :
  sens w !! sp = Some s -> lmks w !! lp = Some l ->
  newObservation sp lp w =
    ({| maps := maps w; robs := robs w;
        sens := <[sp := SensorAbstract.set_observations
                          (<[0 := length (obss w)]> (SensorAbstract.observations s)) s]>
                  (sens w);
        lmks := <[lp := LandmarkAbstract.set_observations
                          (<[0 := length (obss w)]> (LandmarkAbstract.observations l)) l]>
                  (lmks w);
        obss := obss w ++ [fresh_obs sp lp] |},
     inr (length (obss w))).
Proof.
  intros Hs Hl.
  unfold newObservation, new_ObservationPinHoleAnchoredHomogeneousPoint.
  erewrite bind_inr by reflexivity.
  run update_obs_Some.
  unfold ObservationAbstract_linkToSensor. run update_obs_Some.
  unfold ObservationAbstract_linkToLandmark. run update_obs_Some.
  run SensorAbstract_linkToObservation_run.
  run LandmarkAbstract_linkToObservation_run.
  unfold ret. store_norm. reflexivity.
Qed.

Lemma newLandmark_null w mp :
  maps w !! mp = None ->
  newLandmark size_lmkAHP mp w = (w, inl NullPointer).
Proof.
  intros Hm. unfold newLandmark, landmarkIds_getId.
  erewrite bind_inl; [reflexivity|].
  erewrite bind_inl; [reflexivity|]. apply deref_map_None, Hm.
Qed.

Lemma newLandmark_full w mp m :
  maps w !! mp = Some m ->
  MapAbstract.first_fit (MapAbstract.used_states m) size_lmkAHP = None ->
  newLandmark size_lmkAHP mp w =
    (set_maps (fun l => <[mp := MapAbstract.set_landmarkIds
                                 (IdPool.getId (MapAbstract.landmarkIds m)).2 m]> l) w,
     inl CapacityExceeded).
Proof.
  intros Hm Hfit. unfold newLandmark, new_LandmarkAnchoredHomogeneousPoint.
  run landmarkIds_getId_run.
  erewrite bind_inl; [reflexivity|].
  erewrite bind_inl; [reflexivity|].
  eapply reserveStates_full; [solve_lookup|exact Hfit].
Qed.

(** [newLandmark] on a map with room: the landmark is created and
    linked to the map as a robot is, and then the two loops run. *)
Lemma newLandmark_run w mp m start :
  maps w !! mp = Some m ->
  MapAbstract.first_fit (MapAbstract.used_states m) size_lmkAHP = Some start ->
  let lid := (IdPool.getId (MapAbstract.landmarkIds m)).1 in
  let m' :=
    MapAbstract.set_landmarks (<[lid := length (lmks w)]> (MapAbstract.landmarks m))
      (MapAbstract.set_used_states
         (MapAbstract.mark_used start size_lmkAHP (MapAbstract.used_states m))
         (MapAbstract.set_landmarkIds (IdPool.getId (MapAbstract.landmarkIds m)).2 m)) in
  let l' :=
    {| LandmarkAbstract.id := lid; LandmarkAbstract.name := "";
       LandmarkAbstract.state := seq start size_lmkAHP;
       LandmarkAbstract.slamMap := Some mp;
       LandmarkAbstract.observations := ∅ |} in
  newLandmark size_lmkAHP mp w =
    bind (observe_from_every_sensor mp (length (lmks w)))
         (fun _ => ret (length (lmks w)))
         {| maps := <[mp := m']> (maps w); robs := robs w; sens := sens w;
            lmks := lmks w ++ [l']; obss := obss w |}.
Proof.
  intros Hm Hfit lid m' l'.
  unfold newLandmark, new_LandmarkAnchoredHomogeneousPoint.
  run landmarkIds_getId_run.
  erewrite bind_inr; cycle 1.
  { erewrite bind_inr by (eapply reserveStates_run; [solve_lookup|exact Hfit]).
    reflexivity. }
  store_simpl.
  run update_lmk_Some. run update_lmk_Some.
  run MapAbstract_linkToLandmark_run.
  unfold LandmarkAbstract_linkToMap. run update_lmk_Some.
  store_norm. reflexivity.
Qed.

(** Every run of a construction is one of those above. *)
Lemma newRobot_cases w mp name :
  newRobot size_robCV mp name w = (w, inl NullPointer) \/
  (exists m,
      maps w !! mp = Some m /\
      newRobot size_robCV mp name w =
        (set_maps (fun l => <[mp := MapAbstract.set_robotIds
                                     (IdPool.getId (MapAbstract.robotIds m)).2 m]> l) w,
         inl CapacityExceeded)) \/
  (exists m start,
      maps w !! mp = Some m /\
      MapAbstract.first_fit (MapAbstract.used_states m) size_robCV = Some start).
Proof.
  destruct (maps w !! mp) as [m|] eqn:Hm.
  - destruct (MapAbstract.first_fit (MapAbstract.used_states m) size_robCV)
      as [start|] eqn:Hfit.
    + right. right. exists m, start. split; [reflexivity|exact Hfit].
    + right. left. exists m. split; [reflexivity|].
      apply newRobot_full; assumption.
  - left. apply newRobot_null, Hm.
Qed.

Lemma newSensor_cases w rp name isInMap :
  newSensor size_senPH rp name isInMap w = (w, inl NullPointer) \/
  (exists m mp,
      maps w !! mp = Some m /\
      newSensor size_senPH rp name isInMap w =
        (set_maps (fun l => <[mp := MapAbstract.set_sensorIds
                                     (IdPool.getId (MapAbstract.sensorIds m)).2 m]> l) w,
         inl CapacityExceeded)) \/
  (exists r mp m (ia : list nat) (mu : list bool),
      robs w !! rp = Some r /\ RobotAbstract.slamMap r = Some mp /\
      maps w !! mp = Some m /\
      if isInMap
      then exists start,
             MapAbstract.first_fit (MapAbstract.used_states m) size_senPH = Some start /\
             ia = seq start size_senPH /\
             mu = MapAbstract.mark_used start size_senPH (MapAbstract.used_states m)
      else ia = [] /\ mu = MapAbstract.used_states m).
Proof.
  destruct (robs w !! rp) as [r|] eqn:Hr;
    [|left; apply newSensor_null_robot, Hr].
  destruct (RobotAbstract.slamMap r) as [mp|] eqn:Hmp;
    [|left; eapply newSensor_null_map; [exact Hr|rewrite Hmp; exact I]].
  destruct (maps w !! mp) as [m|] eqn:Hm;
    [|left; eapply newSensor_null_map; [exact Hr|rewrite Hmp; exact Hm]].
  destruct isInMap.
  - destruct (MapAbstract.first_fit (MapAbstract.used_states m) size_senPH)
      as [start|] eqn:Hfit.
    + right. right. exists r, mp, m, (seq start size_senPH),
        (MapAbstract.mark_used start size_senPH (MapAbstract.used_states m)).
      split; [reflexivity|]. split; [exact Hmp|]. split; [exact Hm|].
      exists start. split; [exact Hfit|]. split; reflexivity.
    + right. left. exists m, mp. split; [exact Hm|].
      eapply newSensor_full; eassumption.
  - right. right. exists r, mp, m, [], (MapAbstract.used_states m).
    split; [reflexivity|]. split; [exact Hmp|]. split; [exact Hm|].
    split; reflexivity.
Qed.
End Outcomes.

(** ** Links between two tables *)

Section Linked.
Context {X Y : Type}.
Implicit Types (xs : list X) (ys : list Y).
Implicit Types (f : X -> gmap nat ptr) (g : Y -> option ptr).

Lemma linked_owner_update xs f ys g xp x x' :
  linked xs f ys g -> xs !! xp = Some x -> f x' = f x ->
  linked (<[xp := x']> xs) f ys g.
Proof.
  intros H Hx Hf xq xo k yp Hq Hk.
  apply list_lookup_insert_Some in Hq as [(<- & <- & _)|[Hne Hq]].
  - rewrite Hf in Hk. exact (H xp x k yp Hx Hk).
  - exact (H xq xo k yp Hq Hk).
Qed.

Lemma linked_owned_update xs f ys g yp y y' :
  linked xs f ys g -> ys !! yp = Some y -> g y' = g y ->
  linked xs f (<[yp := y']> ys) g.
Proof.
  intros H Hy Hg xq xo k yq Hq Hk.
  destruct (H xq xo k yq Hq Hk) as (yo & Hyo & Hgo).
  destruct (decide (yq = yp)) as [->|Hne].
  - exists y'. split; [eapply lookup_insert_same, Hy|].
    rewrite Hg. congruence.
  - exists yo. split; [|exact Hgo].
    rewrite list_lookup_insert_ne by congruence. exact Hyo.
Qed.

Lemma linked_owner_alloc xs f ys g x :
  linked xs f ys g -> f x = ∅ -> linked (xs ++ [x]) f ys g.
Proof.
  intros H Hf xq xo k yp Hq Hk.
  apply lookup_app_Some in Hq as [Hq|[_ Hq]].
  - exact (H xq xo k yp Hq Hk).
  - apply list_lookup_singleton_Some in Hq as [_ <-].
    rewrite Hf, lookup_empty in Hk. discriminate.
Qed.

Lemma linked_owned_alloc xs f ys g y :
  linked xs f ys g -> linked xs f (ys ++ [y]) g.
Proof.
  intros H xq xo k yp Hq Hk.
  destruct (H xq xo k yp Hq Hk) as (yo & Hyo & Hgo).
  exists yo. split; [|exact Hgo].
  rewrite lookup_app_l by (eapply lookup_lt_Some, Hyo). exact Hyo.
Qed.

(** Storing in an owner's mapping a pointer to an object that points
    back at this owner. *)
Lemma linked_link xs f ys g xp x x' k yp y :
  linked xs f ys g -> xs !! xp = Some x -> ys !! yp = Some y ->
  g y = Some xp -> f x' = <[k := yp]> (f x) ->
  linked (<[xp := x']> xs) f ys g.
Proof.
  intros H Hx Hy Hg Hf xq xo k' yq Hq Hk.
  apply list_lookup_insert_Some in Hq as [(<- & <- & _)|[Hne Hq]].
  - rewrite Hf in Hk. apply lookup_insert_Some in Hk as [[<- <-]|[_ Hk]].
    + exists y. split; assumption.
    + exact (H xp x k' yq Hx Hk).
  - exact (H xq xo k' yq Hq Hk).
Qed.
End Linked.

(** ** What a call keeps *)

Section Preserves.
Context {A B : Type}.
Variable I : World -> Prop.

Lemma preserves_ret (a : A) : preserves I (ret a).
Proof. intros w H. exact H. Qed.

Lemma preserves_throw (e : Exc) : preserves I (@throw A e).
Proof. intros w H. exact H. Qed.

Lemma preserves_bind (c : M A) (k : A -> M B) :
  preserves I c -> (forall a, preserves I (k a)) -> preserves I (bind c k).
Proof.
  intros Hc Hk w H. unfold bind. specialize (Hc w H).
  destruct (c w) as [w' [e|a]]; simpl in *; [exact Hc|].
  apply Hk, Hc.
Qed.

Lemma preserves_for_each (l : list A) (body : A -> M unit) :
  (forall a, preserves I (body a)) -> preserves I (for_each l body).
Proof.
  intros Hbody. induction l as [|a l IH]; simpl.
  - intros w H. exact H.
  - intros w H. unfold bind. specialize (Hbody a w H).
    destruct (body a w) as [w' [e|[]]]; simpl in *; [exact Hbody|].
    apply IH, Hbody.
Qed.
End Preserves.

Section PreservesReads.
Variable I : World -> Prop.

Lemma preserves_deref_map p : preserves I (deref_map p).
Proof. intros w H. unfold deref_map. destruct (maps w !! p); exact H. Qed.

Lemma preserves_deref_rob p : preserves I (deref_rob p).
Proof. intros w H. unfold deref_rob. destruct (robs w !! p); exact H. Qed.

Lemma preserves_unusedStates p size : preserves I (unusedStates p size).
Proof.
  apply preserves_bind; [apply preserves_deref_map|].
  intros m. apply preserves_ret.
Qed.
End PreservesReads.

Section PreservesInitSlam.
Variables size_robCV size_senPH : nat.
Variable I : World -> Prop.

(** [initSlam] keeps what the calls it makes keep. *)
Lemma initSlam_preserves size_map :
  preserves I (new_MapAbstract size_map) ->
  (forall mp name, preserves I (newRobot size_robCV mp name)) ->
  (forall rp name isInMap, preserves I (newSensor size_senPH rp name isInMap)) ->
  preserves I (initSlam size_robCV size_senPH size_map).
Proof.
  intros Hmap Hrob Hsen. unfold initSlam.
  apply preserves_bind; [exact Hmap|]. intros mp.
  apply preserves_bind; [apply preserves_unusedStates|]. intros room.
  apply preserves_bind; [|intros; apply preserves_ret].
  destruct room; [|apply preserves_ret].
  apply preserves_bind; [apply Hrob|]. intros rp.
  apply preserves_bind; [apply preserves_unusedStates|]. intros room1.
  apply preserves_bind.
  { destruct room1; [|apply preserves_ret].
    apply preserves_bind; [apply Hsen|]. intros; apply preserves_ret. }
  intros _.
  apply preserves_bind; [apply preserves_unusedStates|]. intros room2.
  apply preserves_bind; [|intros; apply preserves_ret].
  destruct room2; [|apply preserves_ret].
  apply preserves_bind; [apply Hsen|]. intros; apply preserves_ret.
Qed.
End PreservesInitSlam.

(** ** The links after each construction *)

Section Links.
Variables size_robCV size_senPH size_lmkAHP : nat.

Lemma links_ok_map_update w mp m m' :
  links_ok w -> maps w !! mp = Some m ->
  MapAbstract.robots m' = MapAbstract.robots m ->
  MapAbstract.landmarks m' = MapAbstract.landmarks m ->
  links_ok (set_maps (fun l => <[mp := m']> l) w).
Proof.
  intros (H1 & H2 & H3 & H4 & H5) Hm Hr Hl.
  unfold links_ok. store_simpl. repeat split; try assumption.
  - eapply linked_owner_update; eassumption.
  - eapply linked_owner_update; eassumption.
Qed.

Lemma newRobot_links mp name : preserves links_ok (newRobot size_robCV mp name).
Proof.
  intros w H.
  destruct (newRobot_cases size_robCV w mp name)
    as [E|[(m & Hm & E)|(m & start & Hm & Hfit)]].
  - rewrite E. exact H.
  - rewrite E. eapply links_ok_map_update; [exact H|exact Hm|reflexivity..].
  - rewrite (newRobot_run size_robCV w mp name m start Hm Hfit).
    destruct H as (H1 & H2 & H3 & H4 & H5).
    unfold links_ok. cbn [fst maps robs sens lmks obss].
    repeat split; try assumption.
    + eapply linked_link;
        [apply linked_owned_alloc, H1|exact Hm|apply lookup_snoc_new
        |reflexivity|reflexivity].
    + eapply linked_owner_update; [exact H2|exact Hm|reflexivity].
    + apply linked_owner_alloc; [exact H3|reflexivity].
Qed.

Lemma newSensor_links rp name isInMap :
  preserves links_ok (newSensor size_senPH rp name isInMap).
Proof.
  intros w H.
  destruct (newSensor_cases size_senPH w rp name isInMap)
    as [E|[(m & mp & Hm & E)|(r & mp & m & ia & mu & Hr & Hmp & Hm & Hia)]].
  - rewrite E. exact H.
  - rewrite E. eapply links_ok_map_update; [exact H|exact Hm|reflexivity..].
  - rewrite (newSensor_run size_senPH w rp name isInMap r mp m ia mu Hr Hmp Hm Hia).
    destruct H as (H1 & H2 & H3 & H4 & H5).
    unfold links_ok. cbn [fst maps robs sens lmks obss].
    repeat split; try assumption.
    + eapply linked_owned_update; [|exact Hr|reflexivity].
      eapply linked_owner_update; [exact H1|exact Hm|reflexivity].
    + eapply linked_owner_update; [exact H2|exact Hm|reflexivity].
    + eapply linked_link;
        [apply linked_owned_alloc, H3|exact Hr|apply lookup_snoc_new
        |reflexivity|reflexivity].
    + apply linked_owner_alloc; [exact H4|reflexivity].
Qed.

Lemma newObservation_links sp lp : preserves links_ok (newObservation sp lp).
Proof.
  intros w (H1 & H2 & H3 & H4 & H5).
  destruct (sens w !! sp) as [s|] eqn:Hs;
    [destruct (lmks w !! lp) as [l|] eqn:Hl|].
  - rewrite (newObservation_run w sp lp s l Hs Hl).
    unfold links_ok. cbn [fst maps robs sens lmks obss].
    repeat split; try assumption.
    + eapply linked_owned_update; [exact H2|exact Hl|reflexivity].
    + eapply linked_owned_update; [exact H3|exact Hs|reflexivity].
    + eapply linked_link;
        [apply linked_owned_alloc, H4|exact Hs|apply lookup_snoc_new
        |reflexivity|reflexivity].
    + eapply linked_link;
        [apply linked_owned_alloc, H5|exact Hl|apply lookup_snoc_new
        |reflexivity|reflexivity].
  - rewrite (newObservation_null_landmark w sp lp s Hs Hl).
    unfold links_ok. cbn [fst maps robs sens lmks obss].
    repeat split; try assumption.
    + eapply linked_owned_update; [exact H3|exact Hs|reflexivity].
    + eapply linked_link;
        [apply linked_owned_alloc, H4|exact Hs|apply lookup_snoc_new
        |reflexivity|reflexivity].
    + apply linked_owned_alloc, H5.
  - rewrite (newObservation_null_sensor w sp lp Hs).
    unfold links_ok, set_obss. cbn [fst maps robs sens lmks obss].
    repeat split; try assumption; apply linked_owned_alloc; assumption.
Qed.

Lemma observe_from_every_sensor_links mp lp :
  preserves links_ok (observe_from_every_sensor mp lp).
Proof.
  unfold observe_from_every_sensor.
  apply preserves_bind; [apply preserves_deref_map|]. intros m.
  apply preserves_for_each. intros robIter.
  apply preserves_bind; [apply preserves_deref_rob|]. intros r.
  apply preserves_for_each. intros senIter.
  apply preserves_bind; [apply newObservation_links|]. intros obsPtr.
  apply preserves_ret.
Qed.

Lemma newLandmark_links mp : preserves links_ok (newLandmark size_lmkAHP mp).
Proof.
  intros w H.
  destruct (maps w !! mp) as [m|] eqn:Hm;
    [destruct (MapAbstract.first_fit (MapAbstract.used_states m) size_lmkAHP)
       as [start|] eqn:Hfit|].
  - rewrite (newLandmark_run size_lmkAHP w mp m start Hm Hfit).
    apply preserves_bind;
      [apply observe_from_every_sensor_links|intros; apply preserves_ret|].
    destruct H as (H1 & H2 & H3 & H4 & H5).
    unfold links_ok. cbn [fst maps robs sens lmks obss].
    repeat split; try assumption.
    + eapply linked_owner_update; [exact H1|exact Hm|reflexivity].
    + eapply linked_link;
        [apply linked_owned_alloc, H2|exact Hm|apply lookup_snoc_new
        |reflexivity|reflexivity].
    + apply linked_owner_alloc; [exact H5|reflexivity].
  - rewrite (newLandmark_full size_lmkAHP w mp m Hm Hfit).
    eapply links_ok_map_update; [exact H|exact Hm|reflexivity..].
  - rewrite (newLandmark_null size_lmkAHP w mp Hm). exact H.
Qed.

Lemma new_MapAbstract_links size_map : preserves links_ok (new_MapAbstract size_map).
Proof.
  intros w (H1 & H2 & H3 & H4 & H5).
  unfold new_MapAbstract, alloc_map, links_ok, set_maps.
  cbn [fst maps robs sens lmks obss].
  repeat split; try assumption; apply linked_owner_alloc; solve [assumption|reflexivity].
Qed.

Lemma initSlam_links size_map :
  preserves links_ok (initSlam size_robCV size_senPH size_map).
Proof.
  apply initSlam_preserves.
  - apply new_MapAbstract_links.
  - apply newRobot_links.
  - apply newSensor_links.
Qed.

Lemma exec_links c w :
  links_ok w -> links_ok (exec size_robCV size_senPH size_lmkAHP c w).
Proof.
  destruct c; simpl.
  - apply initSlam_links.
  - apply newRobot_links.
  - apply newSensor_links.
  - apply newObservation_links.
  - apply newLandmark_links.
Qed.
End Links.

(** ** What each construction leaves alone, and what it links *)

Section Frames.
Variables size_robCV size_senPH size_lmkAHP : nat.

Lemma newRobot_frame w mp name :
  let w' := (newRobot size_robCV mp name w).1 in
  sens w' = sens w /\ lmks w' = lmks w /\ obss w' = obss w.
Proof.
  destruct (newRobot_cases size_robCV w mp name)
    as [E|[(m & Hm & E)|(m & start & Hm & Hfit)]].
  - rewrite E. repeat split.
  - rewrite E. repeat split.
  - rewrite (newRobot_run size_robCV w mp name m start Hm Hfit). repeat split.
Qed.

Lemma newSensor_frame w rp name isInMap :
  let w' := (newSensor size_senPH rp name isInMap w).1 in
  lmks w' = lmks w /\ obss w' = obss w.
Proof.
  destruct (newSensor_cases size_senPH w rp name isInMap)
    as [E|[(m & mp & Hm & E)|(r & mp & m & ia & mu & Hr & Hmp & Hm & Hia)]].
  - rewrite E. repeat split.
  - rewrite E. repeat split.
  - rewrite (newSensor_run size_senPH w rp name isInMap r mp m ia mu Hr Hmp Hm Hia).
    repeat split.
Qed.



(** The observation that [newObservation] returns is in the mappings
    of its sensor and of its landmark, and points back at both. *)
Lemma newObservation_both_ways w sp lp w' op :
  newObservation sp lp w = (w', inr op) ->
  exists s' l' o',
    sens w' !! sp = Some s' /\ lmks w' !! lp = Some l' /\
    obss w' !! op = Some o' /\
    SensorAbstract.observations s' !! ObservationAbstract.id o' = Some op /\
    LandmarkAbstract.observations l' !! ObservationAbstract.id o' = Some op /\
    ObservationAbstract.sensor o' = Some sp /\
    ObservationAbstract.landmark o' = Some lp /\
    ObservationAbstract.id o' = 0.
Proof.
  intros Hrun.
  destruct (sens w !! sp) as [s|] eqn:Hs;
    [destruct (lmks w !! lp) as [l|] eqn:Hl|].
  - rewrite (newObservation_run w sp lp s l Hs Hl) in Hrun.
    injection Hrun as <- <-. eexists _, _, _. cbn [sens lmks obss].
    split; [eapply lookup_insert_same, Hs|].
    split; [eapply lookup_insert_same, Hl|].
    split; [apply lookup_snoc_new|].
    split; [apply lookup_insert_eq|].
    split; [apply lookup_insert_eq|]. repeat split.
  - rewrite (newObservation_null_landmark w sp lp s Hs Hl) in Hrun. discriminate.
  - rewrite (newObservation_null_sensor w sp lp Hs) in Hrun. discriminate.
Qed.

Lemma newObservation_obss w sp lp :
  obss (newObservation sp lp w).1 = obss w ++ [fresh_obs sp lp].
Proof.
  destruct (sens w !! sp) as [s|] eqn:Hs;
    [destruct (lmks w !! lp) as [l|] eqn:Hl|].
  - rewrite (newObservation_run w sp lp s l Hs Hl). reflexivity.
  - rewrite (newObservation_null_landmark w sp lp s Hs Hl). reflexivity.
  - rewrite (newObservation_null_sensor w sp lp Hs). reflexivity.
Qed.


Lemma observe_from_every_sensor_preserves I mp lp :
  (forall sp, preserves I (newObservation sp lp)) ->
  preserves I (observe_from_every_sensor mp lp).
Proof.
  intros Hobs. unfold observe_from_every_sensor.
  apply preserves_bind; [apply preserves_deref_map|]. intros m.
  apply preserves_for_each. intros robIter.
  apply preserves_bind; [apply preserves_deref_rob|]. intros r.
  apply preserves_for_each. intros senIter.
  apply preserves_bind; [apply Hobs|]. intros obsPtr.
  apply preserves_ret.
Qed.

End Frames.

(** ** The ids of the observations *)

Section ObservationIds.
Variables size_robCV size_senPH size_lmkAHP : nat.

Lemma newObservation_ids sp lp : preserves observation_ids_zero (newObservation sp lp).
Proof.
  intros w H p o. rewrite newObservation_obss.
  intros Hp. apply lookup_app_Some in Hp as [Hp|[_ Hp]].
  - exact (H p o Hp).
  - apply list_lookup_singleton_Some in Hp as [_ <-]. reflexivity.
Qed.

Lemma newRobot_ids mp name :
  preserves observation_ids_zero (newRobot size_robCV mp name).
Proof.
  intros w H p o.
  destruct (newRobot_frame size_robCV w mp name) as (_ & _ & ->). apply H.
Qed.

Lemma newSensor_ids rp name isInMap :
  preserves observation_ids_zero (newSensor size_senPH rp name isInMap).
Proof.
  intros w H p o.
  destruct (newSensor_frame size_senPH w rp name isInMap) as (_ & ->). apply H.
Qed.

Lemma newLandmark_ids mp :
  preserves observation_ids_zero (newLandmark size_lmkAHP mp).
Proof.
  intros w H.
  destruct (maps w !! mp) as [m|] eqn:Hm;
    [destruct (MapAbstract.first_fit (MapAbstract.used_states m) size_lmkAHP)
       as [start|] eqn:Hfit|].
  - rewrite (newLandmark_run size_lmkAHP w mp m start Hm Hfit).
    apply preserves_bind; [|intros; apply preserves_ret|exact H].
    apply observe_from_every_sensor_preserves. intros sp.
    apply newObservation_ids.
  - rewrite (newLandmark_full size_lmkAHP w mp m Hm Hfit). exact H.
  - rewrite (newLandmark_null size_lmkAHP w mp Hm). exact H.
Qed.

Lemma exec_ids c w :
  observation_ids_zero w ->
  observation_ids_zero (exec size_robCV size_senPH size_lmkAHP c w).
Proof.
  destruct c; simpl.
  - apply initSlam_preserves.
    + intros w0 H0. exact H0.
    + apply newRobot_ids.
    + apply newSensor_ids.
  - apply newRobot_ids.
  - apply newSensor_ids.
  - apply newObservation_ids.
  - apply newLandmark_ids.
Qed.

Lemma exec_all_ids cs : forall w,
  observation_ids_zero w ->
  observation_ids_zero (exec_all size_robCV size_senPH size_lmkAHP cs w).
Proof.
  induction cs as [|c cs IH]; intros w H; simpl; [exact H|].
  apply IH, exec_ids, H.
Qed.
End ObservationIds.

(** ** The entity graph: the claims *)

Section GraphClaims.

Lemma links_ok_empty : links_ok emptyWorld.
Proof.
  unfold links_ok, linked, emptyWorld. cbn [maps robs sens lmks obss].
  repeat split; intros ? ? ? ? H; rewrite lookup_nil in H; discriminate.
Qed.

Lemma exec_all_links size_robCV size_senPH size_lmkAHP cs : forall w,
  links_ok w -> links_ok (exec_all size_robCV size_senPH size_lmkAHP cs w).
Proof.
  induction cs as [|c cs IH]; intros w H; simpl; [exact H|].
  apply IH, exec_links, H.
Qed.



(** C9: [newSensor] creates no observation and leaves every landmark,
    and so the observation mapping of every landmark, as it was. *)
Theorem newSensor_no_fan_out :
  forall (size_senPH : nat) (robPtr : ptr) (name : string) (isInMap : bool)
         (w : World),
    let w' := (newSensor size_senPH robPtr name isInMap w).1 in
    obss w' = obss w /\
    lmks w' = lmks w /\
    (forall lmkPtr l, lmks w !! lmkPtr = Some l ->
       exists l', lmks w' !! lmkPtr = Some l' /\
                  LandmarkAbstract.observations l' = LandmarkAbstract.observations l).
Proof.
  intros size_senPH robPtr name isInMap w w'.
  destruct (newSensor_frame size_senPH w robPtr name isInMap) as [Hl Ho].
  fold w' in Hl, Ho. split; [exact Ho|]. split; [exact Hl|].
  intros lmkPtr l Hlk. exists l. rewrite Hl. split; [exact Hlk|reflexivity].
Qed.

(** C10: the observation that [newObservation] returns has the id 0,
    and in every store that a sequence of calls builds all
    observations have the id 0, so that any two of them have the same
    id. *)
Theorem observation_ids_are_all_zero :
  forall size_robCV size_senPH size_lmkAHP : nat,
    (forall w sp lp w' op,
        newObservation sp lp w = (w', inr op) ->
        exists o, obss w' !! op = Some o /\ ObservationAbstract.id o = 0) /\
    (forall cs,
        let w := exec_all size_robCV size_senPH size_lmkAHP cs emptyWorld in
        observation_ids_zero w /\
        forall p q o1 o2,
          obss w !! p = Some o1 -> obss w !! q = Some o2 ->
          ObservationAbstract.id o1 = ObservationAbstract.id o2).
Proof.
  intros size_robCV size_senPH size_lmkAHP. split.
  - intros w sp lp w' op Hrun.
    destruct (newObservation_both_ways w sp lp w' op Hrun)
      as (_ & _ & o' & _ & _ & Ho & _ & _ & _ & _ & Hid).
    exists o'. split; assumption.
  - intros cs w.
    assert (observation_ids_zero w) as Hz.
    { apply exec_all_ids. intros p o H.
      change (obss emptyWorld) with (@nil ObservationAbstract.t) in H.
      rewrite lookup_nil in H. discriminate. }
    split; [exact Hz|].
    intros p q o1 o2 H1 H2. rewrite (Hz p o1 H1), (Hz q o2 H2). reflexivity.
Qed.

Lemma observation_ids_are_all_zero_witness :
  let w := exec_all 13 7 7 [CallInitSlam 300; CallNewLandmark 0] emptyWorld in
  (newObservation 1 0 w = ((newObservation 1 0 w).1, inr 2) /\
   exists o, obss (newObservation 1 0 w).1 !! 2 = Some o /\
             ObservationAbstract.id o = 0) /\
  obss w !! 0 = Some (fresh_obs 0 0) /\
  obss w !! 1 = Some (fresh_obs 1 0) /\
  ObservationAbstract.id (fresh_obs 0 0) = ObservationAbstract.id (fresh_obs 1 0).
Proof.
  intros w.
  pose proof (observation_ids_are_all_zero 13 7 7) as [Hnew Hall].
  assert (newObservation 1 0 w = ((newObservation 1 0 w).1, inr 2)) as E
    by (vm_compute; reflexivity).
  assert (obss w !! 0 = Some (fresh_obs 0 0)) as H0 by (vm_compute; reflexivity).
  assert (obss w !! 1 = Some (fresh_obs 1 0)) as H1 by (vm_compute; reflexivity).
  split; [split; [exact E|exact (Hnew _ _ _ _ _ E)]|].
  split; [exact H0|]. split; [exact H1|].
  exact (proj2 (Hall [CallInitSlam 300; CallNewLandmark 0]) 0 1 _ _ H0 H1).
Defined.
End GraphClaims.

(** ** Creation on a map without room *)

Section Capacity.


Lemma unusedStates_first_fit m size :
  MapAbstract.unusedStates m size = true ->
  exists start, MapAbstract.first_fit (MapAbstract.used_states m) size = Some start.
Proof.
  unfold MapAbstract.unusedStates. intros H.
  apply bool_decide_eq_true in H. destruct H as [start H]. exists start. exact H.
Qed.


(** C1 (the code at the input [initSlam(300)] followed by
    [newLandmark]): with the two sensors of the test, [newLandmark]
    creates one observation per sensor, each pointing back at its
    sensor and at the landmark, but the landmark's mapping keeps only
    the second one; after a second landmark the mappings of the first
    sensor and of the first landmark no longer hold the first
    observation, and four observations were created while each mapping
    has one entry. *)
Theorem newLandmark_fan_out_collides :
  length (sens test_store) = 2 /\
  obss test_store_one_landmark = [fresh_obs 0 0; fresh_obs 1 0] /\
  LandmarkAbstract.observations <$> lmks test_store_one_landmark = [{[0 := 1]}] /\
  SensorAbstract.observations <$> sens test_store_one_landmark =
    [{[0 := 0]}; {[0 := 1]}] /\
  obss test_store_two_landmarks =
    [fresh_obs 0 0; fresh_obs 1 0; fresh_obs 0 1; fresh_obs 1 1] /\
  LandmarkAbstract.observations <$> lmks test_store_two_landmarks =
    [{[0 := 1]}; {[0 := 3]}] /\
  SensorAbstract.observations <$> sens test_store_two_landmarks =
    [{[0 := 2]}; {[0 := 3]}].
Proof. vm_compute. repeat split; reflexivity. Qed.



End Capacity.

(** ** The predict step *)

Section Predict.
Import ExtendedKalmanFilterIndirect.

Lemma index_of_None i ia : i ∉ ia -> index_of i ia = None.
Proof.
  induction ia as [|k ia IH]; simpl; intros H; [reflexivity|].
  apply not_elem_of_cons in H as [Hne Hin].
  destruct (decide (k = i)) as [->|_]; [congruence|].
  rewrite (IH Hin). reflexivity.
Qed.

Lemma index_of_at ia a :
  NoDup ia -> a < length ia -> index_of (at_ ia a) ia = Some a.
Proof.
  unfold at_. intros Hnd. revert a.
  induction Hnd as [|k ia Hk Hnd IH]; intros a Ha; simpl in *; [lia|].
  destruct a as [|a].
  - destruct (decide (k = k)); [reflexivity|congruence].
  - destruct (decide (k = nth a ia 0)) as [E|_].
    + exfalso. apply Hk. rewrite E. apply list_elem_of_In, nth_In. lia.
    + rewrite (IH a) by lia. reflexivity.
Qed.

(** Blocks that do not involve the robot's slot are unchanged. *)
Lemma predict_frame iax J iav Q P i j :
  i ∉ iav -> j ∉ iav -> predict iax J iav Q P i j = P i j.
Proof.
  intros Hi Hj. unfold predict.
  rewrite (index_of_None i iav Hi), (index_of_None j iav Hj).
  destruct (_ && _); reflexivity.
Qed.

(** The robot's own block is [J·P·Jᵗ + Q]. *)
Lemma predict_own_block iax J iav Q P a b :
  NoDup iav -> iav ⊆ iax -> a < length iav -> b < length iav ->
  predict iax J iav Q P (at_ iav a) (at_ iav b) = (JPJt J iav P a b + Q a b)%Z.
Proof.
  intros Hnd Hsub Ha Hb. unfold predict.
  rewrite (index_of_at iav a Hnd Ha), (index_of_at iav b Hnd Hb).
  assert (forall c, c < length iav -> at_ iav c ∈ iax) as Hin.
  { intros c Hc. apply Hsub. unfold at_. apply list_elem_of_In, nth_In. exact Hc. }
  rewrite !bool_decide_eq_true_2 by (apply Hin; assumption). reflexivity.
Qed.

(** With a robot of two states, the identity for Jacobian and no
    noise, the robot-to-other entries are unchanged too. *)
Lemma predict_identity_cross iax P r0 r1 i j :
  r0 <> r1 -> i ∈ [r0; r1] -> j ∉ [r0; r1] ->
  predict iax identity [r0; r1] zero P i j = P i j /\
  predict iax identity [r0; r1] zero P j i = P j i.
Proof.
  intros Hne Hi Hj. unfold predict.
  rewrite (index_of_None j _ Hj).
  assert (index_of i [r0; r1] = Some 0 /\ i = r0 \/
          index_of i [r0; r1] = Some 1 /\ i = r1) as [[-> ->]|[-> ->]].
  { apply elem_of_cons in Hi as [->|Hi].
    - left. simpl. destruct (decide (r0 = r0)); [split; reflexivity|congruence].
    - apply list_elem_of_singleton in Hi as ->. right. simpl.
      destruct (decide (r0 = r1)); [congruence|].
      destruct (decide (r1 = r1)); [split; reflexivity|congruence]. }
  - split; destruct (_ && _); try reflexivity;
      unfold sum_upto, identity, at_; simpl; lia.
  - split; destruct (_ && _); try reflexivity;
      unfold sum_upto, identity, at_; simpl; lia.
Qed.

Lemma JPJt_identity_two P r0 r1 a b :
  a < 2 -> b < 2 ->
  JPJt identity [r0; r1] P a b = P (at_ [r0; r1] a) (at_ [r0; r1] b).
Proof.
  intros Ha Hb. unfold JPJt, sum_upto, identity, at_.
  destruct a as [|[|a]], b as [|[|b]]; try lia; simpl; lia.
Qed.

(** C5: a predict call for one robot leaves unchanged every
    covariance entry whose row and column are both outside the robot's
    slot, and gives the robot's own block the value J·P·Jᵗ + Q; for a
    robot of two states, the identity for Jacobian and no noise, the
    landmark's block and its cross-covariance with the robot are
    unchanged and the robot's block is J·P·Jᵗ. *)
Theorem predict_touches_robot_blocks_only :
  (forall iax J iav Q P i j,
      i ∉ iav -> j ∉ iav -> predict iax J iav Q P i j = P i j) /\
  (forall iax J iav Q P a b,
      NoDup iav -> iav ⊆ iax -> a < length iav -> b < length iav ->
      predict iax J iav Q P (at_ iav a) (at_ iav b) =
        (JPJt J iav P a b + Q a b)%Z) /\
  (forall iax P r0 r1,
      r0 <> r1 -> [r0; r1] ⊆ iax ->
      let P' := predict iax identity [r0; r1] zero P in
      (forall i j, i ∉ [r0; r1] -> j ∉ [r0; r1] -> P' i j = P i j) /\
      (forall i j, i ∈ [r0; r1] -> j ∉ [r0; r1] ->
                   P' i j = P i j /\ P' j i = P j i) /\
      (forall a b, a < 2 -> b < 2 ->
                   P' (at_ [r0; r1] a) (at_ [r0; r1] b) =
                     JPJt identity [r0; r1] P a b)).
Proof.
  split; [exact predict_frame|]. split; [exact predict_own_block|].
  intros iax P r0 r1 Hne Hsub P'. split; [|split].
  - intros i j. apply predict_frame.
  - intros i j. apply predict_identity_cross, Hne.
  - intros a b Ha Hb. unfold P'.
    rewrite predict_own_block; try assumption.
    + unfold zero. lia.
    + apply NoDup_cons. split; [|apply NoDup_singleton].
      intros H. apply list_elem_of_singleton in H. congruence.
Qed.

(** The scenario on the covariance that [fillMapSeq] writes: the
    robot holds the states 0 and 1, the landmark the states 2 to 8. *)
Lemma predict_touches_robot_blocks_only_witness :
  let P := fillMapSeq 300 zero in
  let P' := predict (seq 0 9) identity [0; 1] zero P in
  ((2 ∉ [0; 1]) /\ (5 ∉ [0; 1]) /\ P' 2 5 = P 2 5) /\
  (NoDup [0; 1] /\ [0; 1] ⊆ seq 0 9 /\ 0 < length [0; 1] /\ 1 < length [0; 1] /\
   P' (at_ [0; 1] 0) (at_ [0; 1] 1) = Z.add (JPJt identity [0; 1] P 0 1) (zero 0 1)) /\
  0 <> 1 /\
  (forall i j, i ∉ [0; 1] -> j ∉ [0; 1] -> P' i j = P i j) /\
  (forall i j, i ∈ [0; 1] -> j ∉ [0; 1] -> P' i j = P i j /\ P' j i = P j i) /\
  (forall a b, a < 2 -> b < 2 ->
               P' (at_ [0; 1] a) (at_ [0; 1] b) = JPJt identity [0; 1] P a b).
Proof.
  intros P P'.
  pose proof predict_touches_robot_blocks_only as (Hframe & Hown & Hscenario).
  assert ([0; 1] ⊆ seq 0 9) as Hsub.
  { intros k Hk. apply elem_of_seq.
    apply elem_of_cons in Hk as [->|Hk]; [lia|].
    apply list_elem_of_singleton in Hk as ->. lia. }
  assert (forall k, 2 <= k -> k ∉ [0; 1]) as Hout.
  { intros k Hk Hin. apply elem_of_cons in Hin as [->|Hin]; [lia|].
    apply list_elem_of_singleton in Hin as ->. lia. }
  assert (NoDup [0; 1]) as Hnd.
  { apply NoDup_cons. split; [|apply NoDup_singleton].
    intros H. apply list_elem_of_singleton in H. discriminate. }
  split.
  { split; [apply Hout; lia|]. split; [apply Hout; lia|].
    apply Hframe; apply Hout; lia. }
  split.
  { split; [exact Hnd|]. split; [exact Hsub|]. simpl length.
    split; [lia|]. split; [lia|].
    apply Hown; [exact Hnd|exact Hsub|simpl; lia|simpl; lia]. }
  split; [lia|].
  apply (Hscenario (seq 0 9) P 0 1); [lia|exact Hsub].
Defined.
End Predict.

(** ** The keys of the observation mappings *)

Section Keys.
Variables size_robCV size_senPH size_lmkAHP : nat.

Lemma keys_zero_update {X : Type} (xs : list X) (f : X -> gmap nat ptr) xp x x' :
  keys_zero xs f -> xs !! xp = Some x ->
  (f x' = f x \/ exists yp, f x' = <[0 := yp]> (f x)) ->
  keys_zero (<[xp := x']> xs) f.
Proof.
  intros H Hx Hf xq xo k yp Hq Hk.
  apply list_lookup_insert_Some in Hq as [(<- & <- & _)|[Hne Hq]];
    [|exact (H xq xo k yp Hq Hk)].
  destruct Hf as [Hf|[yq Hf]]; rewrite Hf in Hk.
  - exact (H xp x k yp Hx Hk).
  - apply lookup_insert_Some in Hk as [[<- _]|[_ Hk]]; [reflexivity|].
    exact (H xp x k yp Hx Hk).
Qed.

Lemma keys_zero_alloc {X : Type} (xs : list X) (f : X -> gmap nat ptr) x :
  keys_zero xs f -> f x = ∅ -> keys_zero (xs ++ [x]) f.
Proof.
  intros H Hf xq xo k yp Hq Hk.
  apply lookup_app_Some in Hq as [Hq|[_ Hq]]; [exact (H xq xo k yp Hq Hk)|].
  apply list_lookup_singleton_Some in Hq as [_ <-].
  rewrite Hf, lookup_empty in Hk. discriminate.
Qed.

(** A mapping without a key other than 0 has at most one entry. *)
Lemma keys_zero_size {X : Type} (xs : list X) (f : X -> gmap nat ptr) xp x :
  keys_zero xs f -> xs !! xp = Some x -> size (f x) <= 1.
Proof.
  intros H Hx.
  destruct (f x !! 0) as [yp|] eqn:H0.
  - assert (f x = {[0 := yp]}) as ->; [|rewrite map_size_singleton; lia].
    apply map_eq. intros k. destruct (decide (k = 0)) as [->|Hne].
    + rewrite lookup_singleton_eq. exact H0.
    + rewrite lookup_singleton_ne by congruence.
      destruct (f x !! k) as [yq|] eqn:Hk; [|reflexivity].
      exfalso. apply Hne. exact (H xp x k yq Hx Hk).
  - assert (f x = ∅) as ->; [|rewrite map_size_empty; lia].
    apply map_eq. intros k. rewrite lookup_empty.
    destruct (f x !! k) as [yq|] eqn:Hk; [|reflexivity].
    rewrite (H xp x k yq Hx Hk) in Hk. congruence.
Qed.

Lemma newObservation_keys sp lp : preserves observation_keys_zero (newObservation sp lp).
Proof.
  intros w [Hs Hl].
  destruct (sens w !! sp) as [s|] eqn:Es;
    [destruct (lmks w !! lp) as [l|] eqn:El|].
  - rewrite (newObservation_run w sp lp s l Es El).
    split; cbn [fst sens lmks];
      (eapply keys_zero_update; [eassumption|eassumption|right; eexists; reflexivity]).
  - rewrite (newObservation_null_landmark w sp lp s Es El).
    split; cbn [fst sens lmks]; [|exact Hl].
    eapply keys_zero_update; [exact Hs|exact Es|right; eexists; reflexivity].
  - rewrite (newObservation_null_sensor w sp lp Es). split; assumption.
Qed.

Lemma newRobot_keys mp name :
  preserves observation_keys_zero (newRobot size_robCV mp name).
Proof.
  intros w H. unfold observation_keys_zero.
  destruct (newRobot_frame size_robCV w mp name) as (-> & -> & _). exact H.
Qed.

Lemma newSensor_keys rp name isInMap :
  preserves observation_keys_zero (newSensor size_senPH rp name isInMap).
Proof.
  intros w [Hs Hl].
  destruct (newSensor_cases size_senPH w rp name isInMap)
    as [E|[(m & mp & Hm & E)|(r & mp & m & ia & mu & Hr & Hmp & Hm & Hia)]].
  - rewrite E. split; assumption.
  - rewrite E. split; assumption.
  - rewrite (newSensor_run size_senPH w rp name isInMap r mp m ia mu Hr Hmp Hm Hia).
    split; cbn [fst sens lmks]; [|exact Hl].
    apply keys_zero_alloc; [exact Hs|reflexivity].
Qed.

Lemma newLandmark_keys mp :
  preserves observation_keys_zero (newLandmark size_lmkAHP mp).
Proof.
  intros w H.
  destruct (maps w !! mp) as [m|] eqn:Hm;
    [destruct (MapAbstract.first_fit (MapAbstract.used_states m) size_lmkAHP)
       as [start|] eqn:Hfit|].
  - rewrite (newLandmark_run size_lmkAHP w mp m start Hm Hfit).
    apply preserves_bind; [|intros; apply preserves_ret|].
    + apply observe_from_every_sensor_preserves. intros sp.
      apply newObservation_keys.
    + destruct H as [Hs Hl]. split; cbn [sens lmks]; [exact Hs|].
      apply keys_zero_alloc; [exact Hl|reflexivity].
  - rewrite (newLandmark_full size_lmkAHP w mp m Hm Hfit). exact H.
  - rewrite (newLandmark_null size_lmkAHP w mp Hm). exact H.
Qed.

Lemma exec_keys c w :
  observation_keys_zero w ->
  observation_keys_zero (exec size_robCV size_senPH size_lmkAHP c w).
Proof.
  destruct c; simpl.
  - apply initSlam_preserves.
    + intros w0 H0. exact H0.
    + apply newRobot_keys.
    + apply newSensor_keys.
  - apply newRobot_keys.
  - apply newSensor_keys.
  - apply newObservation_keys.
  - apply newLandmark_keys.
Qed.

Lemma exec_all_keys cs : forall w,
  observation_keys_zero w ->
  observation_keys_zero (exec_all size_robCV size_senPH size_lmkAHP cs w).
Proof.
  induction cs as [|c cs IH]; intros w H; simpl; [exact H|].
  apply IH, exec_keys, H.
Qed.

Lemma observation_keys_zero_empty : observation_keys_zero emptyWorld.
Proof.
  split; intros xp x k yp H; cbn [emptyWorld sens lmks] in H;
    rewrite lookup_nil in H; discriminate.
Qed.

(** In every store that a sequence of calls builds, the observation
    mapping of a sensor and that of a landmark have at most one entry,
    however many observations were created. *)
Lemma observation_mappings_hold_one cs :
  let w := exec_all size_robCV size_senPH size_lmkAHP cs emptyWorld in
  (forall sp s, sens w !! sp = Some s -> size (SensorAbstract.observations s) <= 1) /\
  (forall lp l, lmks w !! lp = Some l -> size (LandmarkAbstract.observations l) <= 1).
Proof.
  intros w.
  destruct (exec_all_keys cs emptyWorld observation_keys_zero_empty) as [Hs Hl].
  fold w in Hs, Hl. split.
  - intros sp s Hsp. exact (keys_zero_size _ _ sp s Hs Hsp).
  - intros lp l Hlp. exact (keys_zero_size _ _ lp l Hl Hlp).
Qed.
End Keys.

(** ** The observations that a new landmark brings *)

Section FanOut.
Variable size_lmkAHP : nat.

Lemma elem_of_std_map_items (m : gmap nat ptr) (it : nat * ptr) :
  it ∈ std_map_items m <-> m !! it.1 = Some it.2.
Proof.
  unfold std_map_items. rewrite merge_sort_Permutation.
  destruct it as [k v]. apply elem_of_map_to_list.
Qed.

Lemma newObservation_success w sp lp :
  sp < length (sens w) -> lp < length (lmks w) ->
  exists w',
    newObservation sp lp w = (w', inr (length (obss w))) /\
    obss w' = obss w ++ [fresh_obs sp lp] /\
    maps w' = maps w /\ robs w' = robs w /\
    length (sens w') = length (sens w) /\ length (lmks w') = length (lmks w).
Proof.
  intros Hs Hl.
  destruct (lookup_lt_is_Some_2 _ _ Hs) as [s Es].
  destruct (lookup_lt_is_Some_2 _ _ Hl) as [l El].
  eexists. split; [apply (newObservation_run w sp lp s l Es El)|].
  cbn [maps robs sens lmks obss]. rewrite !length_insert. repeat split.
Qed.

(** The inner loop: one observation per sensor of the robot. *)
Lemma observe_sensors lp (items : list (nat * ptr)) : forall w,
  (forall it, it ∈ items -> it.2 < length (sens w)) ->
  lp < length (lmks w) ->
  exists w',
    for_each items (fun senIter =>
                      let senPtr := senIter.2 in
                      let* obsPtr := newObservation senPtr lp in ret tt) w =
      (w', inr tt) /\
    obss w' = obss w ++ ((fun sp => fresh_obs sp lp) <$> (snd <$> items)) /\
    maps w' = maps w /\ robs w' = robs w /\
    length (sens w') = length (sens w) /\ length (lmks w') = length (lmks w).
Proof.
  induction items as [|it items IH]; intros w Hvalid Hlp.
  - exists w. simpl. rewrite app_nil_r. repeat split.
  - destruct (newObservation_success w it.2 lp) as (w1 & E1 & Ho1 & Hm1 & Hr1 & Hs1 & Hl1);
      [apply Hvalid; left|exact Hlp|].
    destruct (IH w1) as (w2 & E2 & Ho2 & Hm2 & Hr2 & Hs2 & Hl2).
    { intros it' Hin. rewrite Hs1. apply Hvalid. right. exact Hin. }
    { rewrite Hl1. exact Hlp. }
    exists w2. split.
    { cbn [for_each]. erewrite bind_inr; [exact E2|].
      cbv zeta. erewrite bind_inr by exact E1. reflexivity. }
    rewrite Ho2, Ho1, Hm2, Hm1, Hr2, Hr1, Hs2, Hs1, Hl2, Hl1.
    rewrite <- app_assoc. repeat split.
Qed.

(** The outer loop: the sensors of every robot of the map. *)
Lemma observe_robots lp (ritems : list (nat * ptr)) : forall w,
  (forall rit, rit ∈ ritems ->
     exists r, robs w !! rit.2 = Some r /\
               forall it, it ∈ std_map_items (RobotAbstract.sensors r) ->
                          it.2 < length (sens w)) ->
  lp < length (lmks w) ->
  exists w',
    for_each ritems (fun robIter =>
                       let robPtr := robIter.2 in
                       let* r := deref_rob robPtr in
                       for_each (std_map_items (RobotAbstract.sensors r))
                         (fun senIter =>
                            let senPtr := senIter.2 in
                            let* obsPtr := newObservation senPtr lp in ret tt)) w =
      (w', inr tt) /\
    obss w' =
      obss w ++
      ((fun sp => fresh_obs sp lp) <$>
         flat_map (fun robIter : nat * ptr =>
                     match robs w !! robIter.2 with
                     | Some r => snd <$> std_map_items (RobotAbstract.sensors r)
                     | None => []
                     end) ritems) /\
    maps w' = maps w /\ robs w' = robs w /\
    length (sens w') = length (sens w) /\ length (lmks w') = length (lmks w).
Proof.
  induction ritems as [|rit ritems IH]; intros w Hvalid Hlp.
  - exists w. simpl. rewrite app_nil_r. repeat split.
  - destruct (Hvalid rit) as (r & Er & Hsens); [left|].
    destruct (observe_sensors lp (std_map_items (RobotAbstract.sensors r)) w Hsens Hlp)
      as (w1 & E1 & Ho1 & Hm1 & Hr1 & Hs1 & Hl1).
    destruct (IH w1) as (w2 & E2 & Ho2 & Hm2 & Hr2 & Hs2 & Hl2).
    { intros rit' Hin. rewrite Hr1, Hs1. apply Hvalid. right. exact Hin. }
    { rewrite Hl1. exact Hlp. }
    exists w2. split.
    { cbn [for_each]. erewrite bind_inr; [exact E2|].
      cbv zeta. erewrite bind_inr by (apply deref_rob_Some; exact Er). exact E1. }
    rewrite Ho2, Ho1, Hm2, Hm1, Hr2, Hr1, Hs2, Hs1, Hl2, Hl1.
    cbn [flat_map]. rewrite Er, fmap_app, <- app_assoc. repeat split.
Qed.

(** On a store whose links are in order and a map with room,
    [newLandmark] returns the landmark and has created exactly one
    observation for each sensor of each robot of the map, pointing back
    at that sensor and at the new landmark. *)
Lemma newLandmark_fan_out w mp m start :
  links_ok w ->
  maps w !! mp = Some m ->
  MapAbstract.first_fit (MapAbstract.used_states m) size_lmkAHP = Some start ->
  exists w',
    newLandmark size_lmkAHP mp w = (w', inr (length (lmks w))) /\
    obss w' =
      obss w ++ ((fun sp => fresh_obs sp (length (lmks w))) <$> registered_sensors w mp).
Proof.
  intros (H1 & _ & H3 & _) Hm Hfit.
  rewrite (newLandmark_run size_lmkAHP w mp m start Hm Hfit).
  match goal with |- context [bind _ _ ?w0] => set (wl := w0) end.
  destruct (observe_robots (length (lmks w))
              (std_map_items (MapAbstract.robots m)) wl)
    as (w' & E & Ho & _).
  { intros rit Hin. apply elem_of_std_map_items in Hin.
    destruct (H1 mp m rit.1 rit.2 Hm Hin) as (r & Er & _).
    exists r. split; [exact Er|].
    intros it Hit. apply elem_of_std_map_items in Hit.
    destruct (H3 rit.2 r it.1 it.2 Er Hit) as (s & Es & _).
    eapply lookup_lt_Some, Es. }
  { subst wl. cbn [lmks]. rewrite length_app. simpl. lia. }
  exists w'. split.
  - erewrite bind_inr; [reflexivity|].
    unfold observe_from_every_sensor.
    erewrite bind_inr
      by (apply deref_map_Some; subst wl; cbn [maps];
          eapply lookup_insert_same, Hm).
    exact E.
  - rewrite Ho. unfold registered_sensors. rewrite Hm. reflexivity.
Qed.
End FanOut.

(* ===================================================================== *)
(** * Part III: further properties of the code                            *)
(* ===================================================================== *)

(** ** detectIn on arbitrary candidates *)

Section Binary64More.

Lemma SFltb_nan_r a : SFltb a S754_nan = false.
Proof. unfold SFltb. destruct a as [[]|[]| |[] m e]; reflexivity. Qed.

Lemma SFltb_nan_l a : SFltb S754_nan a = false.
Proof. reflexivity. Qed.

(** Two numbers neither of which is below the other are equal for [=?]. *)
Lemma SFeqb_of_not_lt a b :
  a <> S754_nan -> b <> S754_nan ->
  SFltb a b = false -> SFltb b a = false -> SFeqb a b = true.
Proof.
  unfold SFltb, SFeqb.
  destruct a as [[]|[]| |[] ma ea], b as [[]|[]| |[] mb eb];
    simpl; try congruence; intros _ _;
    destruct (Z.compare_spec ea eb), (Z.compare_spec eb ea); try lia;
    simpl; try congruence; subst;
    change (Pos.compare_cont Eq ma mb) with (Pos.compare ma mb);
    change (Pos.compare_cont Eq mb ma) with (Pos.compare mb ma);
    destruct (Pos.compare_spec ma mb), (Pos.compare_spec mb ma);
    simpl; try congruence; try lia.
Qed.

Lemma ltb_true_numbers (a b : float) :
  (a <? b)%float = true -> is_nan a = false /\ is_nan b = false.
Proof.
  rewrite FloatAxioms.ltb_spec, !is_nan_false. intros H.
  split; intros E; rewrite E in H.
  - rewrite SFltb_nan_l in H. discriminate.
  - rewrite SFltb_nan_r in H. discriminate.
Qed.

Lemma ltb_nan_r (a b : float) : is_nan b = true -> (a <? b)%float = false.
Proof.
  intros Hb. destruct (a <? b)%float eqn:E; [|reflexivity].
  apply ltb_true_numbers in E as [_ E]. congruence.
Qed.

Lemma ltb_asym (a b : float) : (a <? b)%float = true -> (b <? a)%float = false.
Proof.
  intros H. destruct (b <? a)%float eqn:E; [|reflexivity].
  rewrite <- (ltb_irrefl a). symmetry. exact (ltb_trans _ _ _ H E).
Qed.

Lemma eqb_of_not_lt (a b : float) :
  is_nan a = false -> is_nan b = false ->
  (a <? b)%float = false -> (b <? a)%float = false -> (a =? b)%float = true.
Proof.
  rewrite !is_nan_false, !FloatAxioms.ltb_spec, FloatAxioms.eqb_spec.
  apply SFeqb_of_not_lt.
Qed.

End Binary64More.

Section ScanAnyCandidates.
Import dseg HierarchicalDirectSegmentDetector.

Lemma sqrLength_not_above_initial seg :
  (-1 <? sqrLength seg)%float = false -> is_nan (sqrLength seg) = true.
Proof.
  intros H. destruct (is_nan (sqrLength seg)) eqn:E; [reflexivity|].
  rewrite (sqrLength_above_initial seg E) in H. discriminate.
Qed.

(** The invariant of the loop of lines 26-56, for any candidates. *)
Lemma scan_invariant_any set :
  forall n, (n <= length set)%nat ->
    best_number_upto set n (foldl (loop_body set) ((-1)%Z, (-1)%float) (seq 0 n)).
Proof.
  induction n as [|n IH]; intros Hn.
  { left. split; [reflexivity|]. intros j s Hj. lia. }
  rewrite scan_turn.
  destruct (lookup_lt_is_Some_2 set n ltac:(lia)) as [seg Hseg].
  assert (take (S n) set = take n set ++ [seg]) as Etake
    by (apply take_S_r; exact Hseg).
  assert (length (take n set) = n) as Elen by (rewrite length_take; lia).
  destruct (IH ltac:(lia)) as [[-> Hnan]|(k & sb & Hk & -> & Hbest)];
    unfold loop_body, segmentAt; rewrite Hseg; simpl snd.
  - destruct (-1 <? sqrLength seg)%float eqn:Hcmp.
    + (* the first candidate whose squared length is a number *)
      right. exists n, seg. split; [lia|]. split; [reflexivity|].
      rewrite Etake. split; [|split; [|split]].
      * rewrite lookup_app_r by lia. rewrite Elen, Nat.sub_diag. reflexivity.
      * apply ltb_true_numbers in Hcmp as [_ H]. exact H.
      * intros j s Hj. apply lookup_app_Some in Hj as [Hj|[_ Hj]].
        -- apply lookup_take_Some in Hj as [Hj Hlt].
           apply ltb_nan_r. exact (Hnan j s Hlt Hj).
        -- rewrite Elen in Hj. apply list_lookup_singleton_Some in Hj as [_ <-].
           apply ltb_irrefl.
      * intros j s Hj Hs Hnum. rewrite lookup_app_l in Hs by lia.
        apply lookup_take_Some in Hs as [Hs _].
        rewrite (Hnan j s Hj Hs) in Hnum. discriminate.
    + left. split; [reflexivity|]. intros j s Hj Hs.
      destruct (decide (j = n)) as [->|Hne].
      * assert (s = seg) as -> by congruence.
        apply sqrLength_not_above_initial, Hcmp.
      * apply (Hnan j s); [lia|exact Hs].
  - destruct Hbest as (Hkb & Hnum & Hmax & Hfirst).
    destruct (sqrLength sb <? sqrLength seg)%float eqn:Hcmp.
    + right. exists n, seg. split; [lia|]. split; [reflexivity|].
      rewrite Etake. split; [|split; [|split]].
      * rewrite lookup_app_r by lia. rewrite Elen, Nat.sub_diag. reflexivity.
      * apply ltb_true_numbers in Hcmp as [_ H]. exact H.
      * intros j s Hj. apply lookup_app_Some in Hj as [Hj|[_ Hj]].
        -- destruct (sqrLength seg <? sqrLength s)%float eqn:Hlt; [|reflexivity].
           pose proof (Hmax j s Hj) as Hm.
           rewrite (ltb_trans _ _ _ Hcmp Hlt) in Hm. discriminate.
        -- rewrite Elen in Hj. apply list_lookup_singleton_Some in Hj as [_ <-].
           apply ltb_irrefl.
      * intros j s Hj Hs Hsnum. rewrite lookup_app_l in Hs by lia.
        apply ltb_le_lt_trans with (b := sqrLength sb);
          [exact Hsnum|apply (Hmax j s Hs)|exact Hcmp].
    + right. exists k, sb. split; [lia|]. split; [reflexivity|].
      rewrite Etake. split; [|split; [|split]].
      * rewrite lookup_app_l by lia. exact Hkb.
      * exact Hnum.
      * intros j s Hj. apply lookup_app_Some in Hj as [Hj|[_ Hj]].
        -- apply (Hmax j s Hj).
        -- apply list_lookup_singleton_Some in Hj as [_ <-]. exact Hcmp.
      * intros j s Hj Hs Hsnum. rewrite lookup_app_l in Hs by lia.
        apply (Hfirst j s Hj Hs Hsnum).
Qed.

(** What the loop ends on. *)
Lemma scan_any set :
  (scan set = ((-1)%Z, (-1)%float) /\
   forall j s, set !! j = Some s -> is_nan (sqrLength s) = true) \/
  exists k seg, scan set = (Z.of_nat k, sqrLength seg) /\
                longest_first_number set k seg.
Proof.
  unfold scan, count.
  destruct (scan_invariant_any set (length set) (le_n _))
    as [[E Hnan]|(k & seg & Hk & E & Hbest)].
  - left. split; [exact E|]. intros j s Hs. apply (Hnan j s); [|exact Hs].
    eapply lookup_lt_Some, Hs.
  - right. exists k, seg. split; [exact E|]. rewrite firstn_all in Hbest. exact Hbest.
Qed.

(** [detectIn] as a function of the feature: the candidates decide
    which segment, if any, is written. *)
Lemma detectIn_chosen {Image ConvexRoi : Type}
    (detectSegment : Image -> option ConvexRoi -> SegmentsSet) image roiPtr :
  let set := detectSegment image roiPtr in
  ((forall featPtr, detectIn detectSegment image featPtr roiPtr = (false, featPtr)) /\
   forall j s, set !! j = Some s -> is_nan (sqrLength s) = true) \/
  exists k seg,
    longest_first_number set k seg /\ scan set = (Z.of_nat k, sqrLength seg) /\
    forall featPtr,
      detectIn detectSegment image featPtr roiPtr = (true, written seg featPtr).
Proof.
  intros set. destruct (scan_any set) as [[E Hnan]|(k & seg & E & Hlf)].
  - left. split; [|exact Hnan]. intros featPtr. unfold detectIn. fold set.
    rewrite E. simpl. destruct (0 <? count set)%nat; reflexivity.
  - right. exists k, seg. split; [exact Hlf|]. split; [exact E|].
    intros featPtr. unfold detectIn. fold set. rewrite E. simpl fst.
    destruct Hlf as (Hk & _).
    replace (0 <? count set)%nat with true
      by (destruct set; [rewrite lookup_nil in Hk; discriminate|reflexivity]).
    replace (0 <=? Z.of_nat k)%Z with true by (symmetry; apply Z.leb_le; lia).
    rewrite Nat2Z.id. unfold segmentAt. rewrite Hk. reflexivity.
Qed.
End ScanAnyCandidates.

Section DetectInMore.
Import dseg HierarchicalDirectSegmentDetector.

Lemma write_endpoints_twice seg v :
  write_endpoints seg (write_endpoints seg v) = write_endpoints seg v.
Proof. destruct v as [|a [|b [|c [|d v]]]]; reflexivity. Qed.

Lemma written_twice seg featPtr : written seg (written seg featPtr) = written seg featPtr.
Proof. unfold written. simpl. rewrite write_endpoints_twice. reflexivity. Qed.

(** X1: when the loop of [detectIn] ends, [bestId] is -1, with
    [bestSqrLength] still -1, or it is the index of a candidate of the
    set, [bestSqrLength] being the squared length of that candidate and
    a number; so the reads [segmentAt(bestId)] of lines 60-66 are never
    out of range. *)
Theorem scan_best_in_range :
  forall set : SegmentsSet,
    (scan set = ((-1)%Z, (-1)%float)) \/
    (exists seg,
        (0 <= fst (scan set) < Z.of_nat (count set))%Z /\
        segmentAt set (Z.to_nat (fst (scan set))) = Some seg /\
        snd (scan set) = sqrLength seg /\
        is_nan (snd (scan set)) = false).
Proof.
  intros set. destruct (scan_any set) as [[E _]|(k & seg & E & Hk & Hnum & _)].
  - left. exact E.
  - right. exists seg. rewrite E. simpl fst. simpl snd.
    rewrite Nat2Z.id. unfold count, segmentAt.
    pose proof (lookup_lt_Some _ _ _ Hk) as Hlt.
    split; [lia|]. split; [exact Hk|]. split; [reflexivity|exact Hnum].
Qed.

(** X2: [detectIn] returns [true] exactly when some candidate has a
    squared length that is a number; on a set, even a non-empty one, all
    of whose squared lengths are NaN it returns [false] and leaves the
    feature as it was. *)
Theorem detectIn_true_iff_some_number :
  forall (Image ConvexRoi : Type)
         (detectSegment : Image -> option ConvexRoi -> SegmentsSet)
         (image : Image) (featPtr : FeatureSegment) (roiPtr : option ConvexRoi),
    (fst (detectIn detectSegment image featPtr roiPtr) = true <->
     exists s, s ∈ detectSegment image roiPtr /\ is_nan (sqrLength s) = false) /\
    (fst (detectIn detectSegment image featPtr roiPtr) = false ->
     detectIn detectSegment image featPtr roiPtr = (false, featPtr)).
Proof.
  intros Image ConvexRoi detectSegment image featPtr roiPtr.
  destruct (detectIn_chosen detectSegment image roiPtr)
    as [[E Hnan]|(k & seg & (Hk & Hnum & _) & _ & E)]; rewrite (E featPtr); simpl.
  - split; [|reflexivity]. split; [discriminate|].
    intros (s & Hin & Hs). apply list_elem_of_lookup in Hin as [j Hj].
    rewrite (Hnan j s Hj) in Hs. discriminate.
  - split; [|discriminate]. split; [|reflexivity].
    intros _. exists seg. split; [|exact Hnum].
    apply list_elem_of_lookup. exists k. exact Hk.
Qed.

(** X3: whatever the candidates, when [detectIn] returns [true] the
    segment it has written is a candidate whose squared length is a
    number, than which no candidate is strictly longer, and before which
    every candidate with a number for squared length is strictly
    shorter: candidates whose squared length is NaN are passed over. *)
Theorem detectIn_passes_over_nan :
  forall (Image ConvexRoi : Type)
         (detectSegment : Image -> option ConvexRoi -> SegmentsSet)
         (image : Image) (featPtr featPtr' : FeatureSegment)
         (roiPtr : option ConvexRoi),
    detectIn detectSegment image featPtr roiPtr = (true, featPtr') ->
    exists k seg,
      longest_first_number (detectSegment image roiPtr) k seg /\
      fst (scan (detectSegment image roiPtr)) = Z.of_nat k /\
      featPtr' = written seg featPtr.
Proof.
  intros Image ConvexRoi detectSegment image featPtr featPtr' roiPtr Hret.
  destruct (detectIn_chosen detectSegment image roiPtr)
    as [[E _]|(k & seg & Hlf & Hscan & E)]; rewrite (E featPtr) in Hret.
  - discriminate.
  - injection Hret as <-. exists k, seg.
    split; [exact Hlf|]. split; [rewrite Hscan; reflexivity|reflexivity].
Qed.

Lemma detectIn_passes_over_nan_witness :
  exists k seg,
    longest_first_number nan_first_set k seg /\
    fst (scan nan_first_set) = Z.of_nat k /\
    written (mkSegmentHypothesis 0 0 10 0) example_feature = written seg example_feature.
Proof.
  apply (detectIn_passes_over_nan unit unit (fun _ _ => nan_first_set) tt
           example_feature _ None).
  vm_compute. reflexivity.
Defined.

(** X4: the squared length of the selected candidate does not depend on
    the order of the candidates: for two sets with the same candidates
    in different orders the loop ends on equal [bestSqrLength], and
    [detectIn] returns the same flag. *)
Theorem selected_length_ignores_order :
  forall set set' : SegmentsSet,
    set ≡ₚ set' ->
    (snd (scan set) =? snd (scan set'))%float = true /\
    (fst (scan set) = (-1)%Z <-> fst (scan set') = (-1)%Z) /\
    forall (featPtr : FeatureSegment),
      fst (detectIn (fun (_ : unit) (_ : option unit) => set) tt featPtr None) =
      fst (detectIn (fun (_ : unit) (_ : option unit) => set') tt featPtr None).
Proof.
  intros set set' Hperm.
  pose proof (detectIn_chosen (fun (_ : unit) (_ : option unit) => set) tt None) as H.
  pose proof (detectIn_chosen (fun (_ : unit) (_ : option unit) => set') tt None) as H'.
  cbv zeta in H, H'.
  destruct (scan_any set) as [[E Hnan]|(k & seg & E & Hk & Hnum & Hmax & _)];
    destruct (scan_any set') as [[E' Hnan']|(k' & seg' & E' & Hk' & Hnum' & Hmax' & _)].
  - rewrite E, E'. split; [reflexivity|]. split; [tauto|].
    intros featPtr. unfold detectIn. rewrite E, E'. simpl.
    destruct (0 <? count set)%nat, (0 <? count set')%nat; reflexivity.
  - exfalso. assert (seg' ∈ set) as Hin.
    { rewrite Hperm. apply list_elem_of_lookup. exists k'. exact Hk'. }
    apply list_elem_of_lookup in Hin as [j Hj].
    rewrite (Hnan j seg' Hj) in Hnum'. discriminate.
  - exfalso. assert (seg ∈ set') as Hin.
    { rewrite <- Hperm. apply list_elem_of_lookup. exists k. exact Hk. }
    apply list_elem_of_lookup in Hin as [j Hj].
    rewrite (Hnan' j seg Hj) in Hnum. discriminate.
  - assert (seg' ∈ set) as Hin'.
    { rewrite Hperm. apply list_elem_of_lookup. exists k'. exact Hk'. }
    assert (seg ∈ set') as Hin.
    { rewrite <- Hperm. apply list_elem_of_lookup. exists k. exact Hk. }
    apply list_elem_of_lookup in Hin' as [j' Hj'].
    apply list_elem_of_lookup in Hin as [j Hj].
    rewrite E, E'. simpl fst. simpl snd. split; [|split].
    + apply eqb_of_not_lt; [exact Hnum|exact Hnum'| |].
      * exact (Hmax j' seg' Hj').
      * exact (Hmax' j seg Hj).
    + split; intros Hneg; lia.
    + intros featPtr. unfold detectIn. rewrite E, E'. simpl fst.
      replace (0 <? count set)%nat with true
        by (destruct set; [rewrite lookup_nil in Hk; discriminate|reflexivity]).
      replace (0 <? count set')%nat with true
        by (destruct set'; [rewrite lookup_nil in Hk'; discriminate|reflexivity]).
      replace (0 <=? Z.of_nat k)%Z with true by (symmetry; apply Z.leb_le; lia).
      replace (0 <=? Z.of_nat k')%Z with true by (symmetry; apply Z.leb_le; lia).
      rewrite !Nat2Z.id. unfold segmentAt. rewrite Hk, Hk'. reflexivity.
Qed.

Lemma selected_length_ignores_order_witness :
  nan_first_set ≡ₚ reverse nan_first_set /\
  (snd (scan nan_first_set) =? snd (scan (reverse nan_first_set)))%float = true /\
  fst (scan nan_first_set) = 1%Z /\ fst (scan (reverse nan_first_set)) = 0%Z.
Proof.
  assert (nan_first_set ≡ₚ reverse nan_first_set) as Hperm
    by (symmetry; apply reverse_Permutation).
  split; [exact Hperm|].
  split; [exact (proj1 (selected_length_ignores_order _ _ Hperm))|].
  split; vm_compute; reflexivity.
Defined.

(** X5: running [detectIn] again on the feature it has produced, with
    the same candidates, gives the same flag and the same feature. *)
Theorem detectIn_again :
  forall (Image ConvexRoi : Type)
         (detectSegment : Image -> option ConvexRoi -> SegmentsSet)
         (image : Image) (featPtr : FeatureSegment) (roiPtr : option ConvexRoi),
    detectIn detectSegment image
             (snd (detectIn detectSegment image featPtr roiPtr)) roiPtr =
    detectIn detectSegment image featPtr roiPtr.
Proof.
  intros Image ConvexRoi detectSegment image featPtr roiPtr.
  destruct (detectIn_chosen detectSegment image roiPtr)
    as [[E _]|(k & seg & _ & _ & E)].
  - rewrite !E. reflexivity.
  - rewrite (E featPtr). simpl snd. rewrite E, written_twice. reflexivity.
Qed.
End DetectInMore.


(** ** initSlam as a whole *)

Section InitSlamShapes.
Variables size_robCV size_senPH : nat.

Lemma unusedStates_run w mp m size :
  maps w !! mp = Some m ->
  unusedStates mp size w = (w, inr (MapAbstract.unusedStates m size)).
Proof. intros Hm. unfold unusedStates. run deref_map_Some. reflexivity. Qed.

Lemma unusedStates_None m size :
  MapAbstract.unusedStates m size = false ->
  MapAbstract.first_fit (MapAbstract.used_states m) size = None.
Proof.
  unfold MapAbstract.unusedStates. intros H.
  apply bool_decide_eq_false in H.
  destruct (MapAbstract.first_fit (MapAbstract.used_states m) size) eqn:E;
    [|reflexivity].
  exfalso. apply H. eexists. reflexivity.
Qed.

(** The map and the robot that [initSlam] leaves when the arena had room
    for the robot at [start]. *)
Lemma initSlam_robot_run size_map w start :
  MapAbstract.first_fit (replicate size_map false) size_robCV = Some start ->
  let mp := length (maps w) in
  let m2 :=
    {| MapAbstract.max_size := size_map;
       MapAbstract.used_states :=
         MapAbstract.mark_used start size_robCV (replicate size_map false);
       MapAbstract.robotIds := {| IdPool.counter := 1; IdPool.released := [] |};
       MapAbstract.sensorIds := IdPool.init;
       MapAbstract.landmarkIds := IdPool.init;
       MapAbstract.robots := {[1 := length (robs w)]};
       MapAbstract.landmarks := ∅ |} in
  let r2 :=
    {| RobotAbstract.id := 1; RobotAbstract.name := "SUBMARINE";
       RobotAbstract.state := seq start size_robCV;
       RobotAbstract.slamMap := Some mp; RobotAbstract.sensors := ∅ |} in
  newRobot size_robCV mp "SUBMARINE"
      (set_maps (fun l => l ++ [MapAbstract.init size_map]) w) =
    ({| maps := maps w ++ [m2]; robs := robs w ++ [r2];
        sens := sens w; lmks := lmks w; obss := obss w |},
     inr (length (robs w))).
Proof.
  intros Hfit mp m2 r2.
  pose proof (newRobot_run size_robCV
                (set_maps (fun l => l ++ [MapAbstract.init size_map]) w)
                mp "SUBMARINE" (MapAbstract.init size_map) start
                (lookup_snoc_new _ _) Hfit) as E.
  subst mp m2 r2. cbv zeta in E. rewrite E. store_norm. reflexivity.
Qed.

Lemma initSlam_no_robot size_map w :
  MapAbstract.unusedStates (MapAbstract.init size_map) size_robCV = false ->
  initSlam size_robCV size_senPH size_map w =
    (set_maps (fun l => l ++ [MapAbstract.init size_map]) w, inr (length (maps w))).
Proof.
  intros Hroom. unfold initSlam, new_MapAbstract.
  erewrite bind_inr by reflexivity.
  run unusedStates_run. rewrite Hroom.
  erewrite bind_inr by reflexivity. reflexivity.
Qed.

Lemma initSlam_robot_alone size_map w start :
  MapAbstract.first_fit (replicate size_map false) size_robCV = Some start ->
  MapAbstract.first_fit
    (MapAbstract.mark_used start size_robCV (replicate size_map false))
    size_senPH = None ->
  initSlam size_robCV size_senPH size_map w =
    ((newRobot size_robCV (length (maps w)) "SUBMARINE"
        (set_maps (fun l => l ++ [MapAbstract.init size_map]) w)).1,
     inr (length (maps w))).
Proof.
  intros Hfit Hfull. unfold initSlam, new_MapAbstract.
  erewrite bind_inr by reflexivity.
  run unusedStates_run.
  replace (MapAbstract.unusedStates (MapAbstract.init size_map) size_robCV)
    with true
    by (symmetry; apply bool_decide_eq_true; eexists; exact Hfit).
  rewrite (initSlam_robot_run size_map w start Hfit).
  erewrite bind_inr; [reflexivity|].
  erewrite bind_inr by apply (initSlam_robot_run size_map w start Hfit).
  run unusedStates_run.
  unfold MapAbstract.unusedStates at 1. cbn [MapAbstract.used_states].
  rewrite Hfull. rewrite bool_decide_eq_false_2 by (intros [? ?]; discriminate).
  erewrite bind_inr by reflexivity.
  run unusedStates_run.
  unfold MapAbstract.unusedStates at 1. cbn [MapAbstract.used_states].
  rewrite Hfull. rewrite bool_decide_eq_false_2 by (intros [? ?]; discriminate).
  erewrite bind_inr by reflexivity.
  reflexivity.
Qed.

Lemma initSlam_two_sensors size_map w start start' :
  MapAbstract.first_fit (replicate size_map false) size_robCV = Some start ->
  MapAbstract.first_fit
    (MapAbstract.mark_used start size_robCV (replicate size_map false))
    size_senPH = Some start' ->
  let mp := length (maps w) in
  let rp := length (robs w) in
  let sp := length (sens w) in
  let m4 :=
    {| MapAbstract.max_size := size_map;
       MapAbstract.used_states :=
         MapAbstract.mark_used start' size_senPH
           (MapAbstract.mark_used start size_robCV (replicate size_map false));
       MapAbstract.robotIds := {| IdPool.counter := 1; IdPool.released := [] |};
       MapAbstract.sensorIds := {| IdPool.counter := 2; IdPool.released := [] |};
       MapAbstract.landmarkIds := IdPool.init;
       MapAbstract.robots := {[1 := rp]};
       MapAbstract.landmarks := ∅ |} in
  let r4 :=
    {| RobotAbstract.id := 1; RobotAbstract.name := "SUBMARINE";
       RobotAbstract.state := seq start size_robCV;
       RobotAbstract.slamMap := Some mp;
       RobotAbstract.sensors := <[2 := S sp]> {[1 := sp]} |} in
  let flea :=
    {| SensorAbstract.id := 1; SensorAbstract.name := "FLEA";
       SensorAbstract.isInMap := false; SensorAbstract.state := [];
       SensorAbstract.robot := Some rp; SensorAbstract.observations := ∅ |} in
  let marlin :=
    {| SensorAbstract.id := 2; SensorAbstract.name := "MARLIN";
       SensorAbstract.isInMap := true;
       SensorAbstract.state := seq start' size_senPH;
       SensorAbstract.robot := Some rp; SensorAbstract.observations := ∅ |} in
  initSlam size_robCV size_senPH size_map w =
    ({| maps := maps w ++ [m4]; robs := robs w ++ [r4];
        sens := sens w ++ [flea; marlin]; lmks := lmks w; obss := obss w |},
     inr mp).
Proof.
  intros Hfit Hfit' mp rp sp m4 r4 flea marlin.
  unfold initSlam, new_MapAbstract.
  erewrite bind_inr by reflexivity.
  run unusedStates_run.
  replace (MapAbstract.unusedStates (MapAbstract.init size_map) size_robCV)
    with true
    by (symmetry; apply bool_decide_eq_true; eexists; exact Hfit).
  erewrite bind_inr; [reflexivity|].
  erewrite bind_inr by apply (initSlam_robot_run size_map w start Hfit).
  run unusedStates_run.
  unfold MapAbstract.unusedStates at 1. cbn [MapAbstract.used_states].
  rewrite Hfit'. rewrite bool_decide_eq_true_2 by (eexists; reflexivity).
  erewrite bind_inr; cycle 1.
  { erewrite bind_inr; [reflexivity|].
    eapply (newSensor_run size_senPH _ _ "FLEA" false);
      [solve_lookup|reflexivity|solve_lookup|split; reflexivity]. }
  store_norm.
  run unusedStates_run.
  unfold MapAbstract.unusedStates at 1.
  cbn [MapAbstract.used_states MapAbstract.set_used_states].
  rewrite Hfit'. rewrite bool_decide_eq_true_2 by (eexists; reflexivity).
  erewrite bind_inr; cycle 1.
  { erewrite bind_inr; [reflexivity|].
    eapply (newSensor_run size_senPH _ _ "MARLIN" true);
      [solve_lookup|reflexivity|solve_lookup|].
    exists start'. split; [exact Hfit'|]. split; reflexivity. }
  store_norm. rewrite <- app_assoc, length_app, Nat.add_1_r. reflexivity.
Qed.
End InitSlamShapes.

Section InitSlamOutcome.

(** X6: [initSlam] (lines 182-218) never stops with an exception: every
    creation is behind the probe [unusedStates], and it returns the
    pointer to the fresh map, one more map in the store and no landmark
    or observation made.  The store it leaves has one of three shapes:
    the map alone, when the arena has no room for the robot; the map
    and the robot [SUBMARINE] without any sensor, when after the robot
    there is no room for the states of a sensor, and then [FLEA] is not
    created either, although it takes no state; or the robot with the
    two sensors [FLEA] and [MARLIN], under distinct ids in its mapping
    and pointing back at it.  A store with exactly one of the two
    sensors does not arise: [FLEA] leaves the arena as it was, so the
    second probe answers as the first. *)
Theorem initSlam_three_shapes :
  forall size_robCV size_senPH size_map w,
    let res := initSlam size_robCV size_senPH size_map w in
    let mp := length (maps w) in
    let rp := length (robs w) in
    let sp := length (sens w) in
    res.2 = inr mp /\
    length (maps res.1) = S mp /\ lmks res.1 = lmks w /\ obss res.1 = obss w /\
    ((MapAbstract.unusedStates (MapAbstract.init size_map) size_robCV = false /\
      robs res.1 = robs w /\ sens res.1 = sens w)
     \/
     (exists r m,
         robs res.1 = robs w ++ [r] /\ maps res.1 !! mp = Some m /\
         RobotAbstract.name r = "SUBMARINE" /\
         length (RobotAbstract.state r) = size_robCV /\
         RobotAbstract.slamMap r = Some mp /\
         MapAbstract.robots m !! RobotAbstract.id r = Some rp /\
         ((MapAbstract.unusedStates m size_senPH = false /\
           sens res.1 = sens w /\ RobotAbstract.sensors r = ∅)
          \/
          (exists flea marlin,
              sens res.1 = sens w ++ [flea; marlin] /\
              SensorAbstract.name flea = "FLEA" /\
              SensorAbstract.isInMap flea = false /\
              SensorAbstract.state flea = [] /\
              SensorAbstract.name marlin = "MARLIN" /\
              SensorAbstract.isInMap marlin = true /\
              length (SensorAbstract.state marlin) = size_senPH /\
              SensorAbstract.id flea <> SensorAbstract.id marlin /\
              RobotAbstract.sensors r !! SensorAbstract.id flea = Some sp /\
              RobotAbstract.sensors r !! SensorAbstract.id marlin = Some (S sp) /\
              SensorAbstract.robot flea = Some rp /\
              SensorAbstract.robot marlin = Some rp)))).
Proof.
  intros size_robCV size_senPH size_map w res mp rp sp. subst res.
  destruct (MapAbstract.first_fit (replicate size_map false) size_robCV)
    as [start|] eqn:Hfit.
  - destruct (MapAbstract.first_fit
                (MapAbstract.mark_used start size_robCV (replicate size_map false))
                size_senPH) as [start'|] eqn:Hfit'.
    + rewrite (initSlam_two_sensors size_robCV size_senPH size_map w start start'
                 Hfit Hfit').
      cbn [fst snd maps robs sens lmks obss].
      split; [reflexivity|].
      split; [rewrite length_app, Nat.add_1_r; reflexivity|].
      split; [reflexivity|]. split; [reflexivity|].
      right. eexists _, _.
      split; [reflexivity|]. split; [apply lookup_snoc_new|].
      split; [reflexivity|]. split; [apply length_seq|].
      split; [reflexivity|]. split; [apply lookup_insert_eq|].
      right. eexists _, _.
      split; [reflexivity|]. cbn.
      repeat (split; [reflexivity|]).
      split; [apply length_seq|]. split; [discriminate|].
      split; [reflexivity|]. split; [reflexivity|]. split; reflexivity.
    + rewrite (initSlam_robot_alone size_robCV size_senPH size_map w start
                 Hfit Hfit').
      rewrite (initSlam_robot_run size_robCV size_map w start Hfit).
      cbn [fst snd maps robs sens lmks obss].
      split; [reflexivity|].
      split; [rewrite length_app, Nat.add_1_r; reflexivity|].
      split; [reflexivity|]. split; [reflexivity|].
      right. eexists _, _.
      split; [reflexivity|]. split; [apply lookup_snoc_new|].
      split; [reflexivity|]. split; [apply length_seq|].
      split; [reflexivity|]. split; [apply lookup_insert_eq|].
      left. split; [|split; reflexivity].
      unfold MapAbstract.unusedStates. cbn [MapAbstract.used_states].
      rewrite Hfit'. apply bool_decide_eq_false_2. intros [? ?]. discriminate.
  - assert (Hroom : MapAbstract.unusedStates (MapAbstract.init size_map) size_robCV
                    = false).
    { unfold MapAbstract.unusedStates. cbn [MapAbstract.used_states MapAbstract.init].
      rewrite Hfit. apply bool_decide_eq_false_2. intros [? ?]. discriminate. }
    rewrite (initSlam_no_robot size_robCV size_senPH size_map w Hroom).
    cbn [fst snd maps robs sens lmks obss set_maps].
    split; [reflexivity|].
    split; [rewrite length_app, Nat.add_1_r; reflexivity|].
    split; [reflexivity|]. split; [reflexivity|].
    left. split; [exact Hroom|]. split; reflexivity.
Qed.
End InitSlamOutcome.

(** ** How the constructions stop *)

Section Failures.

(** X7: when [newSensor] (lines 125-136) stops with an exception, no
    sensor has been made and the robot is as before: the tables of
    robots, sensors, landmarks and observations are those before the
    call.  After a null pointer the whole store is unchanged.  Lack of
    room stops the call only for a sensor with [isInMap] set, on a map
    where the probe [unusedStates] answers no, and then the sensor id
    drawn at line 128, before the constructor runs at line 129, stays
    consumed: the map differs from the one before by its pool of
    sensor ids. *)
Theorem newSensor_failure_makes_no_sensor :
  forall (size_senPH : nat) (w : World) (rp : ptr) (name : string)
         (isInMap : bool) (w' : World) (e : Exc),
    newSensor size_senPH rp name isInMap w = (w', inl e) ->
    robs w' = robs w /\ sens w' = sens w /\ lmks w' = lmks w /\ obss w' = obss w /\
    match e with
    | NullPointer => w' = w
    | CapacityExceeded =>
        isInMap = true /\
        exists r mp m,
          robs w !! rp = Some r /\ RobotAbstract.slamMap r = Some mp /\
          maps w !! mp = Some m /\
          MapAbstract.unusedStates m size_senPH = false /\
          maps w' =
            <[mp := MapAbstract.set_sensorIds
                      (IdPool.getId (MapAbstract.sensorIds m)).2 m]> (maps w)
    end.
Proof.
  intros size_senPH w rp name isInMap w' e Hrun.
  destruct (robs w !! rp) as [r|] eqn:Hr.
  2:{ rewrite (newSensor_null_robot size_senPH w rp name isInMap Hr) in Hrun.
      injection Hrun as <- <-. repeat split. }
  destruct (RobotAbstract.slamMap r) as [mp|] eqn:Hmp.
  2:{ rewrite (newSensor_null_map size_senPH w rp name isInMap r Hr) in Hrun
        by (rewrite Hmp; exact I).
      injection Hrun as <- <-. repeat split. }
  destruct (maps w !! mp) as [m|] eqn:Hm.
  2:{ rewrite (newSensor_null_map size_senPH w rp name isInMap r Hr) in Hrun
        by (rewrite Hmp; exact Hm).
      injection Hrun as <- <-. repeat split. }
  destruct isInMap.
  - destruct (MapAbstract.first_fit (MapAbstract.used_states m) size_senPH)
      as [start|] eqn:Hfit.
    + rewrite (newSensor_run size_senPH w rp name true r mp m
                 (seq start size_senPH)
                 (MapAbstract.mark_used start size_senPH (MapAbstract.used_states m))
                 Hr Hmp Hm) in Hrun
        by (exists start; repeat split; exact Hfit).
      discriminate.
    + rewrite (newSensor_full size_senPH w rp name r mp m Hr Hmp Hm Hfit) in Hrun.
      injection Hrun as <- <-. cbn [set_maps maps robs sens lmks obss].
      repeat split. exists r, mp, m. repeat split; try assumption.
      unfold MapAbstract.unusedStates. rewrite Hfit.
      apply bool_decide_eq_false_2. intros [? ?]. discriminate.
  - rewrite (newSensor_run size_senPH w rp name false r mp m []
               (MapAbstract.used_states m) Hr Hmp Hm) in Hrun
      by (split; reflexivity).
    discriminate.
Qed.

Lemma newSensor_failure_makes_no_sensor_witness :
  let w := (initSlam 13 7 13 emptyWorld).1 in
  let w' := (newSensor 7 0 "MARLIN" true w).1 in
  newSensor 7 0 "MARLIN" true w = (w', inl CapacityExceeded) /\
  MapAbstract.sensorIds <$> maps w !! 0 = Some IdPool.init /\
  MapAbstract.sensorIds <$> maps w' !! 0 =
    Some {| IdPool.counter := 1; IdPool.released := [] |} /\
  robs w' = robs w /\ sens w' = sens w /\ lmks w' = lmks w /\ obss w' = obss w /\
  true = true /\
  exists r mp m,
    robs w !! 0 = Some r /\ RobotAbstract.slamMap r = Some mp /\
    maps w !! mp = Some m /\
    MapAbstract.unusedStates m 7 = false /\
    maps w' =
      <[mp := MapAbstract.set_sensorIds
                (IdPool.getId (MapAbstract.sensorIds m)).2 m]> (maps w).
Proof.
  intros w w'.
  assert (newSensor 7 0 "MARLIN" true w = (w', inl CapacityExceeded)) as E
    by (vm_compute; reflexivity).
  split; [exact E|].
  split; [vm_compute; reflexivity|]. split; [vm_compute; reflexivity|].
  exact (newSensor_failure_makes_no_sensor 7 w 0 "MARLIN" true w' CapacityExceeded E).
Defined.
End Failures.

(** ** A landmark on a store whose links are in order *)

Section LandmarkOnLinkedStore.
Variable size_lmkAHP : nat.

Lemma registered_sensors_frame w w' mp :
  robs w' = robs w ->
  MapAbstract.robots <$> maps w' !! mp = MapAbstract.robots <$> maps w !! mp ->
  registered_sensors w' mp = registered_sensors w mp.
Proof.
  intros Hr Hm. unfold registered_sensors. rewrite Hr.
  destruct (maps w' !! mp) as [m'|], (maps w !! mp) as [m|];
    simpl in Hm; try discriminate; [|reflexivity].
  injection Hm as ->. reflexivity.
Qed.

(** [newLandmark] on a map with room, in a store whose links are in
    order: what it returns and what it leaves. *)
Lemma newLandmark_linked_run w mp m start :
  links_ok w ->
  maps w !! mp = Some m ->
  MapAbstract.first_fit (MapAbstract.used_states m) size_lmkAHP = Some start ->
  exists w',
    newLandmark size_lmkAHP mp w = (w', inr (length (lmks w))) /\
    obss w' =
      obss w ++ ((fun sp => fresh_obs sp (length (lmks w))) <$> registered_sensors w mp) /\
    robs w' = robs w /\
    length (sens w') = length (sens w) /\
    length (lmks w') = S (length (lmks w)) /\
    registered_sensors w' mp = registered_sensors w mp.
Proof.
  intros (H1 & _ & H3 & _) Hm Hfit.
  rewrite (newLandmark_run size_lmkAHP w mp m start Hm Hfit).
  match goal with |- context [bind _ _ ?w0] => set (wl := w0) end.
  destruct (observe_robots (length (lmks w))
              (std_map_items (MapAbstract.robots m)) wl)
    as (w' & E & Ho & HM & HR & HS & HL).
  { intros rit Hin. apply elem_of_std_map_items in Hin.
    destruct (H1 mp m rit.1 rit.2 Hm Hin) as (r & Er & _).
    exists r. split; [exact Er|].
    intros it Hit. apply elem_of_std_map_items in Hit.
    destruct (H3 rit.2 r it.1 it.2 Er Hit) as (s & Es & _).
    eapply lookup_lt_Some, Es. }
  { subst wl. cbn [lmks]. rewrite length_app. simpl. lia. }
  exists w'. split.
  { erewrite bind_inr; [reflexivity|].
    unfold observe_from_every_sensor.
    erewrite bind_inr
      by (apply deref_map_Some; subst wl; cbn [maps];
          eapply lookup_insert_same, Hm).
    exact E. }
  split; [rewrite Ho; unfold registered_sensors; rewrite Hm; reflexivity|].
  split; [rewrite HR; reflexivity|].
  split; [rewrite HS; reflexivity|].
  split; [rewrite HL; subst wl; cbn [lmks]; rewrite length_app, Nat.add_1_r; reflexivity|].
  apply registered_sensors_frame; [rewrite HR; reflexivity|].
  rewrite HM. subst wl. cbn [maps].
  rewrite (lookup_insert_same _ _ _ _ Hm), Hm. reflexivity.
Qed.

End LandmarkOnLinkedStore.

Section LandmarkFanOut.

(** X8: [newLandmark] (lines 158-180) in a store whose links are in
    order.  On a pointer that holds no map it stops and the store is
    unchanged.  On a map where the probe [unusedStates] answers yes it
    returns the landmark, the new last object of its table, and the two
    loops of lines 171-177 have made exactly one observation for each
    sensor of each robot of the map, in the order of the loops, each
    pointing back at its sensor and at the new landmark; robots are
    untouched, no sensor is made, and the sensors that a next call will
    visit are the same.  On a map where the probe answers no it stops
    with [CapacityExceeded] before any landmark or observation is
    made. *)
Theorem newLandmark_observes_from_every_sensor :
  forall (size_lmkAHP : nat) (w : World) (mp : ptr),
    links_ok w ->
    let res := newLandmark size_lmkAHP mp w in
    match maps w !! mp with
    | None => res = (w, inl NullPointer)
    | Some m =>
        if MapAbstract.unusedStates m size_lmkAHP then
          res.2 = inr (length (lmks w)) /\
          length (lmks res.1) = S (length (lmks w)) /\
          obss res.1 =
            obss w ++
            ((fun sp => fresh_obs sp (length (lmks w))) <$> registered_sensors w mp) /\
          robs res.1 = robs w /\
          length (sens res.1) = length (sens w) /\
          registered_sensors res.1 mp = registered_sensors w mp
        else
          res.2 = inl CapacityExceeded /\
          robs res.1 = robs w /\ sens res.1 = sens w /\
          lmks res.1 = lmks w /\ obss res.1 = obss w
    end.
Proof.
  intros size_lmkAHP w mp Hl res. subst res.
  destruct (maps w !! mp) as [m|] eqn:Hm.
  - destruct (MapAbstract.unusedStates m size_lmkAHP) eqn:Hroom.
    + destruct (unusedStates_first_fit m size_lmkAHP Hroom) as [start Hfit].
      destruct (newLandmark_linked_run size_lmkAHP w mp m start Hl Hm Hfit)
        as (w' & E & Ho & HR & HS & HL & Hreg).
      rewrite E. cbn [fst snd]. repeat split; assumption.
    + rewrite (newLandmark_full size_lmkAHP w mp m Hm
                 (unusedStates_None m size_lmkAHP Hroom)).
      repeat split.
  - apply newLandmark_null, Hm.
Qed.

Lemma newLandmark_observes_from_every_sensor_witness :
  links_ok test_store /\
  registered_sensors test_store 0 = [0; 1] /\
  (newLandmark 7 0 test_store).2 = inr 0 /\
  length (lmks (newLandmark 7 0 test_store).1) = 1 /\
  obss (newLandmark 7 0 test_store).1 = [fresh_obs 0 0; fresh_obs 1 0] /\
  registered_sensors (newLandmark 7 0 test_store).1 0 = [0; 1].
Proof.
  assert (links_ok test_store) as Hl
    by (apply (initSlam_links 13 7 300 emptyWorld), links_ok_empty).
  assert (registered_sensors test_store 0 = [0; 1]) as Hreg
    by (vm_compute; reflexivity).
  split; [exact Hl|]. split; [exact Hreg|].
  pose proof (newLandmark_observes_from_every_sensor 7 test_store 0 Hl) as H.
  cbv zeta in H.
  remember (maps test_store !! 0) as o eqn:Eo. vm_compute in Eo. subst o.
  cbv beta iota in H.
  match type of H with
  | if ?b then _ else _ => replace b with true in H by (vm_compute; reflexivity)
  end.
  destruct H as (H1 & H2 & H3 & _ & _ & H6).
  rewrite Hreg in H3, H6.
  split; [exact H1|]. split; [exact H2|]. split; [exact H3|exact H6].
Defined.


End LandmarkFanOut.

(** ** The observation mappings keep the latest observation only *)

Section LatestObservation.

Lemma insert_zero_only (m : gmap nat ptr) (v : ptr) :
  (forall k y, m !! k = Some y -> k = 0) -> <[0 := v]> m = {[0 := v]}.
Proof.
  intros H. apply map_eq. intros k.
  destruct (decide (k = 0)) as [->|Hne].
  - rewrite lookup_insert_eq, lookup_singleton_eq. reflexivity.
  - rewrite lookup_insert_ne, lookup_singleton_ne by congruence.
    destruct (m !! k) as [y|] eqn:E; [|reflexivity].
    exfalso. apply Hne. exact (H k y E).
Qed.

(** X10: in every store that a sequence of calls of the constructions
    builds, [newObservation] (lines 143-152) returns exactly when both
    of its pointers hold an object, and otherwise stops on the null
    pointer; it never fails for lack of room.  When it returns, the
    observation mapping of the sensor and that of the landmark hold the
    new observation and nothing else: the observation that either
    mapping held before is no longer in it, since the id assigned at
    line 145, under which both mappings file the observation, is the
    same for all. *)
Theorem newObservation_keeps_only_the_latest :
  forall (size_robCV size_senPH size_lmkAHP : nat) (cs : list Call)
         (sp lp : ptr),
    let w := exec_all size_robCV size_senPH size_lmkAHP cs emptyWorld in
    let res := newObservation sp lp w in
    (res.2 = inr (length (obss w)) \/ res.2 = inl NullPointer) /\
    (res.2 = inr (length (obss w)) <->
       sp < length (sens w) /\ lp < length (lmks w)) /\
    (res.2 = inr (length (obss w)) ->
       exists s' l',
         sens res.1 !! sp = Some s' /\ lmks res.1 !! lp = Some l' /\
         SensorAbstract.observations s' = {[0 := length (obss w)]} /\
         LandmarkAbstract.observations l' = {[0 := length (obss w)]}).
Proof.
  intros size_robCV size_senPH size_lmkAHP cs sp lp w res.
  destruct (exec_all_keys size_robCV size_senPH size_lmkAHP cs emptyWorld
              observation_keys_zero_empty) as [Hks Hkl].
  fold w in Hks, Hkl. subst res.
  destruct (sens w !! sp) as [s|] eqn:Hs;
    [destruct (lmks w !! lp) as [l|] eqn:Hl|].
  - rewrite (newObservation_run w sp lp s l Hs Hl). cbn [fst snd sens lmks].
    split; [left; reflexivity|]. split.
    + split; [|reflexivity]. intros _.
      split; eapply lookup_lt_Some; eassumption.
    + intros _. eexists _, _.
      split; [eapply lookup_insert_same, Hs|].
      split; [eapply lookup_insert_same, Hl|].
      cbn [SensorAbstract.observations SensorAbstract.set_observations
           LandmarkAbstract.observations LandmarkAbstract.set_observations].
      split; apply insert_zero_only.
      * intros k y Hk. exact (Hks sp s k y Hs Hk).
      * intros k y Hk. exact (Hkl lp l k y Hl Hk).
  - rewrite (newObservation_null_landmark w sp lp s Hs Hl). cbn [fst snd].
    split; [right; reflexivity|]. split; [|discriminate].
    split; [discriminate|]. intros [_ Hlt].
    apply lookup_ge_None in Hl. lia.
  - rewrite (newObservation_null_sensor w sp lp Hs). cbn [fst snd].
    split; [right; reflexivity|]. split; [|discriminate].
    split; [discriminate|]. intros [Hlt _].
    apply lookup_ge_None in Hs. lia.
Qed.

Lemma newObservation_keeps_only_the_latest_witness :
  let w := exec_all 13 7 7 [CallInitSlam 300; CallNewLandmark 0] emptyWorld in
  SensorAbstract.observations <$> sens w !! 0 = Some {[0 := 0]} /\
  LandmarkAbstract.observations <$> lmks w !! 0 = Some {[0 := 1]} /\
  (newObservation 0 0 w).2 = inr 2 /\
  exists s' l',
    sens (newObservation 0 0 w).1 !! 0 = Some s' /\
    lmks (newObservation 0 0 w).1 !! 0 = Some l' /\
    SensorAbstract.observations s' = {[0 := 2]} /\
    LandmarkAbstract.observations l' = {[0 := 2]}.
Proof.
  intros w.
  assert ((newObservation 0 0 w).2 = inr 2) as E by (vm_compute; reflexivity).
  split; [vm_compute; reflexivity|]. split; [vm_compute; reflexivity|].
  split; [exact E|].
  exact (proj2 (proj2 (newObservation_keeps_only_the_latest 13 7 7
                         [CallInitSlam 300; CallNewLandmark 0] 0 0)) E).
Defined.
End LatestObservation.

(** ** Robots, sensors and landmarks stay registered *)

Section Registered.
Variables size_robCV size_senPH size_lmkAHP : nat.

Lemma getId_fresh p :
  IdPool.released p = [] ->
  IdPool.getId p =
    (S (IdPool.counter p),
     {| IdPool.counter := S (IdPool.counter p); IdPool.released := [] |}).
Proof. intros H. unfold IdPool.getId. rewrite H. reflexivity. Qed.

Lemma pool_above_next p m v :
  pool_above p m -> pool_above (IdPool.getId p).2 (<[(IdPool.getId p).1 := v]> m).
Proof.
  intros [Hr Hk]. rewrite (getId_fresh p Hr). cbn [fst snd].
  split; [reflexivity|]. intros k y Hl. cbn [IdPool.counter].
  apply lookup_insert_Some in Hl as [[<- _]|[_ Hl]]; [lia|].
  apply Hk in Hl. lia.
Qed.

Lemma pool_above_skip p m : pool_above p m -> pool_above (IdPool.getId p).2 m.
Proof.
  intros [Hr Hk]. rewrite (getId_fresh p Hr). cbn [fst snd].
  split; [reflexivity|]. intros k y Hl. cbn [IdPool.counter].
  apply Hk in Hl. lia.
Qed.

Lemma pool_above_new_key p m v :
  pool_above p m -> m ⊆ <[(IdPool.getId p).1 := v]> m.
Proof.
  intros [Hr Hk]. rewrite (getId_fresh p Hr). cbn [fst].
  apply insert_subseteq.
  destruct (m !! S (IdPool.counter p)) as [y|] eqn:E; [|reflexivity].
  apply Hk in E. lia.
Qed.

Lemma registered_map_update w mp m m' :
  registered w -> maps w !! mp = Some m ->
  pool_above (MapAbstract.robotIds m') (MapAbstract.robots m') ->
  pool_above (MapAbstract.landmarkIds m') (MapAbstract.landmarks m') ->
  IdPool.released (MapAbstract.sensorIds m') = [] ->
  MapAbstract.robots m ⊆ MapAbstract.robots m' ->
  MapAbstract.landmarks m ⊆ MapAbstract.landmarks m' ->
  IdPool.counter (MapAbstract.sensorIds m) <= IdPool.counter (MapAbstract.sensorIds m') ->
  registered (set_maps (fun l => <[mp := m']> l) w).
Proof.
  intros (Hmaps & Hrobs & Hsens & Hlmks) Hm Hpr Hpl Hps Hsr Hsl Hc.
  unfold registered. cbn [set_maps maps robs sens lmks].
  split; [|split; [|split]].
  - intros mq mm Hq. apply list_lookup_insert_Some in Hq as [(<- & <- & _)|[_ Hq]].
    + repeat split; assumption || apply Hpr || apply Hpl.
    + exact (Hmaps mq mm Hq).
  - intros rp r Hr. destruct (Hrobs rp r Hr) as (mq & mm & Hs & Hq & Hreg & Hk).
    destruct (decide (mq = mp)) as [->|Hne].
    + assert (mm = m) as -> by congruence.
      exists mp, m'. split; [exact Hs|].
      split; [eapply lookup_insert_same, Hm|].
      split; [eapply lookup_weaken; eassumption|].
      intros k y Hl. apply Hk in Hl. lia.
    + exists mq, mm. split; [exact Hs|].
      split; [rewrite list_lookup_insert_ne by congruence; exact Hq|].
      split; assumption.
  - exact Hsens.
  - intros lp l Hl. destruct (Hlmks lp l Hl) as (mq & mm & Hs & Hq & Hreg).
    destruct (decide (mq = mp)) as [->|Hne].
    + assert (mm = m) as -> by congruence.
      exists mp, m'. split; [exact Hs|].
      split; [eapply lookup_insert_same, Hm|].
      eapply lookup_weaken; eassumption.
    + exists mq, mm. split; [exact Hs|].
      split; [rewrite list_lookup_insert_ne by congruence; exact Hq|exact Hreg].
Qed.

Lemma registered_alloc_map w m :
  registered w ->
  pool_above (MapAbstract.robotIds m) (MapAbstract.robots m) ->
  pool_above (MapAbstract.landmarkIds m) (MapAbstract.landmarks m) ->
  IdPool.released (MapAbstract.sensorIds m) = [] ->
  registered (set_maps (fun l => l ++ [m]) w).
Proof.
  intros (Hmaps & Hrobs & Hsens & Hlmks) Hpr Hpl Hps.
  unfold registered. cbn [set_maps maps robs sens lmks].
  split; [|split; [|split]].
  - intros mq mm Hq. apply lookup_app_Some in Hq as [Hq|[_ Hq]].
    + exact (Hmaps mq mm Hq).
    + apply list_lookup_singleton_Some in Hq as [_ <-]. repeat split; assumption || apply Hpr || apply Hpl.
  - intros rp r Hr. destruct (Hrobs rp r Hr) as (mq & mm & Hs & Hq & Hreg & Hk).
    exists mq, mm. split; [exact Hs|].
    split; [apply lookup_app_l_Some, Hq|]. split; assumption.
  - exact Hsens.
  - intros lp l Hl. destruct (Hlmks lp l Hl) as (mq & mm & Hs & Hq & Hreg).
    exists mq, mm. split; [exact Hs|].
    split; [apply lookup_app_l_Some, Hq|exact Hreg].
Qed.

Lemma registered_alloc_rob w r :
  registered w ->
  (exists mp m,
      RobotAbstract.slamMap r = Some mp /\ maps w !! mp = Some m /\
      MapAbstract.robots m !! RobotAbstract.id r = Some (length (robs w)) /\
      forall k y, RobotAbstract.sensors r !! k = Some y ->
                  k <= IdPool.counter (MapAbstract.sensorIds m)) ->
  registered (set_robs (fun l => l ++ [r]) w).
Proof.
  intros (Hmaps & Hrobs & Hsens & Hlmks) Hnew.
  unfold registered. cbn [set_robs maps robs sens lmks].
  split; [exact Hmaps|]. split; [|split; [|exact Hlmks]].
  - intros rp r0 Hr. apply lookup_app_Some in Hr as [Hr|[Hge Hr]].
    + exact (Hrobs rp r0 Hr).
    + apply list_lookup_singleton_Some in Hr as [Hi <-].
      replace rp with (length (robs w)) by lia. exact Hnew.
  - intros sp s Hs. destruct (Hsens sp s Hs) as (rp & r0 & Hb & Hr & Hreg).
    exists rp, r0. split; [exact Hb|].
    split; [apply lookup_app_l_Some, Hr|exact Hreg].
Qed.

Lemma registered_rob_update w rp r r' :
  registered w -> robs w !! rp = Some r ->
  RobotAbstract.slamMap r' = RobotAbstract.slamMap r ->
  RobotAbstract.id r' = RobotAbstract.id r ->
  RobotAbstract.sensors r ⊆ RobotAbstract.sensors r' ->
  (forall mp m, RobotAbstract.slamMap r = Some mp -> maps w !! mp = Some m ->
     forall k y, RobotAbstract.sensors r' !! k = Some y ->
                 k <= IdPool.counter (MapAbstract.sensorIds m)) ->
  registered (set_robs (fun l => <[rp := r']> l) w).
Proof.
  intros (Hmaps & Hrobs & Hsens & Hlmks) Hr Hsm Hid Hsub Hkeys.
  unfold registered. cbn [set_robs maps robs sens lmks].
  split; [exact Hmaps|]. split; [|split; [|exact Hlmks]].
  - intros rq r0 Hq. apply list_lookup_insert_Some in Hq as [(<- & <- & _)|[_ Hq]].
    + destruct (Hrobs rp r Hr) as (mq & mm & Hs & Hm & Hreg & Hk).
      exists mq, mm. rewrite Hsm, Hid. split; [exact Hs|]. split; [exact Hm|].
      split; [exact Hreg|]. exact (Hkeys mq mm Hs Hm).
    + exact (Hrobs rq r0 Hq).
  - intros sp s Hs. destruct (Hsens sp s Hs) as (rq & r0 & Hb & Hq & Hreg).
    destruct (decide (rq = rp)) as [->|Hne].
    + assert (r0 = r) as -> by congruence.
      exists rp, r'. split; [exact Hb|].
      split; [eapply lookup_insert_same, Hr|].
      eapply lookup_weaken; eassumption.
    + exists rq, r0. split; [exact Hb|].
      split; [rewrite list_lookup_insert_ne by congruence; exact Hq|exact Hreg].
Qed.

Lemma registered_alloc_sen w s :
  registered w ->
  (exists rp r,
      SensorAbstract.robot s = Some rp /\ robs w !! rp = Some r /\
      RobotAbstract.sensors r !! SensorAbstract.id s = Some (length (sens w))) ->
  registered (set_sens (fun l => l ++ [s]) w).
Proof.
  intros (Hmaps & Hrobs & Hsens & Hlmks) Hnew.
  unfold registered. cbn [set_sens maps robs sens lmks].
  split; [exact Hmaps|]. split; [exact Hrobs|]. split; [|exact Hlmks].
  intros sp s0 Hs. apply lookup_app_Some in Hs as [Hs|[Hge Hs]].
  - exact (Hsens sp s0 Hs).
  - apply list_lookup_singleton_Some in Hs as [Hi <-].
    replace sp with (length (sens w)) by lia. exact Hnew.
Qed.

Lemma registered_sen_update w sp s s' :
  registered w -> sens w !! sp = Some s ->
  SensorAbstract.robot s' = SensorAbstract.robot s ->
  SensorAbstract.id s' = SensorAbstract.id s ->
  registered (set_sens (fun l => <[sp := s']> l) w).
Proof.
  intros (Hmaps & Hrobs & Hsens & Hlmks) Hs Hb Hid.
  unfold registered. cbn [set_sens maps robs sens lmks].
  split; [exact Hmaps|]. split; [exact Hrobs|]. split; [|exact Hlmks].
  intros sq s0 Hq. apply list_lookup_insert_Some in Hq as [(<- & <- & _)|[_ Hq]].
  - rewrite Hb, Hid. exact (Hsens sp s Hs).
  - exact (Hsens sq s0 Hq).
Qed.

Lemma registered_alloc_lmk w l :
  registered w ->
  (exists mp m,
      LandmarkAbstract.slamMap l = Some mp /\ maps w !! mp = Some m /\
      MapAbstract.landmarks m !! LandmarkAbstract.id l = Some (length (lmks w))) ->
  registered (set_lmks (fun t => t ++ [l]) w).
Proof.
  intros (Hmaps & Hrobs & Hsens & Hlmks) Hnew.
  unfold registered. cbn [set_lmks maps robs sens lmks].
  split; [exact Hmaps|]. split; [exact Hrobs|]. split; [exact Hsens|].
  intros lp l0 Hl. apply lookup_app_Some in Hl as [Hl|[Hge Hl]].
  - exact (Hlmks lp l0 Hl).
  - apply list_lookup_singleton_Some in Hl as [Hi <-].
    replace lp with (length (lmks w)) by lia. exact Hnew.
Qed.

Lemma registered_lmk_update w lp l l' :
  registered w -> lmks w !! lp = Some l ->
  LandmarkAbstract.slamMap l' = LandmarkAbstract.slamMap l ->
  LandmarkAbstract.id l' = LandmarkAbstract.id l ->
  registered (set_lmks (fun t => <[lp := l']> t) w).
Proof.
  intros (Hmaps & Hrobs & Hsens & Hlmks) Hl Hb Hid.
  unfold registered. cbn [set_lmks maps robs sens lmks].
  split; [exact Hmaps|]. split; [exact Hrobs|]. split; [exact Hsens|].
  intros lq l0 Hq. apply list_lookup_insert_Some in Hq as [(<- & <- & _)|[_ Hq]].
  - rewrite Hb, Hid. exact (Hlmks lp l Hl).
  - exact (Hlmks lq l0 Hq).
Qed.

Ltac fields_simpl :=
  cbn [MapAbstract.max_size MapAbstract.used_states MapAbstract.robotIds
       MapAbstract.sensorIds MapAbstract.landmarkIds MapAbstract.robots
       MapAbstract.landmarks MapAbstract.set_used_states MapAbstract.set_robotIds
       MapAbstract.set_sensorIds MapAbstract.set_landmarkIds MapAbstract.set_robots
       MapAbstract.set_landmarks
       RobotAbstract.id RobotAbstract.name RobotAbstract.state RobotAbstract.slamMap
       RobotAbstract.sensors RobotAbstract.set_sensors
       SensorAbstract.id SensorAbstract.name SensorAbstract.isInMap
       SensorAbstract.state SensorAbstract.robot SensorAbstract.observations
       SensorAbstract.set_observations
       LandmarkAbstract.id LandmarkAbstract.name LandmarkAbstract.state
       LandmarkAbstract.slamMap LandmarkAbstract.observations
       LandmarkAbstract.set_observations
       set_maps set_robs set_sens set_lmks set_obss maps robs sens lmks obss
       fst snd].

Lemma newRobot_registered mp name :
  preserves registered (newRobot size_robCV mp name).
Proof.
  intros w H. pose proof H as (Hmaps & _).
  destruct (newRobot_cases size_robCV w mp name)
    as [E|[(m & Hm & E)|(m & start & Hm & Hfit)]].
  - rewrite E. exact H.
  - rewrite E. cbn [fst]. destruct (Hmaps mp m Hm) as (Hpr & Hpl & Hps).
    eapply registered_map_update; [exact H|exact Hm|..]; fields_simpl;
      [apply pool_above_skip, Hpr|exact Hpl|exact Hps|reflexivity..].
  - rewrite (newRobot_run size_robCV w mp name m start Hm Hfit). cbn [fst].
    destruct (Hmaps mp m Hm) as (Hpr & Hpl & Hps).
    match goal with
    | |- registered {| maps := <[mp := ?m']> _; robs := _ ++ [?r'] |} =>
        change (registered (set_robs (fun l => l ++ [r'])
                              (set_maps (fun l => <[mp := m']> l) w)))
    end.
    apply registered_alloc_rob.
    + eapply registered_map_update; [exact H|exact Hm|..]; fields_simpl;
        [apply pool_above_next, Hpr|exact Hpl|exact Hps
        |apply pool_above_new_key, Hpr|reflexivity..].
    + eexists mp, _. fields_simpl.
      split; [reflexivity|]. split; [eapply lookup_insert_same, Hm|].
      fields_simpl. split; [apply lookup_insert_eq|].
      intros k y Hl. rewrite lookup_empty in Hl. discriminate.
Qed.

Lemma newSensor_registered rp name isInMap :
  preserves registered (newSensor size_senPH rp name isInMap).
Proof.
  intros w H. pose proof H as (Hmaps & Hrobs & _).
  destruct (newSensor_cases size_senPH w rp name isInMap)
    as [E|[(m & mp & Hm & E)|(r & mp & m & ia & mu & Hr & Hmp & Hm & Hia)]].
  - rewrite E. exact H.
  - rewrite E. cbn [fst]. destruct (Hmaps mp m Hm) as (Hpr & Hpl & Hps).
    eapply registered_map_update; [exact H|exact Hm|..]; fields_simpl;
      [exact Hpr|exact Hpl|rewrite (getId_fresh _ Hps); reflexivity
      |reflexivity|reflexivity|rewrite (getId_fresh _ Hps); cbn; lia].
  - rewrite (newSensor_run size_senPH w rp name isInMap r mp m ia mu Hr Hmp Hm Hia).
    cbn [fst].
    destruct (Hmaps mp m Hm) as (Hpr & Hpl & Hps).
    destruct (Hrobs rp r Hr) as (mq & mm & Hmq & Hmm & Hreg & Hk).
    assert (mq = mp) as -> by congruence. assert (mm = m) as -> by congruence.
    match goal with
    | |- registered {| maps := <[mp := ?m']> _; robs := <[rp := ?r']> _;
                       sens := _ ++ [?s'] |} =>
        change (registered
                  (set_sens (fun l => l ++ [s'])
                     (set_robs (fun l => <[rp := r']> l)
                        (set_maps (fun l => <[mp := m']> l) w))))
    end.
    apply registered_alloc_sen.
    + eapply registered_rob_update; [|exact Hr|reflexivity|reflexivity|..].
      * eapply registered_map_update; [exact H|exact Hm|..]; fields_simpl;
          [exact Hpr|exact Hpl|rewrite (getId_fresh _ Hps); reflexivity
          |reflexivity|reflexivity|rewrite (getId_fresh _ Hps); cbn; lia].
      * fields_simpl. rewrite (getId_fresh _ Hps). cbn [fst].
        apply insert_subseteq.
        destruct (RobotAbstract.sensors r !! S (IdPool.counter (MapAbstract.sensorIds m)))
          as [y|] eqn:Ey; [|reflexivity].
        apply Hk in Ey. lia.
      * intros mq mm Hq Hqm k y Hl. revert Hqm Hl. fields_simpl.
        rewrite (getId_fresh _ Hps). cbn [fst snd]. intros Hqm Hl.
        assert (mq = mp) as -> by congruence.
        rewrite (lookup_insert_same _ _ _ _ Hm) in Hqm. injection Hqm as <-.
        fields_simpl. cbn [IdPool.counter].
        apply lookup_insert_Some in Hl as [[<- _]|[_ Hl]]; [lia|].
        apply Hk in Hl. lia.
    + eexists rp, _. fields_simpl.
      split; [reflexivity|]. split; [eapply lookup_insert_same, Hr|].
      fields_simpl. apply lookup_insert_eq.
Qed.

Lemma newObservation_registered sp lp : preserves registered (newObservation sp lp).
Proof.
  intros w H.
  destruct (sens w !! sp) as [s|] eqn:Hs;
    [destruct (lmks w !! lp) as [l|] eqn:Hl|].
  - rewrite (newObservation_run w sp lp s l Hs Hl). cbn [fst].
    match goal with
    | |- registered {| sens := <[sp := ?s']> _; lmks := <[lp := ?l']> _ |} =>
        assert (registered
                  (set_lmks (fun t => <[lp := l']> t)
                     (set_sens (fun t => <[sp := s']> t) w))) as H'
    end.
    { eapply registered_lmk_update; [|exact Hl|reflexivity|reflexivity].
      eapply registered_sen_update; [exact H|exact Hs|reflexivity|reflexivity]. }
    exact H'.
  - rewrite (newObservation_null_landmark w sp lp s Hs Hl). cbn [fst].
    match goal with
    | |- registered {| sens := <[sp := ?s']> _ |} =>
        assert (registered (set_sens (fun t => <[sp := s']> t) w)) as H'
    end.
    { eapply registered_sen_update; [exact H|exact Hs|reflexivity|reflexivity]. }
    exact H'.
  - rewrite (newObservation_null_sensor w sp lp Hs). exact H.
Qed.

Lemma newLandmark_registered mp :
  preserves registered (newLandmark size_lmkAHP mp).
Proof.
  intros w H. pose proof H as (Hmaps & _).
  destruct (maps w !! mp) as [m|] eqn:Hm;
    [destruct (MapAbstract.first_fit (MapAbstract.used_states m) size_lmkAHP)
       as [start|] eqn:Hfit|].
  - rewrite (newLandmark_run size_lmkAHP w mp m start Hm Hfit).
    apply preserves_bind;
      [apply observe_from_every_sensor_preserves; intros sp;
       apply newObservation_registered
      |intros; apply preserves_ret|].
    destruct (Hmaps mp m Hm) as (Hpr & Hpl & Hps).
    match goal with
    | |- registered {| maps := <[mp := ?m']> _; lmks := _ ++ [?l'] |} =>
        change (registered (set_lmks (fun t => t ++ [l'])
                              (set_maps (fun t => <[mp := m']> t) w)))
    end.
    apply registered_alloc_lmk.
    + eapply registered_map_update; [exact H|exact Hm|..]; fields_simpl;
        [exact Hpr|apply pool_above_next, Hpl|exact Hps|reflexivity
        |apply pool_above_new_key, Hpl|reflexivity].
    + eexists mp, _. fields_simpl.
      split; [reflexivity|]. split; [eapply lookup_insert_same, Hm|].
      fields_simpl. apply lookup_insert_eq.
  - rewrite (newLandmark_full size_lmkAHP w mp m Hm Hfit). cbn [fst].
    destruct (Hmaps mp m Hm) as (Hpr & Hpl & Hps).
    eapply registered_map_update; [exact H|exact Hm|..]; fields_simpl;
      [exact Hpr|apply pool_above_skip, Hpl|exact Hps|reflexivity..].
  - rewrite (newLandmark_null size_lmkAHP w mp Hm). exact H.
Qed.

Lemma new_MapAbstract_registered size_map :
  preserves registered (new_MapAbstract size_map).
Proof.
  intros w H. unfold new_MapAbstract, alloc_map. cbn [fst].
  apply registered_alloc_map; [exact H|..]; cbn.
  - split; [reflexivity|]. intros k y Hl. rewrite lookup_empty in Hl. discriminate.
  - split; [reflexivity|]. intros k y Hl. rewrite lookup_empty in Hl. discriminate.
  - reflexivity.
Qed.

Lemma exec_registered c w :
  registered w -> registered (exec size_robCV size_senPH size_lmkAHP c w).
Proof.
  destruct c; simpl.
  - apply initSlam_preserves.
    + apply new_MapAbstract_registered.
    + apply newRobot_registered.
    + apply newSensor_registered.
  - apply newRobot_registered.
  - apply newSensor_registered.
  - apply newObservation_registered.
  - apply newLandmark_registered.
Qed.

Lemma exec_all_registered cs : forall w,
  registered w -> registered (exec_all size_robCV size_senPH size_lmkAHP cs w).
Proof.
  induction cs as [|c cs IH]; intros w H; simpl; [exact H|].
  apply IH, exec_registered, H.
Qed.

Lemma registered_empty : registered emptyWorld.
Proof.
  unfold registered, emptyWorld. cbn [maps robs sens lmks].
  split; [|split; [|split]]; intros p x Hx; rewrite lookup_nil in Hx; discriminate.
Qed.
End Registered.

Section RegisteredEntities.

(** X11: in every store that a sequence of calls of the constructions
    builds, each robot is in the mapping of the map that it points back
    at, under its own id, each sensor is in the mapping of its robot
    under its own id, and each landmark in the mapping of its map: the
    ids drawn at lines 110, 128 and 160 are new each time, no
    construction files an entity over another one, and a construction
    that stops leaves no entity behind.  So two robots of a map, two
    sensors of a robot and two landmarks of a map never have the same
    id.  (Observations, whose id is the constant of line 145, have none
    of this.) *)
Theorem entities_stay_registered :
  forall (size_robCV size_senPH size_lmkAHP : nat) (cs : list Call),
    let w := exec_all size_robCV size_senPH size_lmkAHP cs emptyWorld in
    (forall rp r, robs w !! rp = Some r ->
       exists mp m,
         RobotAbstract.slamMap r = Some mp /\ maps w !! mp = Some m /\
         MapAbstract.robots m !! RobotAbstract.id r = Some rp) /\
    (forall sp s, sens w !! sp = Some s ->
       exists rp r,
         SensorAbstract.robot s = Some rp /\ robs w !! rp = Some r /\
         RobotAbstract.sensors r !! SensorAbstract.id s = Some sp) /\
    (forall lp l, lmks w !! lp = Some l ->
       exists mp m,
         LandmarkAbstract.slamMap l = Some mp /\ maps w !! mp = Some m /\
         MapAbstract.landmarks m !! LandmarkAbstract.id l = Some lp) /\
    (forall rp rq r r',
       robs w !! rp = Some r -> robs w !! rq = Some r' ->
       RobotAbstract.slamMap r = RobotAbstract.slamMap r' ->
       RobotAbstract.id r = RobotAbstract.id r' -> rp = rq) /\
    (forall sp sq s s',
       sens w !! sp = Some s -> sens w !! sq = Some s' ->
       SensorAbstract.robot s = SensorAbstract.robot s' ->
       SensorAbstract.id s = SensorAbstract.id s' -> sp = sq) /\
    (forall lp lq l l',
       lmks w !! lp = Some l -> lmks w !! lq = Some l' ->
       LandmarkAbstract.slamMap l = LandmarkAbstract.slamMap l' ->
       LandmarkAbstract.id l = LandmarkAbstract.id l' -> lp = lq).
Proof.
  intros size_robCV size_senPH size_lmkAHP cs w.
  destruct (exec_all_registered size_robCV size_senPH size_lmkAHP cs emptyWorld
              registered_empty) as (_ & Hrobs & Hsens & Hlmks).
  fold w in Hrobs, Hsens, Hlmks.
  split; [|split; [exact Hsens|split; [exact Hlmks|split; [|split]]]].
  - intros rp r Hr. destruct (Hrobs rp r Hr) as (mp & m & H1 & H2 & H3 & _).
    exists mp, m. repeat split; assumption.
  - intros rp rq r r' Hr Hr' Hmap Hid.
    destruct (Hrobs rp r Hr) as (mp & m & H1 & H2 & H3 & _).
    destruct (Hrobs rq r' Hr') as (mp' & m' & H1' & H2' & H3' & _).
    assert (mp' = mp) as -> by congruence.
    assert (m' = m) as -> by congruence.
    rewrite <- Hid in H3'. congruence.
  - intros sp sq s s' Hs Hs' Hrob Hid.
    destruct (Hsens sp s Hs) as (rp & r & H1 & H2 & H3).
    destruct (Hsens sq s' Hs') as (rp' & r' & H1' & H2' & H3').
    assert (rp' = rp) as -> by congruence.
    assert (r' = r) as -> by congruence.
    rewrite <- Hid in H3'. congruence.
  - intros lp lq l l' Hl Hl' Hmap Hid.
    destruct (Hlmks lp l Hl) as (mp & m & H1 & H2 & H3).
    destruct (Hlmks lq l' Hl') as (mp' & m' & H1' & H2' & H3').
    assert (mp' = mp) as -> by congruence.
    assert (m' = m) as -> by congruence.
    rewrite <- Hid in H3'. congruence.
Qed.

Lemma entities_stay_registered_witness :
  let w := exec_all 13 7 7
             [CallInitSlam 300; CallNewLandmark 0; CallNewLandmark 0] emptyWorld in
  length (robs w) = 1 /\ length (sens w) = 2 /\ length (lmks w) = 2 /\
  SensorAbstract.id <$> sens w = [1; 2] /\
  LandmarkAbstract.id <$> lmks w = [1; 2] /\
  ObservationAbstract.id <$> obss w = [0; 0; 0; 0] /\
  (exists rp r,
      SensorAbstract.robot <$> sens w !! 1 = Some (Some rp) /\
      robs w !! rp = Some r /\
      RobotAbstract.sensors r !! 2 = Some 1) /\
  (exists mp m,
      LandmarkAbstract.slamMap <$> lmks w !! 1 = Some (Some mp) /\
      maps w !! mp = Some m /\
      MapAbstract.landmarks m !! 2 = Some 1).
Proof.
  intros w.
  pose proof (entities_stay_registered 13 7 7
                [CallInitSlam 300; CallNewLandmark 0; CallNewLandmark 0])
    as (_ & Hsens & Hlmks & _).
  fold w in Hsens, Hlmks.
  split; [vm_compute; reflexivity|]. split; [vm_compute; reflexivity|].
  split; [vm_compute; reflexivity|]. split; [vm_compute; reflexivity|].
  split; [vm_compute; reflexivity|]. split; [vm_compute; reflexivity|].
  split.
  - destruct (sens w !! 1) as [s|] eqn:Es; [|vm_compute in Es; discriminate].
    assert (SensorAbstract.id s = 2) as Hid.
    { assert (SensorAbstract.id <$> sens w !! 1 = Some 2) as E
        by (vm_compute; reflexivity).
      rewrite Es in E. injection E as E. exact E. }
    destruct (Hsens 1 s Es) as (rp & r & H1 & H2 & H3).
    exists rp, r.
    change (SensorAbstract.robot <$> Some s) with (Some (SensorAbstract.robot s)).
    rewrite H1, <- Hid. repeat split; assumption.
  - destruct (lmks w !! 1) as [l|] eqn:El; [|vm_compute in El; discriminate].
    assert (LandmarkAbstract.id l = 2) as Hid.
    { assert (LandmarkAbstract.id <$> lmks w !! 1 = Some 2) as E
        by (vm_compute; reflexivity).
      rewrite El in E. injection E as E. exact E. }
    destruct (Hlmks 1 l El) as (mp & m & H1 & H2 & H3).
    exists mp, m.
    change (LandmarkAbstract.slamMap <$> Some l) with (Some (LandmarkAbstract.slamMap l)).
    rewrite H1, <- Hid. repeat split; assumption.
Defined.
End RegisteredEntities.

(** ** printSlam *)

Section PrintSlam.

Lemma out_for_all_ok {A : Type} (l : list A) (body : A -> Out) :
  (forall a, a ∈ l -> (body a).2 = None) ->
  out_for l body = (flat_map (fun a => (body a).1) l, None).
Proof.
  induction l as [|a l IH]; intros Hok; [reflexivity|].
  cbn [out_for flat_map]. unfold out_then.
  rewrite (Hok a) by left.
  rewrite IH by (intros b Hb; apply Hok; right; exact Hb).
  reflexivity.
Qed.

Lemma length_std_map_items (m : gmap nat ptr) : length (std_map_items m) = size m.
Proof.
  unfold std_map_items. rewrite merge_sort_Permutation. apply length_map_to_list.
Qed.

Lemma obs_count_app (l1 l2 : list Printed) :
  length (printed_observations (l1 ++ l2)) =
  length (printed_observations l1) + length (printed_observations l2).
Proof. unfold printed_observations. rewrite omap_app, length_app. reflexivity. Qed.

Lemma out_then_obs_count (a k : Out) :
  length (printed_observations (out_then a k).1) <=
  length (printed_observations a.1) + length (printed_observations k.1).
Proof.
  unfold out_then. destruct a.2; cbn [fst]; [lia|].
  rewrite obs_count_app. lia.
Qed.

Lemma out_for_obs_count {A : Type} (l : list A) (body : A -> Out) (n : nat) :
  (forall a, a ∈ l -> length (printed_observations (body a).1) <= n) ->
  length (printed_observations (out_for l body).1) <= n * length l.
Proof.
  induction l as [|a l IH]; intros Hn; [simpl; lia|].
  cbn [out_for length].
  pose proof (out_then_obs_count (body a) (out_for l body)) as H1.
  pose proof (Hn a ltac:(left)) as H2.
  pose proof (IH (fun b Hb => Hn b ltac:(right; exact Hb))) as H3.
  lia.
Qed.

Lemma print_sensor_obs_count w it :
  length (printed_observations (print_sensor w it).1) <= 0.
Proof. unfold print_sensor. destruct (sens w !! it.2); simpl; lia. Qed.

Lemma print_observation_obs_count w it :
  length (printed_observations (print_observation w it).1) <= 1.
Proof. unfold print_observation. destruct (obss w !! it.2); simpl; lia. Qed.

Lemma print_robot_obs_count w it :
  length (printed_observations (print_robot w it).1) <= 0.
Proof.
  unfold print_robot. destruct (robs w !! it.2) as [r|]; [|simpl; lia].
  match goal with |- context [out_then ?a ?k] =>
    pose proof (out_then_obs_count a k) as H1;
    pose proof (out_for_obs_count (std_map_items (RobotAbstract.sensors r))
                  (print_sensor w) 0
                  (fun x _ => print_sensor_obs_count w x)) as H2
  end.
  change (length (printed_observations (put (PrintedRobot r)).1)) with 0 in H1.
  lia.
Qed.

Lemma print_landmark_obs_count w it :
  keys_zero (lmks w) LandmarkAbstract.observations ->
  length (printed_observations (print_landmark w it).1) <= 1.
Proof.
  intros Hk. unfold print_landmark.
  destruct (lmks w !! it.2) as [l|] eqn:El; [|simpl; lia].
  match goal with |- context [out_then ?a ?k] =>
    pose proof (out_then_obs_count a k) as H1;
    pose proof (out_for_obs_count (std_map_items (LandmarkAbstract.observations l))
                  (print_observation w) 1
                  (fun x _ => print_observation_obs_count w x)) as H2
  end.
  rewrite length_std_map_items in H2.
  pose proof (keys_zero_size _ _ it.2 l Hk El) as H3.
  change (length (printed_observations (put (PrintedLandmark l)).1)) with 0 in H1.
  lia.
Qed.

(** The number of observations that [printSlam] prints is at most the
    number of landmarks of the map, when no observation mapping has a
    key other than 0. *)
Lemma printSlam_obs_count w mp m :
  keys_zero (lmks w) LandmarkAbstract.observations ->
  maps w !! mp = Some m ->
  length (printed_observations (printSlam w mp).1) <= size (MapAbstract.landmarks m).
Proof.
  intros Hk Hm. unfold printSlam. rewrite Hm.
  repeat match goal with |- context [out_then ?a ?k] =>
    lazymatch goal with
    | _ : length (printed_observations (out_then a k).1) <= _ |- _ => fail
    | _ => pose proof (out_then_obs_count a k)
    end
  end.
  pose proof (out_for_obs_count (std_map_items (MapAbstract.robots m))
                (print_robot w) 0 (fun x _ => print_robot_obs_count w x)) as HR.
  pose proof (out_for_obs_count (std_map_items (MapAbstract.landmarks m))
                (print_landmark w) 1
                (fun x _ => print_landmark_obs_count w x Hk)) as HL.
  rewrite length_std_map_items in HL.
  change (length (printed_observations (put PrintedRobotsBanner).1)) with 0 in *.
  change (length (printed_observations (put PrintedLandmarksBanner).1)) with 0 in *.
  lia.
Qed.
End PrintSlam.

Section PrintSlamLinked.

Lemma print_sensor_linked w rp r it :
  links_ok w -> robs w !! rp = Some r ->
  it ∈ std_map_items (RobotAbstract.sensors r) ->
  exists s, sens w !! it.2 = Some s /\
            print_sensor w it = ([PrintedSensor s], None).
Proof.
  intros (_ & _ & H3 & _) Hr Hin. apply elem_of_std_map_items in Hin.
  destruct (H3 rp r it.1 it.2 Hr Hin) as (s & Es & _).
  exists s. split; [exact Es|]. unfold print_sensor. rewrite Es. reflexivity.
Qed.

Lemma print_robot_linked w mp m it :
  links_ok w -> maps w !! mp = Some m ->
  it ∈ std_map_items (MapAbstract.robots m) ->
  exists r, robs w !! it.2 = Some r /\
            print_robot w it =
              (PrintedRobot r ::
                 flat_map (fun x => (print_sensor w x).1)
                          (std_map_items (RobotAbstract.sensors r)),
               None).
Proof.
  intros Hl Hm Hin. pose proof Hl as (H1 & _).
  apply elem_of_std_map_items in Hin.
  destruct (H1 mp m it.1 it.2 Hm Hin) as (r & Er & _).
  exists r. split; [exact Er|]. unfold print_robot. rewrite Er.
  rewrite out_for_all_ok; [reflexivity|].
  intros x Hx. destruct (print_sensor_linked w it.2 r x Hl Er Hx) as (s & _ & ->).
  reflexivity.
Qed.

Lemma print_observation_linked w lp l it :
  links_ok w -> lmks w !! lp = Some l ->
  it ∈ std_map_items (LandmarkAbstract.observations l) ->
  exists o, obss w !! it.2 = Some o /\
            print_observation w it = ([PrintedObservation o], None).
Proof.
  intros (_ & _ & _ & _ & H5) Hlp Hin. apply elem_of_std_map_items in Hin.
  destruct (H5 lp l it.1 it.2 Hlp Hin) as (o & Eo & _).
  exists o. split; [exact Eo|]. unfold print_observation. rewrite Eo. reflexivity.
Qed.

Lemma print_landmark_linked w mp m it :
  links_ok w -> maps w !! mp = Some m ->
  it ∈ std_map_items (MapAbstract.landmarks m) ->
  exists l, lmks w !! it.2 = Some l /\
            print_landmark w it =
              (PrintedLandmark l ::
                 flat_map (fun x => (print_observation w x).1)
                          (std_map_items (LandmarkAbstract.observations l)),
               None).
Proof.
  intros Hl Hm Hin. pose proof Hl as (_ & H2 & _).
  apply elem_of_std_map_items in Hin.
  destruct (H2 mp m it.1 it.2 Hm Hin) as (l & El & _).
  exists l. split; [exact El|]. unfold print_landmark. rewrite El.
  rewrite out_for_all_ok; [reflexivity|].
  intros x Hx. destruct (print_observation_linked w it.2 l x Hl El Hx) as (o & _ & ->).
  reflexivity.
Qed.

(** In a store whose links are in order [printSlam] runs to its end:
    the two banners, the robots with their sensors and the landmarks
    with their observations. *)
Lemma printSlam_linked w mp m :
  links_ok w -> maps w !! mp = Some m ->
  printSlam w mp =
    (PrintedRobotsBanner ::
       flat_map (fun x => (print_robot w x).1) (std_map_items (MapAbstract.robots m)) ++
       PrintedLandmarksBanner ::
       flat_map (fun x => (print_landmark w x).1)
                (std_map_items (MapAbstract.landmarks m)),
     None).
Proof.
  intros Hl Hm. unfold printSlam. rewrite Hm.
  rewrite (out_for_all_ok (std_map_items (MapAbstract.robots m))).
  2:{ intros x Hx. destruct (print_robot_linked w mp m x Hl Hm Hx) as (r & _ & ->).
      reflexivity. }
  rewrite (out_for_all_ok (std_map_items (MapAbstract.landmarks m))).
  2:{ intros x Hx. destruct (print_landmark_linked w mp m x Hl Hm Hx) as (l & _ & ->).
      reflexivity. }
  reflexivity.
Qed.

Lemma printed_robot w mp m k rp r :
  links_ok w -> maps w !! mp = Some m ->
  MapAbstract.robots m !! k = Some rp -> robs w !! rp = Some r ->
  forall p, p = PrintedRobot r \/
            p ∈ flat_map (fun x => (print_sensor w x).1)
                         (std_map_items (RobotAbstract.sensors r)) ->
            p ∈ (printSlam w mp).1.
Proof.
  intros Hl Hm Hk Hr p Hp.
  rewrite (printSlam_linked w mp m Hl Hm). cbn [fst].
  apply elem_of_cons. right. apply elem_of_app. left.
  apply list_elem_of_In, in_flat_map. exists (k, rp).
  split; [apply list_elem_of_In, elem_of_std_map_items; exact Hk|].
  destruct (print_robot_linked w mp m (k, rp) Hl Hm) as (r' & Er' & ->);
    [apply elem_of_std_map_items; exact Hk|].
  cbn [snd] in Er'. assert (r' = r) as -> by congruence.
  apply list_elem_of_In. cbn [fst]. apply elem_of_cons.
  destruct Hp as [->|Hp]; [left; reflexivity|right; exact Hp].
Qed.

Lemma printed_landmark w mp m k lp l :
  links_ok w -> maps w !! mp = Some m ->
  MapAbstract.landmarks m !! k = Some lp -> lmks w !! lp = Some l ->
  PrintedLandmark l ∈ (printSlam w mp).1.
Proof.
  intros Hl Hm Hk Hlp.
  rewrite (printSlam_linked w mp m Hl Hm). cbn [fst].
  apply elem_of_cons. right. apply elem_of_app. right.
  apply elem_of_cons. right.
  apply list_elem_of_In, in_flat_map. exists (k, lp).
  split; [apply list_elem_of_In, elem_of_std_map_items; exact Hk|].
  destruct (print_landmark_linked w mp m (k, lp) Hl Hm) as (l' & El' & ->);
    [apply elem_of_std_map_items; exact Hk|].
  cbn [snd] in El'. assert (l' = l) as -> by congruence.
  apply list_elem_of_In. cbn [fst]. apply elem_of_cons. left. reflexivity.
Qed.
End PrintSlamLinked.

Section PrintSlamOutput.

(** X12: [printSlam] (lines 76-101) on a store that a sequence of calls
    of the constructions has built, for a pointer that holds a map: it
    runs to its end without meeting a null pointer; every robot of the
    store that points back at the map is printed, and so is every sensor
    of such a robot and every landmark that points back at the map; but
    the observations printed are at most one per landmark of the map,
    however many observations the store holds, since the loop of lines
    96-99 goes over the mapping of the landmark.  On a pointer that
    holds no map only the first banner is printed. *)
Theorem printSlam_prints_the_map :
  forall (size_robCV size_senPH size_lmkAHP : nat) (cs : list Call)
         (mp : ptr) (m : MapAbstract.t),
    let w := exec_all size_robCV size_senPH size_lmkAHP cs emptyWorld in
    maps w !! mp = Some m ->
    (printSlam w mp).2 = None /\
    (forall rp r,
        robs w !! rp = Some r -> RobotAbstract.slamMap r = Some mp ->
        PrintedRobot r ∈ (printSlam w mp).1) /\
    (forall sp s rp r,
        sens w !! sp = Some s -> SensorAbstract.robot s = Some rp ->
        robs w !! rp = Some r -> RobotAbstract.slamMap r = Some mp ->
        PrintedSensor s ∈ (printSlam w mp).1) /\
    (forall lp l,
        lmks w !! lp = Some l -> LandmarkAbstract.slamMap l = Some mp ->
        PrintedLandmark l ∈ (printSlam w mp).1) /\
    length (printed_observations (printSlam w mp).1) <= size (MapAbstract.landmarks m) /\
    (forall mq, maps w !! mq = None ->
        printSlam w mq = ([PrintedRobotsBanner], Some NullPointer)).
Proof.
  intros size_robCV size_senPH size_lmkAHP cs mp m w Hm.
  assert (links_ok w) as Hl by (apply exec_all_links, links_ok_empty).
  destruct (exec_all_registered size_robCV size_senPH size_lmkAHP cs emptyWorld
              registered_empty) as (_ & Hrobs & Hsens & Hlmks).
  destruct (exec_all_keys size_robCV size_senPH size_lmkAHP cs emptyWorld
              observation_keys_zero_empty) as [_ Hkl].
  fold w in Hrobs, Hsens, Hlmks, Hkl.
  split; [rewrite (printSlam_linked w mp m Hl Hm); reflexivity|].
  split; [|split; [|split; [|split]]].
  - intros rp r Hr Hmap.
    destruct (Hrobs rp r Hr) as (mq & mm & H1 & H2 & H3 & _).
    assert (mq = mp) as -> by congruence. assert (mm = m) as -> by congruence.
    apply (printed_robot w mp m _ rp r Hl Hm H3 Hr). left. reflexivity.
  - intros sp s rp r Hs Hrob Hr Hmap.
    destruct (Hrobs rp r Hr) as (mq & mm & H1 & H2 & H3 & _).
    assert (mq = mp) as -> by congruence. assert (mm = m) as -> by congruence.
    destruct (Hsens sp s Hs) as (rq & r' & H4 & H5 & H6).
    assert (rq = rp) as -> by congruence. assert (r' = r) as -> by congruence.
    apply (printed_robot w mp m _ rp r Hl Hm H3 Hr). right.
    apply list_elem_of_In, in_flat_map. exists (SensorAbstract.id s, sp).
    split; [apply list_elem_of_In, elem_of_std_map_items; exact H6|].
    unfold print_sensor. cbn [snd]. rewrite Hs. left. reflexivity.
  - intros lp l Hlp Hmap.
    destruct (Hlmks lp l Hlp) as (mq & mm & H1 & H2 & H3).
    assert (mq = mp) as -> by congruence. assert (mm = m) as -> by congruence.
    exact (printed_landmark w mp m _ lp l Hl Hm H3 Hlp).
  - exact (printSlam_obs_count w mp m Hkl Hm).
  - intros mq Hq. unfold printSlam. rewrite Hq. reflexivity.
Qed.

Lemma printSlam_prints_the_map_witness :
  let w := exec_all 13 7 7
             [CallInitSlam 300; CallNewLandmark 0; CallNewLandmark 0] emptyWorld in
  is_Some (maps w !! 0) /\
  (printSlam w 0).2 = None /\
  length (obss w) = 4 /\
  printed_observations (printSlam w 0).1 = [fresh_obs 1 0; fresh_obs 1 1] /\
  length (printSlam w 0).1 = 9 /\
  printSlam w 1 = ([PrintedRobotsBanner], Some NullPointer).
Proof.
  intros w.
  destruct (maps w !! 0) as [m|] eqn:Em; [|vm_compute in Em; discriminate].
  pose proof (printSlam_prints_the_map 13 7 7
                [CallInitSlam 300; CallNewLandmark 0; CallNewLandmark 0] 0 m Em)
    as (Hend & _ & _ & _ & _ & Hnull).
  fold w in Hend, Hnull.
  split; [eexists; reflexivity|]. split; [exact Hend|].
  split; [vm_compute; reflexivity|]. split; [vm_compute; reflexivity|].
  split; [vm_compute; reflexivity|].
  apply Hnull. vm_compute. reflexivity.
Defined.
End PrintSlamOutput.

(** ** fillMapSeq and fillMapDiag *)

Section FillMap.
Import ExtendedKalmanFilterIndirect.

Lemma fillMapSeq_row (i : nat) (n : nat) (st : vec * mat) :
  let r := foldl (fun st' j =>
                    (st'.1, set_P st'.2 i j (Z.of_nat i + 100 * Z.of_nat j)%Z))
                 st (seq 0 n) in
  r.1 = st.1 /\
  forall k l,
    r.2 k l = if bool_decide (k = i) && bool_decide (l < n)
              then (Z.of_nat i + 100 * Z.of_nat l)%Z else st.2 k l.
Proof.
  induction n as [|n IH]; intros r; subst r.
  - cbn [seq foldl fst snd]. split; [reflexivity|]. intros k l.
    rewrite (bool_decide_eq_false_2 (l < 0)) by lia.
    rewrite andb_false_r. reflexivity.
  - rewrite seq_S, foldl_app. cbn [foldl fst snd Nat.add].
    destruct IH as [IH1 IH2]. split; [exact IH1|].
    intros k l. unfold set_P. rewrite IH2.
    destruct (decide (k = i)) as [->|Hk].
    + rewrite !bool_decide_eq_true_2 by reflexivity. cbn [andb].
      destruct (decide (l = n)) as [->|Hl].
      * rewrite bool_decide_eq_true_2 by lia. reflexivity.
      * destruct (decide (l < n)) as [Hlt|Hge].
        -- rewrite !bool_decide_eq_true_2 by lia. reflexivity.
        -- rewrite !bool_decide_eq_false_2 by lia. reflexivity.
    + rewrite !bool_decide_eq_false_2 by exact Hk. reflexivity.
Qed.

Lemma fillMapSeq_rows (size_map n : nat) (xP : vec * mat) :
  let r := foldl (fun st i =>
                    foldl (fun st' j =>
                             (st'.1, set_P st'.2 i j (Z.of_nat i + 100 * Z.of_nat j)%Z))
                          (set_x st.1 i (Z.of_nat i), st.2)
                          (seq 0 size_map))
                 xP (seq 0 n) in
  (forall k, r.1 k = if bool_decide (k < n) then Z.of_nat k else xP.1 k) /\
  (forall k l,
      r.2 k l = if bool_decide (k < n) && bool_decide (l < size_map)
                then (Z.of_nat k + 100 * Z.of_nat l)%Z else xP.2 k l).
Proof.
  induction n as [|n IH]; intros r; subst r.
  - cbn [seq foldl fst snd]. split; [intros k|intros k l];
      rewrite (bool_decide_eq_false_2 (k < 0)) by lia; reflexivity.
  - rewrite seq_S, foldl_app. cbn [foldl Nat.add].
    destruct IH as [IH1 IH2].
    match goal with |- context [foldl ?f (?a, ?b) (seq 0 size_map)] =>
      destruct (fillMapSeq_row n size_map (a, b)) as [R1 R2]
    end.
    cbn [fst snd] in R1, R2. split.
    + intros k. rewrite R1. unfold set_x. rewrite IH1.
      destruct (decide (k = n)) as [->|Hk].
      * rewrite bool_decide_eq_true_2 by lia. reflexivity.
      * destruct (decide (k < n)) as [Hlt|Hge].
        -- rewrite !bool_decide_eq_true_2 by lia. reflexivity.
        -- rewrite !bool_decide_eq_false_2 by lia. reflexivity.
    + intros k l. rewrite R2, IH2.
      destruct (decide (k = n)) as [->|Hk].
      * rewrite (bool_decide_eq_true_2 (n = n)) by reflexivity.
        rewrite (bool_decide_eq_true_2 (n < S n)) by lia.
        rewrite (bool_decide_eq_false_2 (n < n)) by lia.
        cbn [andb]. reflexivity.
      * rewrite (bool_decide_eq_false_2 (k = n)) by exact Hk. cbn [andb].
        destruct (decide (k < n)) as [Hlt|Hge].
        -- rewrite (bool_decide_eq_true_2 (k < n)),
             (bool_decide_eq_true_2 (k < S n)) by lia.
           reflexivity.
        -- rewrite (bool_decide_eq_false_2 (k < n)),
             (bool_decide_eq_false_2 (k < S n)) by lia.
           reflexivity.
Qed.

Lemma fillMapDiag_rows (n : nat) (xP : vec * mat) :
  let r := foldl (fun st i => (set_x st.1 i (Z.of_nat i), set_P st.2 i i (Z.of_nat i)))
                 xP (seq 0 n) in
  (forall k, r.1 k = if bool_decide (k < n) then Z.of_nat k else xP.1 k) /\
  (forall k l,
      r.2 k l = if bool_decide (k < n) && bool_decide (l = k)
                then Z.of_nat k else xP.2 k l).
Proof.
  induction n as [|n IH]; intros r; subst r.
  - cbn [seq foldl fst snd]. split; [intros k|intros k l];
      rewrite (bool_decide_eq_false_2 (k < 0)) by lia; reflexivity.
  - rewrite seq_S, foldl_app. cbn [foldl Nat.add fst snd].
    destruct IH as [IH1 IH2]. split.
    + intros k. unfold set_x. rewrite IH1.
      destruct (decide (k = n)) as [->|Hk].
      * rewrite bool_decide_eq_true_2 by lia. reflexivity.
      * destruct (decide (k < n)) as [Hlt|Hge].
        -- rewrite !bool_decide_eq_true_2 by lia. reflexivity.
        -- rewrite !bool_decide_eq_false_2 by lia. reflexivity.
    + intros k l. unfold set_P. rewrite IH2.
      destruct (decide (k = n)) as [->|Hk].
      * rewrite (bool_decide_eq_true_2 (n < S n)) by lia.
        rewrite (bool_decide_eq_false_2 (n < n)) by lia. cbn [andb].
        destruct (decide (l = n)) as [->|Hl].
        -- rewrite bool_decide_eq_true_2 by reflexivity. reflexivity.
        -- rewrite bool_decide_eq_false_2 by exact Hl. reflexivity.
      * destruct (decide (k < n)) as [Hlt|Hge].
        -- rewrite (bool_decide_eq_true_2 (k < n)),
             (bool_decide_eq_true_2 (k < S n)) by lia.
           reflexivity.
        -- rewrite (bool_decide_eq_false_2 (k < n)),
             (bool_decide_eq_false_2 (k < S n)) by lia.
           reflexivity.
Qed.
End FillMap.

Section FillMapLoops.
Import ExtendedKalmanFilterIndirect.

(** X13: the two nested loops of [fillMapSeq] (lines 43-50) leave
    [x(i) = i] and [P(i, j) = i + 100 * j] for all [i, j] below the
    size and nothing else changed, whatever the map held before: the
    order of the writes does not show.  The matrix they leave equals
    its transpose on the diagonal only, so for a size of 2 or more it
    is not symmetric (it cannot be a covariance). *)
Theorem fillMapSeq_fills_every_entry :
  forall (size_map : nat) (x : vec) (P : mat),
    let r := fillMapSeq_loops size_map (x, P) in
    (forall i, r.1 i = if bool_decide (i < size_map) then Z.of_nat i else x i) /\
    (forall i j, r.2 i j = fillMapSeq size_map P i j) /\
    (forall i j, i < size_map -> j < size_map ->
                 r.2 i j = (Z.of_nat i + 100 * Z.of_nat j)%Z) /\
    (forall i j, i < size_map -> j < size_map -> (r.2 i j = r.2 j i <-> i = j)) /\
    (2 <= size_map -> ~ symmetric_upto size_map r.2).
Proof.
  intros size_map x P r.
  destruct (fillMapSeq_rows size_map size_map (x, P)) as [H1 H2].
  fold (fillMapSeq_loops size_map (x, P)) in H1, H2. fold r in H1, H2.
  cbn [fst snd] in H1, H2.
  assert (forall i j, i < size_map -> j < size_map ->
                      r.2 i j = (Z.of_nat i + 100 * Z.of_nat j)%Z) as Hin.
  { intros i j Hi Hj. rewrite H2, !bool_decide_eq_true_2 by lia. reflexivity. }
  split; [exact H1|]. split; [|split; [exact Hin|split]].
  - intros i j. rewrite H2. reflexivity.
  - intros i j Hi Hj. rewrite (Hin i j Hi Hj), (Hin j i Hj Hi). lia.
  - intros Hsize Hsym.
    specialize (Hsym 0 1 ltac:(lia) ltac:(lia)).
    rewrite (Hin 0 1), (Hin 1 0) in Hsym by lia. discriminate.
Qed.

(** X14: the loop of [fillMapDiag] (lines 52-58) leaves [x(i) = i] and
    [P(i, i) = i] for [i] below the size and writes no entry of [P]
    off the diagonal, so a matrix that was symmetric stays symmetric;
    the mean it leaves is the one that [fillMapSeq] leaves, and running
    it after [fillMapSeq] leaves the matrix of [fillMapSeq] but for the
    diagonal. *)
Theorem fillMapDiag_writes_the_diagonal_only :
  forall (size_map : nat) (x : vec) (P : mat),
    let r := fillMapDiag size_map (x, P) in
    (forall i, r.1 i = if bool_decide (i < size_map) then Z.of_nat i else x i) /\
    (forall i, r.2 i i = if bool_decide (i < size_map) then Z.of_nat i else P i i) /\
    (forall i j, i <> j -> r.2 i j = P i j) /\
    (forall n, symmetric_upto n P -> symmetric_upto n r.2) /\
    (forall i, r.1 i = (fillMapSeq_loops size_map (x, P)).1 i) /\
    (forall i j,
        (fillMapDiag size_map (fillMapSeq_loops size_map (x, P))).2 i j =
        if bool_decide (i < size_map) && bool_decide (j < size_map)
        then (if bool_decide (i = j) then Z.of_nat i
              else (Z.of_nat i + 100 * Z.of_nat j)%Z)
        else P i j).
Proof.
  intros size_map x P r.
  destruct (fillMapDiag_rows size_map (x, P)) as [H1 H2].
  fold (fillMapDiag size_map (x, P)) in H1, H2. fold r in H1, H2.
  cbn [fst snd] in H1, H2.
  assert (forall i j, i <> j -> r.2 i j = P i j) as Hoff.
  { intros i j Hij. rewrite H2.
    rewrite (bool_decide_eq_false_2 (j = i)) by congruence.
    rewrite andb_false_r. reflexivity. }
  split; [exact H1|]. split; [|split; [exact Hoff|split; [|split]]].
  - intros i. rewrite H2.
    rewrite (bool_decide_eq_true_2 (i = i)) by reflexivity.
    rewrite andb_true_r. reflexivity.
  - intros n Hsym i j Hi Hj.
    destruct (decide (i = j)) as [->|Hij]; [reflexivity|].
    rewrite (Hoff i j), (Hoff j i) by congruence. apply Hsym; assumption.
  - intros i. rewrite H1.
    destruct (fillMapSeq_rows size_map size_map (x, P)) as [S1 _].
    fold (fillMapSeq_loops size_map (x, P)) in S1. rewrite S1. reflexivity.
  - intros i j.
    destruct (fillMapDiag_rows size_map (fillMapSeq_loops size_map (x, P))) as [_ D2].
    fold (fillMapDiag size_map (fillMapSeq_loops size_map (x, P))) in D2.
    rewrite D2.
    destruct (fillMapSeq_rows size_map size_map (x, P)) as [_ S2].
    fold (fillMapSeq_loops size_map (x, P)) in S2. rewrite S2. cbn [snd].
    destruct (decide (i < size_map)) as [Hi|Hi].
    + rewrite (bool_decide_eq_true_2 (i < size_map)) by exact Hi. cbn [andb].
      destruct (decide (j = i)) as [->|Hji].
      * rewrite !(bool_decide_eq_true_2 (i = i)) by reflexivity.
        rewrite (bool_decide_eq_true_2 (i < size_map)) by exact Hi. reflexivity.
      * rewrite (bool_decide_eq_false_2 (j = i)) by exact Hji.
        rewrite (bool_decide_eq_false_2 (i = j)) by congruence. reflexivity.
    + rewrite (bool_decide_eq_false_2 (i < size_map)) by exact Hi. reflexivity.
Qed.
End FillMapLoops.
